(** * decentralized-chat-app: the encrypted-session synchronisation engine

    A shallow embedding of the TypeScript sources
    ([services/gunService.ts], [services/cryptoService.ts],
    [services/userCache.ts], [components/Chat.tsx],
    [components/ChatWindow.tsx]) and the properties the specification
    states about them.

    Conventions.
    - A JavaScript string is the list of its UTF-16 code units ([jsstring]).
    - A byte buffer ([ArrayBuffer], [Uint8Array]) is a list of [byte]s; a
      binary string and the arithmetic of base64 and UTF-8 use their
      numbers, each an [N] below 256.
    - Code that throws returns a [result]: [Ok v] or [Throw e].
    - The replicated store (Gun), the browser's AES-GCM and [localStorage]
      are collaborators of the code; they appear as explicit state or as
      section variables. *)

From Stdlib Require Import List NArith ZArith Lia ZifyNat Bool Ascii String Sorted Permutation.
From Stdlib Require Strings.Byte.
From Stdlib Require Import Init.Byte.
From stdpp Require Import base tactics option list numbers gmap sets.
Import ListNotations.

Local Open Scope N_scope.
Local Open Scope list_scope.

(** ** JavaScript values used throughout *)

(** A string: its UTF-16 code units. *)
Definition jsstring := list N.

(** An ASCII literal of the source as a [jsstring]. *)
Fixpoint lit (s : string) : jsstring :=
  match s with
  | EmptyString => []
  | String a r => N_of_ascii a :: lit r
  end.

(** Truthiness of a string: every string but the empty one. *)
Definition truthy (s : jsstring) : bool :=
  match s with [] => false | _ => true end.

(** [x < y] on strings: lexicographic on code units. *)
Fixpoint js_lt (x y : jsstring) : bool :=
  match x, y with
  | _, [] => false
  | [], _ :: _ => true
  | a :: x', b :: y' => (a <? b) || ((a =? b) && js_lt x' y')
  end.

(** [Array.prototype.sort] is stable; on a consistent comparator its result is
    the one stable sorted arrangement, computed here by insertion.  [le x y]
    stands for [comparefn(x, y) <= 0]. *)
Section ArraySort.
Context {A : Type} (le : A -> A -> bool).

Fixpoint sort_insert (x : A) (l : list A) : list A :=
  match l with
  | [] => [x]
  | y :: l' => if le x y then x :: y :: l' else y :: sort_insert x l'
  end.

Fixpoint Array_sort (l : list A) : list A :=
  match l with
  | [] => []
  | x :: l' => sort_insert x (Array_sort l')
  end.
End ArraySort.

(** Comparators of the shape [(a, b) => key(a) - key(b)]. *)
Section NumericKey.
Context {A : Type} (key : A -> Z).

(** [comparefn(a, b) <= 0] *)
Definition key_le (a b : A) : bool := (key a - key b <=? 0)%Z.

(** In ascending order of the key. *)
Definition key_leP (a b : A) : Prop := (key a <= key b)%Z.


End NumericKey.

(** [Array.prototype.sort] with a comparator that is not consistent, one
    that returns [NaN] for some pair: ECMAScript leaves the order to the
    implementation ("the sort order is implementation-defined"), and what
    is known of the result is that it holds the elements of the array.
    [compare a b] is the number the sort makes of [comparefn(a, b)], [NaN]
    read as [0]. *)
Class SortEngine := {
  engine_sort : forall A : Type, (A -> A -> Z) -> list A -> list A;
  engine_sort_perm :
    forall (A : Type) (compare : A -> A -> Z) (l : list A),
      Permutation (engine_sort A compare l) l
}.
Arguments engine_sort {_ A} compare l.

(** Comparators of the shape [(a, b) => a.key - b.key] over values whose
    key need not be a number: [number a] is what the subtraction makes of
    the key of [a], [None] when that is [NaN]. *)
Section AnyKey.
Context {Engine : SortEngine} {A : Type} (number : A -> option Z).

(** The key is a number. *)
Definition numeric (a : A) : bool :=
  match number a with Some _ => true | None => false end.

(** The number of a numeric key. *)
Definition number_or_0 (a : A) : Z :=
  match number a with Some t => t | None => 0%Z end.

(** [comparefn(a, b)] as the sort reads it. *)
Definition difference (a b : A) : Z :=
  match number a, number b with
  | Some x, Some y => (x - y)%Z
  | _, _ => 0%Z
  end.

(** [array.sort((a, b) => a.key - b.key)]: the stable sort when every key
    is a number, the engine's arrangement otherwise. *)
Definition sort_by_key (l : list A) : list A :=
  if forallb numeric l then Array_sort (key_le number_or_0) l
  else engine_sort difference l.
End AnyKey.

(** The arrangement V8 (Chrome, Node.js) arrives at for an array of fewer
    than 64 elements, whatever the comparator: the run the array begins
    with (reversed when it descends strictly) is extended by binary
    insertion of the elements that follow. *)
Module V8.
Section Sort.
Context {A : Type} (compare : A -> A -> Z).

(** [CountAndMakeRun]: how many of the elements after the first two
    continue the run. *)
Fixpoint count_run (descending : bool) (previous : A) (l : list A) : nat :=
  match l with
  | [] => 0%nat
  | x :: l' =>
      let order := compare x previous in
      if (if descending then (order <? 0)%Z else (0 <=? order)%Z)
      then S (count_run descending x l')
      else 0%nat
  end.

(** The run in ascending order and the elements behind it. *)
Definition make_run (l : list A) : list A * list A :=
  match l with
  | a0 :: a1 :: rest =>
      let descending := (compare a1 a0 <? 0)%Z in
      let n := (2 + count_run descending a1 rest)%nat in
      (if descending then rev (firstn n l) else firstn n l, skipn n l)
  | _ => (l, [])
  end.

(** The binary search of [BinaryInsertionSort] between [left] and
    [right]: the index the pivot is inserted at. *)
Fixpoint search (fuel : nat) (pivot : A) (sorted : list A) (left right : nat) : nat :=
  match fuel with
  | O => left
  | S fuel' =>
      if (left <? right)%nat then
        let mid := (left + (right - left) / 2)%nat in
        match nth_error sorted mid with
        | Some x =>
            if (compare pivot x <? 0)%Z then search fuel' pivot sorted left mid
            else search fuel' pivot sorted (S mid) right
        | None => left
        end
      else left
  end.

Definition insert_pivot (sorted : list A) (pivot : A) : list A :=
  let at_index := search (S (length sorted)) pivot sorted 0 (length sorted) in
  firstn at_index sorted ++ pivot :: skipn at_index sorted.

Definition sort (l : list A) : list A :=
  let '(run, rest) := make_run l in
  fold_left insert_pivot rest run.
End Sort.

(** V8 as the engine. *)
Definition engine : SortEngine.
Proof.
  refine {| engine_sort := fun A compare l => sort compare l |}.
  intros A compare l. unfold sort.
  assert (forall rest run,
            Permutation (fold_left (insert_pivot compare) rest run) (run ++ rest)) as Hfold.
  { induction rest as [|x rest IH]; intros run; cbn [fold_left].
    - by rewrite app_nil_r.
    - rewrite IH. unfold insert_pivot.
      set (k := search compare _ x run 0 (length run)).
      rewrite <- app_assoc. cbn [app]. rewrite <- !Permutation_middle.
      by rewrite app_assoc, firstn_skipn. }
  destruct (make_run compare l) as [run rest] eqn:Erun.
  rewrite Hfold. unfold make_run in Erun.
  destruct l as [|a0 [|a1 rest0]]; try (injection Erun as <- <-; by rewrite app_nil_r).
  injection Erun as <- <-. cbn [Nat.add firstn skipn].
  set (n := count_run compare _ a1 rest0).
  assert (Permutation ((a0 :: a1 :: firstn n rest0) ++ skipn n rest0) (a0 :: a1 :: rest0))
    as Hp by (cbn [app]; by rewrite firstn_skipn).
  destruct (compare a1 a0 <? 0)%Z; [|exact Hp].
  etrans; [|exact Hp]. apply Permutation_app_tail, Permutation_sym, Permutation_rev.
Defined.
End V8.

(** The default comparator of [sort()]: [x] goes first unless [y < x]. *)
Definition default_le (x y : jsstring) : bool := negb (js_lt y x).

(** [Array.prototype.join]. *)
Fixpoint Array_join (sep : jsstring) (l : list jsstring) : jsstring :=
  match l with
  | [] => []
  | [x] => x
  | x :: l' => x ++ sep ++ Array_join sep l'
  end.

(** ** Exceptions and results *)

(** The exceptions the code meets, by their [name]; [Error msg] is
    [new Error(msg)]. *)
Inductive JsError :=
| QuotaExceededError
| SecurityError
| InvalidCharacterError
| OperationError
| Error (msg : jsstring).

(** [e?.name === 'QuotaExceededError'] *)
Definition isQuotaExceeded (e : JsError) : bool :=
  match e with QuotaExceededError => true | _ => false end.

(** The outcome of code that may throw. *)
Inductive result (A : Type) :=
| Ok (a : A)
| Throw (e : JsError).
Arguments Ok {A} a.
Arguments Throw {A} e.

(** ** types: messages and contacts *)

(** The [timestamp] member of an entry.  The replica hands over what a
    peer wrote ([msg: any]): a number of milliseconds, as [Date.now()] gave
    it to the sender; nothing, when the member is missing ([undefined]); a
    value that is no number and that a subtraction turns into [NaN], a
    string such as ["soon"] or an object; or a value that is no number and
    that a subtraction turns into one ([null], a boolean, a numeric
    string), with its truthiness. *)
Inductive Timestamp :=
| Millis (t : Z)
| Absent
| Foreign
| Coerced (truthy : bool) (t : Z).

#[global] Instance Timestamp_eq_dec : EqDecision Timestamp.
Proof. solve_decision. Defined.

(** What [a.timestamp - b.timestamp] makes of the member: [None] is [NaN]. *)
Definition to_number (t : Timestamp) : option Z :=
  match t with
  | Millis z | Coerced _ z => Some z
  | Absent | Foreign => None
  end.

(** Truthiness of the member. *)
Definition truthy_timestamp (t : Timestamp) : bool :=
  match t with
  | Millis z => negb (z =? 0)%Z
  | Absent => false
  | Foreign => true
  | Coerced b _ => b
  end.

(** [ChatMessage], with the fields [saveMessagesToCache] lists.  An optional
    field that is absent is [None]. *)
Record ChatMessage := {
  _key : option jsstring;
  sender : jsstring;
  text : option jsstring;
  timestamp : Timestamp;
  ct : option jsstring;
  iv : option jsstring;
  isFile : bool;
  name : option jsstring;
  type : option jsstring;
  size : option Z;
  ctFile : option jsstring;
  ivFile : option jsstring
}.

#[global] Instance ChatMessage_eq_dec : EqDecision ChatMessage.
Proof. solve_decision. Defined.

(** [{ ...msg, _key: key }] *)
Definition with_key (msg : ChatMessage) (key : jsstring) : ChatMessage :=
  {| _key := Some key; sender := sender msg; text := text msg;
     timestamp := timestamp msg; ct := ct msg; iv := iv msg;
     isFile := isFile msg; name := name msg; type := type msg;
     size := size msg; ctFile := ctFile msg; ivFile := ivFile msg |}.

(** [{ ...msg, text: t }] *)
Definition with_text (msg : ChatMessage) (t : jsstring) : ChatMessage :=
  {| _key := _key msg; sender := sender msg; text := Some t;
     timestamp := timestamp msg; ct := ct msg; iv := iv msg;
     isFile := isFile msg; name := name msg; type := type msg;
     size := size msg; ctFile := ctFile msg; ivFile := ivFile msg |}.

(** Truthiness of an optional string field: present and not empty. *)
Definition truthy_field (f : option jsstring) : bool :=
  match f with Some s => truthy s | None => false end.

(** The entry carries a number as its timestamp. *)
Definition timed (m : ChatMessage) : bool := numeric (fun m => to_number (timestamp m)) m.

(** The milliseconds of an entry that does. *)
Definition millis (m : ChatMessage) : Z := number_or_0 (fun m => to_number (timestamp m)) m.

(** [(a, b) => a.timestamp - b.timestamp] on entries that all carry a
    number, as [comparefn(a, b) <= 0]. *)
Definition by_timestamp : ChatMessage -> ChatMessage -> bool := key_le millis.

(** [msgs.sort((a, b) => a.timestamp - b.timestamp)] *)
Definition sort_by_timestamp {Engine : SortEngine} (msgs : list ChatMessage)
  : list ChatMessage :=
  sort_by_key (fun m => to_number (timestamp m)) msgs.

Record Contact := {
  username : jsstring;
  chatId : jsstring
}.

(** A JSON Web Key: its members. *)
Definition JsonWebKey := list (jsstring * jsstring).
(** ** services/gunService.ts: channel identifiers *)

Module GunService.

(** The part of the replicated graph the chat links live in:
    [users/<name>/chats], a set per user. *)
Definition Graph := gmap jsstring (gset jsstring).

Definition chats_set (g : Graph) (user chatId : jsstring) : Graph :=
  <[user := {[chatId]} ∪ default ∅ (g !! user)]> g.

(** The character class [[a-zA-Z0-9_-]]. *)
Definition isChatIdChar (c : N) : bool :=
  ((97 <=? c) && (c <=? 122)) || ((65 <=? c) && (c <=? 90))
  || ((48 <=? c) && (c <=? 57)) || (c =? 95) || (c =? 45).

(** [username.replace(/[^a-zA-Z0-9_-]/g, '')] *)
Definition sanitizeForChatId (username : jsstring) : jsstring :=
  List.filter isChatIdChar username.

Definition colon : jsstring := lit ":".

(** [[a, b].sort().join(':')] *)
Definition sortedJoin (a b : jsstring) : jsstring :=
  Array_join colon (Array_sort default_le [a; b]).

(** [createChatLink]: the returned value ([None] is [undefined]) and the
    graph afterwards.  [gun] is [None] when Gun could not be loaded. *)
Definition createChatLink (gun : option Graph) (currentUser partnerUsername : jsstring)
  : option jsstring * option Graph :=
  match gun with
  | None => (None, None)
  | Some g =>
      let safeCurrent := sanitizeForChatId currentUser in
      let safePartner := sanitizeForChatId partnerUsername in
      if negb (truthy safeCurrent) || negb (truthy safePartner) then (None, Some g)
      else
        let chatId := sortedJoin safeCurrent safePartner in
        let g1 := chats_set g currentUser chatId in
        let g2 := chats_set g1 partnerUsername chatId in
        (Some chatId, Some g2)
  end.

(** *** The key directory: [fetchPartnerPubKey] *)

(** A value the replica hands to a [once] callback. *)
Inductive JsValue :=
| JUndefined
| JNull
| JBool (b : bool)
| JNumber (n : Z)
| JString (s : jsstring)
| JObject (members : JsonWebKey).

(** [res !== undefined && res !== null && res !== ''] *)
Definition nonEmpty (res : JsValue) : bool :=
  match res with
  | JUndefined | JNull => false
  | JString s => truthy s
  | _ => true
  end.

(** [!value] *)
Definition falsy (v : JsValue) : bool :=
  match v with
  | JUndefined | JNull => true
  | JBool b => negb b
  | JNumber n => (n =? 0)%Z
  | JString s => negb (truthy s)
  | JObject _ => false
  end.

(** What the replica does with one [once] read: it answers after some
    milliseconds, it throws at once, or it never calls back. *)
Inductive Read :=
| Answers (res : JsValue) (after : Z)
| Throws
| Silent.

(** What the code does while it resolves a name, in order. *)
Inductive Event :=
| Attempted (timeout : Z)
| Slept (ms : Z).

(** [tryOnce]: the read raced against a timer of [timeout] milliseconds;
    the first of the two resolves the promise, a timeout with [undefined]. *)
Definition tryOnce (timeout : Z) (r : Read) : JsValue :=
  match r with
  | Answers res after => if (after <? timeout)%Z then res else JUndefined
  | Throws => JUndefined
  | Silent => JUndefined
  end.

(** [Math.max(900, Math.floor(delayMs / 2))] *)
Definition attemptTimeout (delayMs : Z) : Z := Z.max 900 (delayMs / 2).

(** [Math.min(2000, Math.round(delayMs * 1.2))]; on whole milliseconds
    the product has a fractional part of 0, .2, .4, .6 or .8, so the
    rounding is that of [(12 * delayMs + 5) / 10]. *)
Definition nextDelay (delayMs : Z) : Z := Z.min 2000 ((12 * delayMs + 5) / 10).

Section WithJson.
(** [JSON.parse]; [None] when it throws. *)
Variable JSON_parse : jsstring -> option JsValue.

(** [(typeof res === 'string') ? JSON.parse(res) : res], and [res] when
    parsing throws. *)
Definition decodeKey (res : JsValue) : JsValue :=
  match res with
  | JString s =>
      match JSON_parse s with
      | Some v => v
      | None => res
      end
  | _ => res
  end.

(** The loop of [fetchPartnerPubKey]: [reads i] is what the replica does
    with the [i]-th read; [retries] counts the rounds left. *)
Fixpoint resolveLoop (reads : nat -> Read) (retries : nat) (i : nat) (delayMs : Z)
  : JsValue * list Event :=
  match retries with
  | O => (JNull, [])
  | S retries' =>
      let timeout := attemptTimeout delayMs in
      let res := tryOnce timeout (reads i) in
      if nonEmpty res then (decodeKey res, [Attempted timeout])
      else
        let '(v, events) := resolveLoop reads retries' (S i) (nextDelay delayMs) in
        (v, Attempted timeout :: Slept delayMs :: events)
  end.

(** [fetchPartnerPubKey(partnerUsername, retries = 5, delayMs = 700)]:
    the value the promise resolves to and what happened on the way.
    [reads] is the behaviour of [users/<partnerUsername>/pubKey]. *)
Definition fetchPartnerPubKey (gun : option Graph) (reads : nat -> Read)
    (retries : nat) (delayMs : Z) : JsValue * list Event :=
  match gun with
  | None => (JNull, [])
  | Some _ => resolveLoop reads retries 0 delayMs
  end.

Definition DEFAULT_RETRIES : nat := 5.
Definition DEFAULT_DELAY : Z := 700.
End WithJson.

(** The delay in force at the [n]-th attempt when the first is [delayMs]. *)
Fixpoint delayAt (n : nat) (delayMs : Z) : Z :=
  match n with
  | O => delayMs
  | S n' => delayAt n' (nextDelay delayMs)
  end.

(** [retries] rounds without an answer: an attempt, then the wait. *)
Fixpoint schedule (retries : nat) (delayMs : Z) : list Event :=
  match retries with
  | O => []
  | S retries' =>
      Attempted (attemptTimeout delayMs) :: Slept delayMs
      :: schedule retries' (nextDelay delayMs)
  end.

(** The [n]-th read, raced against the timeout in force, gives nothing. *)
Definition emptyAt (reads : nat -> Read) (delayMs : Z) (n : nat) : Prop :=
  nonEmpty (tryOnce (attemptTimeout (delayAt n delayMs)) (reads n)) = false.

(** The attempts among the events. *)
Definition attemptsOf (events : list Event) : nat :=
  length (List.filter (fun e => match e with Attempted _ => true | _ => false end) events).

(** A username drawn from the restricted character set. *)
Definition restricted (u : jsstring) : Prop :=
  u <> [] /\ Forall (fun c => isChatIdChar c = true) u.

End GunService.

(** ** Byte buffers *)

(** A byte from a number below 256 (a [Uint8Array] store truncates). *)
Definition byte_of (n : N) : byte :=
  match Byte.of_N (n mod 256) with
  | Some b => b
  | None => Byte.x00
  end.

(** The string with bit [bit] of its [i]-th code unit flipped. *)
Definition flip_bit (i : nat) (bit : N) (s : jsstring) : jsstring :=
  alter (fun c => N.lxor c (2 ^ bit)) i s.

(** ** [btoa] and [atob]: base64 as the platform defines it *)

Module Base64.

(** The base64 alphabet: [A-Z], [a-z], [0-9], [+], [/]. *)
Definition b64_char (i : N) : N :=
  if i <? 26 then 65 + i
  else if i <? 52 then 97 + (i - 26)
  else if i <? 62 then 48 + (i - 52)
  else if i =? 62 then 43
  else 47.

Definition b64_index (c : N) : option N :=
  if (65 <=? c) && (c <=? 90) then Some (c - 65)
  else if (97 <=? c) && (c <=? 122) then Some (c - 97 + 26)
  else if (48 <=? c) && (c <=? 57) then Some (c - 48 + 52)
  else if c =? 43 then Some 62
  else if c =? 47 then Some 63
  else None.

(** The 6-bit groups of a byte sequence; a last group is filled with zero
    bits. *)
Fixpoint sextets (bs : list N) : list N :=
  match bs with
  | [] => []
  | [a] => [a / 4; (a mod 4) * 16]
  | [a; b] => [a / 4; (a mod 4) * 16 + b / 16; (b mod 16) * 4]
  | a :: b :: c :: rest =>
      a / 4 :: (a mod 4) * 16 + b / 16 :: (b mod 16) * 4 + c / 64 :: c mod 64
      :: sextets rest
  end.

(** The [=] signs that fill the last group of four characters. *)
Definition padding (len : nat) : jsstring :=
  match (len mod 3)%nat with
  | 1%nat => [61; 61]
  | 2%nat => [61]
  | _ => []
  end.

(** Base64 of a byte sequence. *)
Definition encode (bs : list N) : jsstring :=
  map b64_char (sextets bs) ++ padding (length bs).

(** [btoa(s)]: base64 of a binary string; a code unit above 255 throws. *)
Definition btoa (s : jsstring) : result jsstring :=
  if forallb (fun c => c <=? 255) s then Ok (encode s)
  else Throw InvalidCharacterError.

Definition is_ascii_whitespace (c : N) : bool :=
  (c =? 9) || (c =? 10) || (c =? 12) || (c =? 13) || (c =? 32).

(** Removes one or two [=] at the end. *)
Fixpoint strip_equals (data : jsstring) : jsstring :=
  match data with
  | [] => []
  | c :: rest =>
      let last_two := match rest with
                      | [] => true
                      | [d] => d =? 61
                      | _ => false
                      end in
      if (c =? 61) && last_two then [] else c :: strip_equals rest
  end.

(** [mapM b64_index]: the 6-bit values of the characters, or [None] when one
    is outside the alphabet. *)
Fixpoint indices (data : jsstring) : option (list N) :=
  match data with
  | [] => Some []
  | c :: rest =>
      match b64_index c, indices rest with
      | Some i, Some l => Some (i :: l)
      | _, _ => None
      end
  end.

(** The bytes of a sequence of 6-bit groups: 24 bits give three bytes; of a
    rest of 12 bits the last four are dropped, of 18 bits the last two. *)
Fixpoint octets (sx : list N) : list N :=
  match sx with
  | a :: b :: c :: d :: rest =>
      let n := ((a * 64 + b) * 64 + c) * 64 + d in
      n / 65536 :: (n / 256) mod 256 :: n mod 256 :: octets rest
  | [a; b; c] =>
      let n := (a * 64 + b) * 64 + c in
      [n / 1024; (n / 4) mod 256]
  | [a; b] => [(a * 64 + b) / 16]
  | _ => []
  end.

(** The steps of forgiving-base64 decode: white space is removed; when the
    length then is a multiple of four, one or two [=] at the end are
    removed; a length that leaves 1 modulo 4 or a character outside the
    alphabet is a failure; the rest is read as bits. *)
Definition remove_whitespace (data : jsstring) : jsstring :=
  List.filter (fun c => negb (is_ascii_whitespace c)) data.

Definition remove_padding (data : jsstring) : jsstring :=
  if (length data mod 4 =? 0)%nat then strip_equals data else data.

Definition decode_alphabet (data : jsstring) : option (list N) :=
  if (length data mod 4 =? 1)%nat then None
  else
    match indices data with
    | Some sx => Some (octets sx)
    | None => None
    end.

(** Forgiving-base64 decode. *)
Definition decode (data : jsstring) : option (list N) :=
  decode_alphabet (remove_padding (remove_whitespace data)).

(** [atob(data)]: the binary string, or [InvalidCharacterError]. *)
Definition atob (data : jsstring) : result jsstring :=
  match decode data with
  | Some bin => Ok bin
  | None => Throw InvalidCharacterError
  end.

(** When one byte is left over, the last character before [==] carries its
    two low bits [low] and four bits of filling: the bit of that character
    which, flipped, changes the filling only. *)
Definition idle_bit (low : N) : N :=
  match low with
  | 0 => 1
  | 1 => 1
  | 2 => 3
  | _ => 6
  end.

(** The number the last character before the padding is divided by when
    [atob] reads it: of that character the four low bits are dropped when
    one byte is left over, the two low bits when two are. *)
Definition dropped (len : nat) : N :=
  match (len mod 3)%nat with
  | 1%nat => 16
  | 2%nat => 4
  | _ => 1
  end.

(** A flipped bit of the base64 text of [bs] that [atob] does not see: it
    is in the last character before the padding, makes it another
    character of the alphabet, and leaves the bits that are read. *)
Definition idle_flip (bs : list N) (i : nat) (bit : N) : bool :=
  (S i =? length (sextets bs))%nat
  && match sextets bs !! i with
     | Some s =>
         match b64_index (N.lxor (b64_char s) (2 ^ bit)) with
         | Some s' => s' / dropped (length bs) =? s / dropped (length bs)
         | None => false
         end
     | None => false
     end.

End Base64.

(** ** [TextEncoder] and [TextDecoder] (UTF-8) *)

Module Encoding.

Definition is_high_surrogate (c : N) : bool := (0xD800 <=? c) && (c <=? 0xDBFF).
Definition is_low_surrogate (c : N) : bool := (0xDC00 <=? c) && (c <=? 0xDFFF).

(** A Unicode scalar value. *)
Definition scalar (cp : N) : Prop :=
  cp < 0x110000 /\ ~ (0xD800 <= cp <= 0xDFFF).

(** The scalar values of a string; a surrogate without its partner becomes
    U+FFFD. *)
Fixpoint to_scalars (s : jsstring) : list N :=
  match s with
  | [] => []
  | c :: rest =>
      if is_high_surrogate c then
        match rest with
        | d :: rest' =>
            if is_low_surrogate d
            then 0x10000 + (c - 0xD800) * 0x400 + (d - 0xDC00) :: to_scalars rest'
            else 0xFFFD :: to_scalars rest
        | [] => [0xFFFD]
        end
      else if is_low_surrogate c then 0xFFFD :: to_scalars rest
      else c :: to_scalars rest
  end.

(** The UTF-8 bytes of a scalar value. *)
Definition utf8_bytes (cp : N) : list N :=
  if cp <? 0x80 then [cp]
  else if cp <? 0x800 then [0xC0 + cp / 64; 0x80 + cp mod 64]
  else if cp <? 0x10000 then
    [0xE0 + cp / 4096; 0x80 + (cp / 64) mod 64; 0x80 + cp mod 64]
  else
    [0xF0 + cp / 262144; 0x80 + (cp / 4096) mod 64;
     0x80 + (cp / 64) mod 64; 0x80 + cp mod 64].

(** [new TextEncoder().encode(s)] *)
Definition TextEncoder_encode (s : jsstring) : list byte :=
  map byte_of (flat_map utf8_bytes (to_scalars s)).

(** A multi-byte sequence the decoder is in the middle of. *)
Record Pending := {
  code_point : N;
  bytes_needed : N;
  lower_boundary : N;
  upper_boundary : N
}.

Inductive Lead :=
| Emit (cp : N)
| Malformed
| Continue (p : Pending).

(** A byte met while no sequence is pending. *)
Definition lead (b : N) : Lead :=
  if b <=? 0x7F then Emit b
  else if (0xC2 <=? b) && (b <=? 0xDF) then
    Continue {| code_point := b - 0xC0; bytes_needed := 1;
                lower_boundary := 0x80; upper_boundary := 0xBF |}
  else if (0xE0 <=? b) && (b <=? 0xEF) then
    Continue {| code_point := b - 0xE0; bytes_needed := 2;
                lower_boundary := if b =? 0xE0 then 0xA0 else 0x80;
                upper_boundary := if b =? 0xED then 0x9F else 0xBF |}
  else if (0xF0 <=? b) && (b <=? 0xF4) then
    Continue {| code_point := b - 0xF0; bytes_needed := 3;
                lower_boundary := if b =? 0xF0 then 0x90 else 0x80;
                upper_boundary := if b =? 0xF4 then 0x8F else 0xBF |}
  else Malformed.

(** The UTF-8 decoder without the [fatal] flag: malformed input yields
    U+FFFD, and the byte that broke a sequence is read again on its own. *)
Fixpoint utf8_decode (st : option Pending) (bs : list N) : list N :=
  match bs with
  | [] => match st with Some _ => [0xFFFD] | None => [] end
  | b :: rest =>
      let fresh :=
        match lead b with
        | Emit cp => cp :: utf8_decode None rest
        | Malformed => 0xFFFD :: utf8_decode None rest
        | Continue p => utf8_decode (Some p) rest
        end in
      match st with
      | None => fresh
      | Some p =>
          if (lower_boundary p <=? b) && (b <=? upper_boundary p) then
            let cp := code_point p * 64 + b mod 64 in
            if bytes_needed p =? 1 then cp :: utf8_decode None rest
            else utf8_decode
                   (Some {| code_point := cp; bytes_needed := bytes_needed p - 1;
                            lower_boundary := 0x80; upper_boundary := 0xBF |})
                   rest
          else 0xFFFD :: fresh
      end
  end.

(** A byte order mark at the start is dropped ([ignoreBOM] is off). *)
Definition strip_bom (bs : list N) : list N :=
  match bs with
  | 0xEF :: 0xBB :: 0xBF :: rest => rest
  | _ => bs
  end.

(** The UTF-16 code units of a scalar value. *)
Definition utf16_units (cp : N) : jsstring :=
  if cp <? 0x10000 then [cp]
  else [0xD800 + (cp - 0x10000) / 0x400; 0xDC00 + (cp - 0x10000) mod 0x400].

(** [new TextDecoder().decode(buffer)] *)
Definition TextDecoder_decode (buffer : list byte) : jsstring :=
  flat_map utf16_units (utf8_decode None (strip_bom (map Byte.to_N buffer))).

(** A string without unpaired surrogates, its code units below 2^16. *)
Fixpoint well_formed (s : jsstring) : bool :=
  match s with
  | [] => true
  | c :: rest =>
      if is_high_surrogate c then
        match rest with
        | d :: rest' => is_low_surrogate d && well_formed rest'
        | [] => false
        end
      else negb (is_low_surrogate c) && (c <? 0x10000) && well_formed rest
  end.

(** U+FEFF at the start of a string. *)
Definition starts_with_bom (s : jsstring) : bool :=
  match s with
  | c :: _ => c =? 0xFEFF
  | [] => false
  end.

End Encoding.
(** ** services/cryptoService.ts *)

(** [crypto.subtle] with [{ name: 'AES-GCM', iv }]: the browser's primitive.
    [subtle_decrypt] is [None] when the promise rejects ([OperationError]:
    the tag does not authenticate the data under this key and nonce). *)
Class SubtleCrypto := {
  CryptoKey : Type;
  subtle_encrypt : CryptoKey -> list byte -> list byte -> list byte;
  subtle_decrypt : CryptoKey -> list byte -> list byte -> option (list byte)
}.

(** What AES-GCM guarantees of a ciphertext it made itself. *)
Class AesGcmCorrect (C : SubtleCrypto) : Prop :=
  decrypt_encrypt :
    forall (k : CryptoKey) (iv plaintext : list byte),
      subtle_decrypt k iv (subtle_encrypt k iv plaintext) = Some plaintext.

Module Crypto.

(** [arrayBufferToB64]: [btoa] of the binary string of the bytes. *)
Definition arrayBufferToB64 (buffer : list byte) : jsstring :=
  Base64.encode (map Byte.to_N buffer).

(** [b64ToArrayBuffer]: the bytes of [atob(b64)]. *)
Definition b64ToArrayBuffer (b64 : jsstring) : result (list byte) :=
  match Base64.atob b64 with
  | Ok bin => Ok (map byte_of bin)
  | Throw e => Throw e
  end.

Definition textToArrayBuffer (s : jsstring) : list byte :=
  Encoding.TextEncoder_encode s.

Definition arrayBufferToText (buf : list byte) : jsstring :=
  Encoding.TextDecoder_decode buf.

(** [{ ct, iv }] *)
Record Encrypted := {
  enc_ct : jsstring;
  enc_iv : jsstring
}.

Section WithSubtle.
Context {C : SubtleCrypto}.

(** [encryptMessage]; [iv] is the value of
    [crypto.getRandomValues(new Uint8Array(12))]. *)
Definition encryptMessage (sharedKey : CryptoKey) (iv : list byte)
    (plaintext : jsstring) : Encrypted :=
  let ct := subtle_encrypt sharedKey iv (textToArrayBuffer plaintext) in
  {| enc_ct := arrayBufferToB64 ct; enc_iv := arrayBufferToB64 iv |}.

(** [decryptMessage], the exported function: what [atob] or
    [crypto.subtle.decrypt] throw reaches the caller. *)
Definition decryptMessage (sharedKey : CryptoKey) (ct_b64 iv_b64 : jsstring)
  : result jsstring :=
  match b64ToArrayBuffer iv_b64 with
  | Throw e => Throw e
  | Ok iv =>
      match b64ToArrayBuffer ct_b64 with
      | Throw e => Throw e
      | Ok ciphertext =>
          match subtle_decrypt sharedKey iv ciphertext with
          | None => Throw OperationError
          | Some plain => Ok (arrayBufferToText plain)
          end
      end
  end.

(** [encryptFile], on the bytes of the file. *)
Definition encryptFile (sharedKey : CryptoKey) (iv : list byte)
    (file : list byte) : Encrypted :=
  {| enc_ct := arrayBufferToB64 (subtle_encrypt sharedKey iv file);
     enc_iv := arrayBufferToB64 iv |}.

(** [decryptFile]: the bytes of the blob. *)
Definition decryptFile (sharedKey : CryptoKey) (ct_b64 iv_b64 : jsstring)
  : result (list byte) :=
  match b64ToArrayBuffer iv_b64 with
  | Throw e => Throw e
  | Ok iv =>
      match b64ToArrayBuffer ct_b64 with
      | Throw e => Throw e
      | Ok ciphertext =>
          match subtle_decrypt sharedKey iv ciphertext with
          | None => Throw OperationError
          | Some plain => Ok plain
          end
      end
  end.
End WithSubtle.

End Crypto.

(** The object [cryptoService]: the same operations, [decryptMessage] inside
    [try]/[catch]. *)
Module CryptoService.

Definition DecryptionFailure : JsError := Error (lit "Failed to decrypt message").

Section WithSubtle.
Context {C : SubtleCrypto}.

Definition encryptMessage (sharedKey : CryptoKey) (iv : list byte)
    (plaintext : jsstring) : Crypto.Encrypted :=
  Crypto.encryptMessage sharedKey iv plaintext.

(** Whatever is thrown inside is caught and
    [new Error('Failed to decrypt message')] is thrown instead. *)
Definition decryptMessage (sharedKey : CryptoKey) (ct_b64 iv_b64 : jsstring)
  : result jsstring :=
  match Crypto.decryptMessage sharedKey ct_b64 iv_b64 with
  | Ok plaintext => Ok plaintext
  | Throw _ => Throw DecryptionFailure
  end.
End WithSubtle.

End CryptoService.

(** A stand-in for AES-GCM with the same interface and the same growth of
    sixteen bytes: the plaintext followed by a tag that sums key, nonce and
    plaintext.  It serves where a statement needs some primitive to compute
    with; nothing is claimed of its secrecy. *)
Module ToyGcm.

Definition checksum (bs : list byte) : N :=
  fold_right (fun b acc => (Byte.to_N b + acc) mod 256) 0 bs.

Definition tag (k iv plaintext : list byte) : list byte :=
  byte_of (checksum (k ++ iv ++ plaintext)) :: repeat Byte.x5a 15.

Definition encrypt (k iv plaintext : list byte) : list byte :=
  plaintext ++ tag k iv plaintext.

Definition byte_eqb (a b : byte) : bool := Byte.to_N a =? Byte.to_N b.

Fixpoint bytes_eqb (a b : list byte) : bool :=
  match a, b with
  | [], [] => true
  | x :: a', y :: b' => byte_eqb x y && bytes_eqb a' b'
  | _, _ => false
  end.

Definition decrypt (k iv data : list byte) : option (list byte) :=
  let n := (length data - 16)%nat in
  let plaintext := firstn n data in
  if (16 <=? length data)%nat && bytes_eqb (skipn n data) (tag k iv plaintext)
  then Some plaintext else None.

Definition subtle : SubtleCrypto := {|
  CryptoKey := list byte;
  subtle_encrypt := encrypt;
  subtle_decrypt := decrypt
|}.

End ToyGcm.
(** ** services/userCache.ts: the local durable cache *)

Module UserCache.

Definition STORAGE_KEY_PREFIX : jsstring := lit "dchat_user_".
Definition CHATS_KEY_PREFIX : jsstring := lit "dchat_chats_".
Definition MESSAGES_KEY_PREFIX : jsstring := lit "dchat_messages_".

(** What the code stores under a key, as the JSON document it serialises. *)
Inductive Payload :=
| PUser (username : jsstring) (pubKey : JsonWebKey) (encryptedPrivKey : jsstring)
| PContacts (contacts : list Contact)
| PMessages (messages : list ChatMessage)
| POther.

(** A stored string: a JSON object with its [updatedAt] member when that is a
    number, or a string [JSON.parse] does not turn into an object (also the
    empty string). *)
Inductive Stored :=
| Doc (payload : Payload) (updatedAt : option Z)
| NotJson.

(** [window.localStorage]: the items in key order, and the browser's
    decision on a write: [None] accepts it, [Some e] throws [e] and leaves
    the items as they are. *)
Record Storage := {
  items : list (jsstring * Stored);
  refuses : list (jsstring * Stored) -> jsstring -> Stored -> option JsError
}.

Definition key_eqb (a b : jsstring) : bool := bool_decide (a = b).

Fixpoint lookup_item (k : jsstring) (l : list (jsstring * Stored)) : option Stored :=
  match l with
  | [] => None
  | (k', v) :: l' => if key_eqb k k' then Some v else lookup_item k l'
  end.

Fixpoint upsert (k : jsstring) (v : Stored) (l : list (jsstring * Stored))
  : list (jsstring * Stored) :=
  match l with
  | [] => [(k, v)]
  | (k', v') :: l' => if key_eqb k k' then (k, v) :: l' else (k', v') :: upsert k v l'
  end.

Definition getItem (s : Storage) (k : jsstring) : option Stored :=
  lookup_item k (items s).

Definition removeItem (s : Storage) (k : jsstring) : Storage :=
  {| items := List.filter (fun kv => negb (key_eqb k kv.1)) (items s);
     refuses := refuses s |}.

Definition setItem (s : Storage) (k : jsstring) (v : Stored) : result Storage :=
  match refuses s (items s) k v with
  | Some e => Throw e
  | None => Ok {| items := upsert k v (items s); refuses := refuses s |}
  end.

(** [Object.keys(storage)] *)
Definition keys (s : Storage) : list jsstring := map fst (items s).

(** [k.startsWith(prefix)] *)
Fixpoint startsWith (k prefix : jsstring) : bool :=
  match prefix, k with
  | [], _ => true
  | _ :: _, [] => false
  | p :: prefix', c :: k' => (c =? p) && startsWith k' prefix'
  end.

Definition buildKey (username : jsstring) : jsstring := STORAGE_KEY_PREFIX ++ username.

(** The loop of [saveUserToCache] that looks for the oldest entry:
    [oldestTime] is [None] while it is [Infinity]. *)
Fixpoint findOldest (s : Storage) (userKeys : list jsstring)
         (oldestKey : jsstring) (oldestTime : option Z) : jsstring :=
  match userKeys with
  | [] => oldestKey
  | key :: rest =>
      match getItem s key with
      | Some (Doc _ (Some t)) =>
          match oldestTime with
          | None => findOldest s rest key (Some t)
          | Some t0 =>
              if (t <? t0)%Z then findOldest s rest key (Some t)
              else findOldest s rest oldestKey oldestTime
          end
      | _ => findOldest s rest oldestKey oldestTime
      end
  end.

(** [saveUserToCache]: the storage afterwards and the exception that reaches
    the caller, if any.  [storage] is [None] when [getStorage()] is [null];
    [now] is [Date.now()]. *)
Definition saveUserToCache (storage : option Storage) (now : Z)
    (username : jsstring) (pubKey : JsonWebKey) (encryptedPrivKey : jsstring)
  : option Storage * option JsError :=
  match storage with
  | None => (None, None)
  | Some s =>
      let record := Doc (PUser username pubKey encryptedPrivKey) (Some now) in
      match setItem s (buildKey username) record with
      | Ok s' => (Some s', None)
      | Throw e =>
          if isQuotaExceeded e then
            let userKeys := List.filter (fun k => startsWith k STORAGE_KEY_PREFIX) (keys s) in
            match userKeys with
            | k0 :: _ =>
                let oldestKey := findOldest s userKeys k0 None in
                let s1 := removeItem s oldestKey in
                match setItem s1 (buildKey username) record with
                | Ok s2 => (Some s2, None)
                | Throw _ => (Some s1, Some e)
                end
            | [] => (Some s, Some e)
            end
          else (Some s, Some e)
      end
  end.

(** [saveContactsToCache] *)
Definition saveContactsToCache (storage : option Storage) (now : Z)
    (username : jsstring) (contacts : list Contact)
  : option Storage * option JsError :=
  match storage with
  | None => (None, None)
  | Some s =>
      match setItem s (CHATS_KEY_PREFIX ++ username) (Doc (PContacts contacts) (Some now)) with
      | Ok s' => (Some s', None)
      | Throw _ => (Some s, None)
      end
  end.

(** [parsed.updatedAt || 0] of the entry under [k]; [0] when the entry is
    missing, empty or unparseable. *)
Definition keyTime (s : Storage) (k : jsstring) : jsstring * Z :=
  match getItem s k with
  | Some (Doc _ (Some t)) => (k, t)
  | _ => (k, 0%Z)
  end.

(** [(a, b) => a.time - b.time] *)
Definition by_time : jsstring * Z -> jsstring * Z -> bool := key_le snd.

(** [for (let i = 0; i < toRemove; i++) storage.removeItem(keyTimes[i].key)] *)
Fixpoint removeOldest (s : Storage) (keyTimes : list (jsstring * Z)) (toRemove : nat)
  : Storage :=
  match toRemove, keyTimes with
  | S n, kt :: rest => removeOldest (removeItem s kt.1) rest n
  | _, _ => s
  end.

(** [saveMessagesToCache]; [now'] is the [Date.now()] of the second write. *)
Definition saveMessagesToCache (storage : option Storage) (now now' : Z)
    (chatId : jsstring) (messages : list ChatMessage)
  : option Storage * option JsError :=
  match storage with
  | None => (None, None)
  | Some s =>
      let cacheKey := MESSAGES_KEY_PREFIX ++ chatId in
      match setItem s cacheKey (Doc (PMessages messages) (Some now)) with
      | Ok s' => (Some s', None)
      | Throw e =>
          if isQuotaExceeded e then
            let messageKeys :=
              List.filter (fun k => startsWith k MESSAGES_KEY_PREFIX) (keys s) in
            if (10 <? length messageKeys)%nat then
              let keyTimes := Array_sort by_time (map (keyTime s) messageKeys) in
              let toRemove := Nat.max 1 (length keyTimes / 5) in
              let s1 := removeOldest s keyTimes toRemove in
              match setItem s1 cacheKey (Doc (PMessages messages) (Some now')) with
              | Ok s2 => (Some s2, None)
              | Throw _ => (Some s1, None)
              end
            else (Some s, None)
          else (Some s, None)
      end
  end.

(** [loadMessagesFromCache] *)
Definition loadMessagesFromCache (storage : option Storage) (chatId : jsstring)
  : option (list ChatMessage) :=
  match storage with
  | None => None
  | Some s =>
      match getItem s (MESSAGES_KEY_PREFIX ++ chatId) with
      | Some (Doc (PMessages messages) _) => Some messages
      | _ => None
      end
  end.

(** [loadContactsFromCache] *)
Definition loadContactsFromCache (storage : option Storage) (username : jsstring)
  : option (list Contact) :=
  match storage with
  | None => None
  | Some s =>
      match getItem s (CHATS_KEY_PREFIX ++ username) with
      | Some (Doc (PContacts contacts) _) => Some contacts
      | _ => None
      end
  end.

(** The keys of the message caches, as the cleanup of
    [saveMessagesToCache] collects them. *)
Definition messageKeys (s : Storage) : list jsstring :=
  List.filter (fun k => startsWith k MESSAGES_KEY_PREFIX) (keys s).

End UserCache.

(** ** components/Auth.tsx: the call site of [saveUserToCache] *)

Module Auth.

(** [try { saveUserToCache(...) } catch (cacheErr) { console.warn(...) }]:
    login and signup go on without the cache. *)
Definition cacheUser (storage : option UserCache.Storage) (now : Z)
    (username : jsstring) (pubKey : JsonWebKey) (encryptedPrivKey : jsstring)
  : option UserCache.Storage * option JsError :=
  match UserCache.saveUserToCache storage now username pubKey encryptedPrivKey with
  | (storage', _) => (storage', None)
  end.

End Auth.
(** ** components/Chat.tsx: the message stream reconciler *)

Module Chat.
Import UserCache.

Record ChatSession := {
  partner : jsstring;
  id : jsstring
}.

(** The state of the component the reconciler works on: the [messages]
    state, the [renderedMessageKeys] ref, [localStorage], and the chat node
    that carries the [map().on] listener, if any. *)
Record ChatState := {
  currentChat : option ChatSession;
  messages : list ChatMessage;
  renderedMessageKeys : gset jsstring;
  storage : option Storage;
  listening : option jsstring
}.

(** [prev.some(m => m._key === key)] *)
Definition some_key (key : jsstring) (prev : list ChatMessage) : bool :=
  existsb (fun m => bool_decide (_key m = Some key)) prev.

(** A callback of the feed: [msg] is [None] when Gun hands over [null];
    [at] is the clock reading when it runs. *)
Record Callback := {
  at_time : Z;
  cb_msg : option ChatMessage;
  cb_key : jsstring
}.

Section WithEngine.
Context {Engine : SortEngine}.

(** [handleMessage], the closure made while [currentChat.id] was [chatId]. *)
Definition handleMessage (chatId : jsstring) (cb : Callback) (st : ChatState) : ChatState :=
  match cb_msg cb with
  | None => st
  | Some msg =>
      let key := cb_key cb in
      if negb (truthy key) || bool_decide (key ∈ renderedMessageKeys st) then st
      else
        let keys' := {[key]} ∪ renderedMessageKeys st in
        let fullMsg := with_key msg key in
        let prev := messages st in
        if some_key key prev then
          {| currentChat := currentChat st; messages := prev;
             renderedMessageKeys := keys'; storage := storage st;
             listening := listening st |}
        else
          let newState := sort_by_timestamp (prev ++ [fullMsg]) in
          {| currentChat := currentChat st; messages := newState;
             renderedMessageKeys := keys';
             storage := (saveMessagesToCache (storage st) (at_time cb) (at_time cb)
                           chatId newState).1;
             listening := listening st |}
  end.

(** The keys the hydration marks as rendered:
    [cachedMessages.forEach(msg => { if (msg._key) keys.add(msg._key) })]. *)
Fixpoint cachedKeys (cached : list ChatMessage) : gset jsstring :=
  match cached with
  | [] => ∅
  | m :: rest =>
      match _key m with
      | Some k => if truthy k then {[k]} ∪ cachedKeys rest else cachedKeys rest
      | None => cachedKeys rest
      end
  end.

(** The body of the message effect for [currentChat = chat]: the timeline
    is emptied, the cache of the channel is shown, the listener attached. *)
Definition openChat (chat : ChatSession) (st : ChatState) : ChatState :=
  match loadMessagesFromCache (storage st) (id chat) with
  | Some (m :: cached) =>
      {| currentChat := Some chat; messages := m :: cached;
         renderedMessageKeys := cachedKeys (m :: cached);
         storage := storage st; listening := Some (id chat) |}
  | _ =>
      {| currentChat := Some chat; messages := [];
         renderedMessageKeys := ∅;
         storage := storage st; listening := Some (id chat) |}
  end.

(** The effect that saves the timeline:
    [if (currentChat && messages.length > 0) saveMessagesToCache(...)],
    run with the [messages] and [currentChat] of one render. *)
Definition saveEffect (now : Z) (chat : option ChatSession)
    (msgs : list ChatMessage) (s : option Storage) : option Storage :=
  match chat, msgs with
  | Some c, _ :: _ => (saveMessagesToCache s now now (id c) msgs).1
  | _, _ => s
  end.

(** The cleanup of the message effect: [chatNode.map().off()]. *)
Definition cleanup (st : ChatState) : ChatState :=
  {| currentChat := currentChat st; messages := messages st;
     renderedMessageKeys := renderedMessageKeys st;
     storage := storage st; listening := None |}.

(** [setCurrentChat(chat)] and the effects of the render it causes, in the
    order React runs them: the cleanup of the old listener, the message
    effect, the save effect of that render (whose [messages] are still the
    ones shown before), then the save effect of the render that shows the
    hydrated timeline. *)
Definition selectChat (now : Z) (chat : ChatSession) (st : ChatState) : ChatState :=
  let shown := messages st in
  let st1 := openChat chat (cleanup st) in
  let s1 := saveEffect now (Some chat) shown (storage st1) in
  let s2 := saveEffect now (Some chat) (messages st1) s1 in
  {| currentChat := currentChat st1; messages := messages st1;
     renderedMessageKeys := renderedMessageKeys st1;
     storage := s2; listening := listening st1 |}.

(** A callback Gun delivers for the chat node [chatId]: it reaches
    [handleMessage] while that node carries the listener. *)
Definition deliver (chatId : jsstring) (cb : Callback) (st : ChatState) : ChatState :=
  if bool_decide (listening st = Some chatId) then
    let st' := handleMessage chatId cb st in
    if bool_decide (messages st' = messages st) then st'
    else
      (* the timeline changed: the render runs the save effect *)
      {| currentChat := currentChat st'; messages := messages st';
         renderedMessageKeys := renderedMessageKeys st';
         storage := saveEffect (at_time cb) (currentChat st') (messages st') (storage st');
         listening := listening st' |}
  else st.

(** A feed: the callbacks Gun delivers for one chat node, in order. *)
Definition feed (chatId : jsstring) (cbs : list Callback) (st : ChatState) : ChatState :=
  fold_left (fun s cb => deliver chatId cb s) cbs st.

(** The component as mounted: no chat selected, nothing shown. *)
Definition mount (s : option Storage) : ChatState :=
  {| currentChat := None; messages := []; renderedMessageKeys := ∅;
     storage := s; listening := None |}.

(** The entry keys of a timeline. *)
Definition entryKeys (msgs : list ChatMessage) : list jsstring :=
  omap _key msgs.

(** *** [handleNewChatSubmit] *)

(** White space as [String.prototype.trim] sees it. *)
Definition is_js_whitespace (c : N) : bool :=
  ((9 <=? c) && (c <=? 13)) || (c =? 0x20) || (c =? 0xA0) || (c =? 0x1680)
  || ((0x2000 <=? c) && (c <=? 0x200A)) || (c =? 0x2028) || (c =? 0x2029)
  || (c =? 0x202F) || (c =? 0x205F) || (c =? 0x3000) || (c =? 0xFEFF).

Fixpoint trimStart (s : jsstring) : jsstring :=
  match s with
  | c :: rest => if is_js_whitespace c then trimStart rest else s
  | [] => []
  end.

Definition trim (s : jsstring) : jsstring := rev (trimStart (rev (trimStart s))).

(** [/^[a-zA-Z0-9_-]+$/.test(s)] *)
Definition validUsername (s : jsstring) : bool :=
  truthy s && forallb GunService.isChatIdChar s.

Definition PLEASE_ENTER : jsstring := lit "Please enter a username.".
Definition NOT_YOURSELF : jsstring := lit "You can't chat with yourself.".
Definition INVALID_FORMAT : jsstring := lit "Invalid username format.".
Definition USER_NOT_FOUND : jsstring :=
  lit "User not found. Please check the username and try again.".
Definition FAILED_TO_CREATE : jsstring := lit "Failed to create chat. Please try again.".

(** What the form ends with: a status line, or the chat that was started. *)
Inductive NewChatOutcome :=
| Status (msg : jsstring)
| Started (chat : ChatSession).

(** [handleNewChatSubmit] up to the point where the chat is selected: the
    outcome, what the directory lookup did, and the graph afterwards. *)
Definition handleNewChatSubmit (JSON_parse : jsstring -> option GunService.JsValue)
    (gun : option GunService.Graph) (reads : nat -> GunService.Read)
    (currentUser newChatUsername : jsstring)
  : NewChatOutcome * list GunService.Event * option GunService.Graph :=
  let trimmedUsername := trim newChatUsername in
  if negb (truthy trimmedUsername) then (Status PLEASE_ENTER, [], gun)
  else if bool_decide (trimmedUsername = currentUser) then (Status NOT_YOURSELF, [], gun)
  else if negb (validUsername trimmedUsername) then (Status INVALID_FORMAT, [], gun)
  else
    let '(pubKey, events) :=
      GunService.fetchPartnerPubKey JSON_parse gun reads
        GunService.DEFAULT_RETRIES GunService.DEFAULT_DELAY in
    if GunService.falsy pubKey then (Status USER_NOT_FOUND, events, gun)
    else
      match GunService.createChatLink gun currentUser trimmedUsername with
      | (Some chatId, gun') =>
          (Started {| partner := trimmedUsername; id := chatId |}, events, gun')
      | (None, gun') => (Status FAILED_TO_CREATE, events, gun')
      end.


(** A timeline as the reconciler keeps it: no entry key twice, and
    ascending timestamps when every entry carries a number. *)
Definition timeline_ok (msgs : list ChatMessage) : Prop :=
  (List.Forall (fun m => timed m = true) msgs -> StronglySorted (key_leP millis) msgs)
  /\ NoDup (entryKeys msgs).

(** A stored document that is no message list, or one whose list is such a
    timeline. *)
Definition item_ok (kv : jsstring * Stored) : Prop :=
  match kv.2 with
  | Doc (PMessages l) _ => timeline_ok l
  | _ => True
  end.

(** Every message list in the durable cache is such a timeline. *)
Definition cache_ok (s : option Storage) : Prop :=
  match s with
  | None => True
  | Some s => List.Forall item_ok (items s)
  end.

(** The invariant of the component: the timeline is one, the cache holds
    only such, and every key marked as rendered is in the timeline. *)
Definition Inv (st : ChatState) : Prop :=
  timeline_ok (messages st) /\ cache_ok (storage st)
  /\ (forall k, k ∈ renderedMessageKeys st -> k ∈ entryKeys (messages st)).

(** The states the component reaches: mounted over a cache this code
    wrote, then chats selected and callbacks delivered in any order. *)
Inductive reachable : ChatState -> Prop :=
| reach_mount s : cache_ok s -> reachable (mount s)
| reach_select now chat st : reachable st -> reachable (selectChat now chat st)
| reach_deliver chatId cb st : reachable st -> reachable (deliver chatId cb st)
| reach_cleanup st : reachable st -> reachable (cleanup st).


End WithEngine.

End Chat.
(** ** components/Chat.tsx: [MessageItem], the rendering of one message *)

Module MessageItem.

(** ["🔒 [Decryption Failed]"]; the lock is U+1F512. *)
Definition DECRYPTION_FAILED : jsstring :=
  [0xD83D; 0xDD12] ++ lit " [Decryption Failed]".

(** The two pieces of state of the item: [decryptedText] and the bytes
    behind [fileUrl]; [None] is [null]. *)
Record ItemState := {
  decryptedText : option jsstring;
  fileUrl : option (list byte)
}.

(** [a || b] on optional strings. *)
Definition or_else (a b : option jsstring) : option jsstring :=
  if truthy_field a then a else b.

Section WithSubtle.
Context {C : SubtleCrypto}.

(** [getSharedKey] of the parent: the key for a partner, or the exception
    it throws when the partner's public key cannot be fetched. *)
Variable getSharedKey : jsstring -> result CryptoKey.

(** [process()] inside the effect; what is thrown anywhere in it sets the
    sentinel. *)
Definition process (currentUser partner : jsstring) (msg : ChatMessage) : ItemState :=
  let isMe := bool_decide (sender msg = currentUser) in
  let partnerForKey := if isMe then partner else sender msg in
  let failed := {| decryptedText := Some DECRYPTION_FAILED; fileUrl := None |} in
  let untouched := {| decryptedText := None; fileUrl := None |} in
  if isFile msg then
    match getSharedKey partnerForKey with
    | Throw _ => failed
    | Ok sharedKey =>
        match or_else (ctFile msg) (ct msg), or_else (ivFile msg) (iv msg) with
        | Some c, Some i =>
            if truthy c && truthy i then
              match Crypto.decryptFile sharedKey c i with
              | Ok blob => {| decryptedText := None; fileUrl := Some blob |}
              | Throw _ => failed
              end
            else untouched
        | _, _ => untouched
        end
    end
  else if isMe && truthy_field (text msg) then
    {| decryptedText := text msg; fileUrl := None |}
  else
    match getSharedKey partnerForKey with
    | Throw _ => failed
    | Ok sharedKey =>
        match ct msg, iv msg with
        | Some c, Some i =>
            if truthy c && truthy i then
              match Crypto.decryptMessage sharedKey c i with
              | Ok t => {| decryptedText := Some t; fileUrl := None |}
              | Throw _ => failed
              end
            else untouched
        | _, _ => untouched
        end
    end.

(** What the item shows of a message: on which side, the state above, the
    file's name, type and size, and the time. *)
Record View := {
  isMe : bool;
  shown : ItemState;
  file : bool;
  fileName : option jsstring;
  fileType : option jsstring;
  fileSize : option Z;
  time : Timestamp
}.

Definition render (currentUser partner : jsstring) (msg : ChatMessage) : View :=
  {| isMe := bool_decide (sender msg = currentUser);
     shown := process currentUser partner msg;
     file := isFile msg;
     fileName := name msg;
     fileType := type msg;
     fileSize := size msg;
     time := timestamp msg |}.
End WithSubtle.

(** [{ ...msg, text: t }] with [t] possibly absent: the same message with
    another plaintext echo. *)
Definition with_echo (msg : ChatMessage) (t : option jsstring) : ChatMessage :=
  {| _key := _key msg; sender := sender msg; text := t;
     timestamp := timestamp msg; ct := ct msg; iv := iv msg;
     isFile := isFile msg; name := name msg; type := type msg;
     size := size msg; ctFile := ctFile msg; ivFile := ivFile msg |}.

(** What the item shows of a message of somebody else: the decryption of
    [ct] under [iv] with the key shared with the sender, the sentinel when
    the key or the decryption fails, nothing while either field is missing. *)
Definition decryptedOnly {C : SubtleCrypto} (getSharedKey : jsstring -> result CryptoKey)
    (msg : ChatMessage) : ItemState :=
  match getSharedKey (sender msg) with
  | Throw _ => {| decryptedText := Some DECRYPTION_FAILED; fileUrl := None |}
  | Ok sharedKey =>
      match ct msg, iv msg with
      | Some c, Some i =>
          if truthy c && truthy i then
            match Crypto.decryptMessage sharedKey c i with
            | Ok t => {| decryptedText := Some t; fileUrl := None |}
            | Throw _ => {| decryptedText := Some DECRYPTION_FAILED; fileUrl := None |}
            end
          else {| decryptedText := None; fileUrl := None |}
      | _, _ => {| decryptedText := None; fileUrl := None |}
      end
  end.

End MessageItem.
(** ** components/ChatWindow.tsx *)

Module ChatWindow.

(** [Message] of the types file. *)
Record Message := {
  id : jsstring;
  sender : jsstring;
  ct : option jsstring;
  iv : option jsstring;
  timestamp : Timestamp;
  text : option jsstring
}.

#[global] Instance Message_eq_dec : EqDecision Message.
Proof. solve_decision. Defined.

Definition FAILED_TO_DECRYPT : jsstring := lit "[Failed to decrypt]".

(** [{ ...msg, id: id }] *)
Definition with_id (msg : Message) (i : jsstring) : Message :=
  {| id := i; sender := sender msg; ct := ct msg; iv := iv msg;
     timestamp := timestamp msg; text := text msg |}.

(** [{ ...msgData, text: t }] *)
Definition with_text (msg : Message) (t : option jsstring) : Message :=
  {| id := id msg; sender := sender msg; ct := ct msg; iv := iv msg;
     timestamp := timestamp msg; text := t |}.

(** A [Map<string, Message>]: its entries in insertion order. *)
Definition MessageMap := list (jsstring * Message).

Definition Map_has (k : jsstring) (m : MessageMap) : bool :=
  existsb (fun kv => bool_decide (kv.1 = k)) m.

(** [set] keeps the place of a key that is present. *)
Fixpoint Map_set (k : jsstring) (v : Message) (m : MessageMap) : MessageMap :=
  match m with
  | [] => [(k, v)]
  | (k', v') :: m' =>
      if bool_decide (k' = k) then (k, v) :: m' else (k', v') :: Map_set k v m'
  end.

Definition Map_values (m : MessageMap) : list Message := map snd m.

(** The message carries a number as its timestamp. *)
Definition timed (m : Message) : bool := numeric (fun m => to_number (timestamp m)) m.

(** The milliseconds of a message that does. *)
Definition millis (m : Message) : Z := number_or_0 (fun m => to_number (timestamp m)) m.

(** [(a, b) => a.timestamp - b.timestamp] on messages that all carry a
    number. *)
Definition by_timestamp : Message -> Message -> bool := key_le millis.

(** [values.sort((a, b) => a.timestamp - b.timestamp)] *)
Definition sort_by_timestamp {Engine : SortEngine} (msgs : list Message) : list Message :=
  sort_by_key (fun m => to_number (timestamp m)) msgs.

(** The entry keys of a rendered list. *)
Definition ids (msgs : list Message) : list jsstring := map id msgs.

(** A value that sits under its own [id]. *)
Definition keyed (kv : jsstring * Message) : Prop := id kv.2 = kv.1.

(** A map as the callback keeps it: no key twice, each value under its own
    [id]. *)
Definition map_ok (m : MessageMap) : Prop :=
  NoDup (map fst m) /\ List.Forall keyed m.

(** The filter of [gunService.listenForMessages]:
    [msg && msg.sender && msg.timestamp]. *)
Definition complete_enough (msg : Message) : bool :=
  truthy (sender msg) && truthy_timestamp (timestamp msg).

Section WithSubtle.
Context {C : SubtleCrypto} {Engine : SortEngine}.

(** One run of the message effect: the chat it listens to, the key and the
    viewer it closed over, and its own [messageMap], a place in the heap. *)
Record Listener := {
  chat : jsstring;
  key : CryptoKey;
  viewer : jsstring;
  map_ref : nat
}.

(** A callback suspended at [await cryptoService.decryptMessage(...)]. *)
Record Task := {
  task_listener : Listener;
  task_msg : Message;
  task_id : jsstring
}.

Record WindowState := {
  user : jsstring;
  contact : option Contact;
  sharedKey : option CryptoKey;
  messages : list Message;
  heap : list MessageMap;
  listener : option Listener;
  awaiting : list Task
}.

(** The text of a message that carries [ct] and [iv]. *)
Definition decrypted (k : CryptoKey) (msgData : Message) : jsstring :=
  match ct msgData, iv msgData with
  | Some c, Some i =>
      match CryptoService.decryptMessage k c i with
      | Ok t => t
      | Throw _ => FAILED_TO_DECRYPT
      end
  | _, _ => []
  end.

(** The text of a message without them: the sender's own echo, or nothing. *)
Definition optimistic (viewer : jsstring) (msgData : Message) : jsstring :=
  match text msgData with
  | Some t => if truthy t && bool_decide (sender msgData = viewer) then t else []
  | None => []
  end.

Definition needs_decrypt (msgData : Message) : bool :=
  truthy_field (ct msgData) && truthy_field (iv msgData).

(** [decryptedText] as the callback computes it. *)
Definition decryptedTextOf (viewer : jsstring) (k : CryptoKey) (msgData : Message)
  : jsstring :=
  if needs_decrypt msgData then decrypted k msgData else optimistic viewer msgData.

(** The end of the callback: [messageMap.set], then [setMessages] with
    the sorted values. *)
Definition finish (l : Listener) (msgData : Message) (i decryptedText : jsstring)
    (st : WindowState) : WindowState :=
  let finalMessage := with_text msgData (Some decryptedText) in
  let messageMap := Map_set i finalMessage (default [] (heap st !! map_ref l)) in
  {| user := user st; contact := contact st; sharedKey := sharedKey st;
     messages := sort_by_timestamp (Map_values messageMap);
     heap := <[map_ref l := messageMap]> (heap st);
     listener := listener st; awaiting := awaiting st |}.

(** The callback up to its first suspension. *)
Definition callback (l : Listener) (msgData : Message) (i : jsstring)
    (st : WindowState) : WindowState :=
  if Map_has i (default [] (heap st !! map_ref l)) then st
  else if needs_decrypt msgData then
    {| user := user st; contact := contact st; sharedKey := sharedKey st;
       messages := messages st; heap := heap st; listener := listener st;
       awaiting := awaiting st ++ [{| task_listener := l; task_msg := msgData;
                                      task_id := i |}] |}
  else finish l msgData i (optimistic (viewer l) msgData) st.

(** Gun hands an entry of chat node [chatId] to the listener attached to it. *)
Definition arrive (chatId : jsstring) (msg : Message) (i : jsstring)
    (st : WindowState) : WindowState :=
  match listener st with
  | Some l =>
      if bool_decide (chat l = chatId) && complete_enough msg
      then callback l (with_id msg i) i st
      else st
  | None => st
  end.

(** The decryption of the [n]-th suspended callback settles and the
    callback runs to its end. *)
Definition settle (n : nat) (st : WindowState) : WindowState :=
  match awaiting st !! n with
  | None => st
  | Some t =>
      let l := task_listener t in
      finish l (task_msg t) (task_id t) (decrypted (key l) (task_msg t))
        {| user := user st; contact := contact st; sharedKey := sharedKey st;
           messages := messages st; heap := heap st; listener := listener st;
           awaiting := delete n (awaiting st) |}
  end.

(** The message effect for the current [contact] and [sharedKey]: the
    cleanup of its last run, then its body. *)
Definition messageEffect (st : WindowState) : WindowState :=
  match contact st, sharedKey st with
  | Some c, Some k =>
      {| user := user st; contact := contact st; sharedKey := sharedKey st;
         messages := messages st;
         heap := heap st ++ [[]];
         listener := Some {| chat := chatId c; key := k; viewer := user st;
                             map_ref := length (heap st) |};
         awaiting := awaiting st |}
  | _, _ =>
      {| user := user st; contact := contact st; sharedKey := sharedKey st;
         messages := [];
         heap := heap st; listener := None; awaiting := awaiting st |}
  end.

(** The parent passes another [contact] ([None] when the chat is closed). *)
Definition selectContact (c : option Contact) (st : WindowState) : WindowState :=
  messageEffect
    {| user := user st; contact := c; sharedKey := sharedKey st;
       messages := messages st; heap := heap st; listener := listener st;
       awaiting := awaiting st |}.

(** [setSharedKey(key)] once [deriveKey] is through. *)
Definition keyDerived (k : CryptoKey) (st : WindowState) : WindowState :=
  messageEffect
    {| user := user st; contact := contact st; sharedKey := Some k;
       messages := messages st; heap := heap st; listener := listener st;
       awaiting := awaiting st |}.

(** The component as mounted for [viewer]. *)
Definition mount (viewer : jsstring) : WindowState :=
  {| user := viewer; contact := None; sharedKey := None; messages := [];
     heap := []; listener := None; awaiting := [] |}.

Inductive reachable (viewer : jsstring) : WindowState -> Prop :=
| reach_mount : reachable viewer (mount viewer)
| reach_select c st : reachable viewer st -> reachable viewer (selectContact c st)
| reach_key k st : reachable viewer st -> reachable viewer (keyDerived k st)
| reach_arrive chatId msg i st :
    reachable viewer st -> reachable viewer (arrive chatId msg i st)
| reach_settle n st : reachable viewer st -> reachable viewer (settle n st).
(** The invariant of the component: what is rendered has no entry key
    twice and is sorted when every message carries a number, and the maps
    of all runs of the effect have no key twice. *)
Definition Inv (st : WindowState) : Prop :=
  (List.Forall (fun m => timed m = true) (messages st) ->
   StronglySorted (key_leP millis) (messages st))
  /\ NoDup (ids (messages st))
  /\ List.Forall map_ok (heap st)
  /\ List.Forall (fun t => id (task_msg t) = task_id t) (awaiting st).
End WithSubtle.

End ChatWindow.
(** ** services/userCache.ts: reading and clearing the cache *)

Module CacheAccess.
Import UserCache.

(** What [loadUserFromCache] returns: [{ pubKey, encryptedPrivKey }]. *)
Record StoredUserRecord := {
  pubKey : JsonWebKey;
  encryptedPrivKey : jsstring
}.

(** [loadUserFromCache]: [null] without storage, without an entry, for an
    entry that is no user record, and for one whose [encryptedPrivKey] is
    empty (a [pubKey] object is always truthy). *)
Definition loadUserFromCache (storage : option Storage) (username : jsstring)
  : option StoredUserRecord :=
  match storage with
  | None => None
  | Some s =>
      match getItem s (buildKey username) with
      | Some (Doc (PUser _ pk epk) _) =>
          if truthy epk then Some {| pubKey := pk; encryptedPrivKey := epk |} else None
      | _ => None
      end
  end.

(** [clearUserCache]: the user record and the contacts of the user. *)
Definition clearUserCache (storage : option Storage) (username : jsstring)
  : option Storage :=
  match storage with
  | None => None
  | Some s =>
      Some (removeItem (removeItem s (buildKey username)) (CHATS_KEY_PREFIX ++ username))
  end.

(** [clearMessagesCache] *)
Definition clearMessagesCache (storage : option Storage) (chatId : jsstring)
  : option Storage :=
  match storage with
  | None => None
  | Some s => Some (removeItem s (MESSAGES_KEY_PREFIX ++ chatId))
  end.

(** [storage.getItem(k)] on the storage a cache function was given. *)
Definition read (storage : option Storage) (k : jsstring) : option Stored :=
  match storage with
  | None => None
  | Some s => getItem s k
  end.

(** [parsed.updatedAt] of the entry under [k], when the entry parses and
    the member is a number. *)
Definition updatedAtOf (s : Storage) (k : jsstring) : option Z :=
  match getItem s k with
  | Some (Doc _ t) => t
  | _ => None
  end.

(** The keys [saveUserToCache] looks at when the quota is exceeded. *)
Definition userKeys (s : Storage) : list jsstring :=
  List.filter (fun k => startsWith k STORAGE_KEY_PREFIX) (keys s).

End CacheAccess.
(** ** Strings after one pass through [TextEncoder] and [TextDecoder] *)

Module Text.
Import Encoding.

(** [String.prototype.toWellFormed]: a surrogate without its partner
    becomes U+FFFD. *)
Fixpoint toWellFormed (s : jsstring) : jsstring :=
  match s with
  | [] => []
  | c :: rest =>
      if is_high_surrogate c then
        match rest with
        | d :: rest' =>
            if is_low_surrogate d then c :: d :: toWellFormed rest'
            else 0xFFFD :: toWellFormed rest
        | [] => [0xFFFD]
        end
      else if is_low_surrogate c then 0xFFFD :: toWellFormed rest
      else c :: toWellFormed rest
  end.

(** The string without a U+FEFF at its start. *)
Definition withoutBOM (s : jsstring) : jsstring :=
  match s with
  | c :: rest => if c =? 0xFEFF then rest else s
  | [] => []
  end.

(** A string of the language: every code unit has sixteen bits. *)
Definition code_units (s : jsstring) : Prop := List.Forall (fun c => c < 0x10000) s.

End Text.
(** ** components/Chat.tsx: the contact list *)

Module Contacts.
Import UserCache GunService.

#[global] Instance Contact_eq_dec : EqDecision Contact.
Proof. solve_decision. Defined.

(** [s.split(sep)] for a separator of one code unit. *)
Fixpoint split (sep : N) (s : jsstring) : list jsstring :=
  match s with
  | [] => [[]]
  | c :: rest =>
      if c =? sep then [] :: split sep rest
      else
        match split sep rest with
        | piece :: pieces => (c :: piece) :: pieces
        | [] => [[c]]
        end
  end.

(** [chatId.split(':').find(n => n !== currentUser)], kept when it is
    truthy: the other party of a channel identifier. *)
Definition partnerOf (currentUser theChatId : jsstring) : option jsstring :=
  match List.find (fun n => negb (bool_decide (n = currentUser))) (split 58 theChatId) with
  | Some partner => if truthy partner then Some partner else None
  | None => None
  end.

(** [val['#']] *)
Fixpoint member (k : jsstring) (members : JsonWebKey) : option jsstring :=
  match members with
  | [] => None
  | (k', v) :: rest => if bool_decide (k' = k) then Some v else member k rest
  end.

(** The channel identifier in a value of [users/<name>/chats]: the value
    when it is a string, its ['#'] when it is a reference, and nothing for
    a falsy value. *)
Definition chatIdOf (val : JsValue) : option jsstring :=
  if falsy val then None
  else
    match val with
    | JString s => Some s
    | JObject members =>
        match member (lit "#") members with
        | Some soul => if truthy soul then Some soul else None
        | None => None
        end
    | _ => None
    end.

(** [restoreChatLinks] of gunService.ts: each contact's link is set again
    at the user and at the partner. *)
Definition restoreChatLinks (gun : option Graph) (user : jsstring)
    (contacts : list Contact) : option Graph :=
  match gun with
  | None => None
  | Some g =>
      Some (fold_left
              (fun g contact =>
                 chats_set (chats_set g user (chatId contact))
                   (username contact) (chatId contact))
              contacts g)
  end.

(** The [contacts] state with what the effects work on: [localStorage],
    the graph, and whether [handleContact] is attached to
    [users/<currentUser>/chats]. *)
Record ContactsState := {
  contacts : list Contact;
  storage : option Storage;
  gun : option Graph;
  listening : bool
}.

(** [prev.find(c => c.username === partner || c.chatId === chatId)] *)
Definition known (partner theChatId : jsstring) (prev : list Contact) : bool :=
  existsb (fun c => bool_decide (username c = partner)
                    || bool_decide (chatId c = theChatId)) prev.

(** [handleContact] with the state update it queues: a new contact goes to
    the front and the list is saved. *)
Definition handleContact (now : Z) (currentUser : jsstring) (val : JsValue)
    (st : ContactsState) : ContactsState :=
  match chatIdOf val with
  | None => st
  | Some theChatId =>
      if negb (truthy theChatId) then st
      else
        match partnerOf currentUser theChatId with
        | None => st
        | Some partner =>
            if known partner theChatId (contacts st) then st
            else
              let updated := {| username := partner; chatId := theChatId |} :: contacts st in
              {| contacts := updated;
                 storage := (saveContactsToCache (storage st) now currentUser updated).1;
                 gun := gun st; listening := listening st |}
        end
  end.

(** The effect that saves the contacts:
    [if (contacts.length > 0) saveContactsToCache(currentUser, contacts)]. *)
Definition saveEffect (now : Z) (currentUser : jsstring) (st : ContactsState)
  : ContactsState :=
  match contacts st with
  | [] => st
  | _ :: _ =>
      {| contacts := contacts st;
         storage := (saveContactsToCache (storage st) now currentUser (contacts st)).1;
         gun := gun st; listening := listening st |}
  end.

(** The component mounts for [currentUser]: without Gun nothing happens;
    otherwise the cached contacts are shown and their links restored, the
    listener is attached, and the render that shows the contacts saves
    them. *)
Definition mount (theGun : option Graph) (s : option Storage) (now : Z)
    (currentUser : jsstring) : ContactsState :=
  match theGun with
  | None => {| contacts := []; storage := s; gun := None; listening := false |}
  | Some g =>
      match loadContactsFromCache s currentUser with
      | Some (c :: cached) =>
          saveEffect now currentUser
            {| contacts := c :: cached; storage := s;
               gun := restoreChatLinks (Some g) currentUser (c :: cached);
               listening := true |}
      | _ => {| contacts := []; storage := s; gun := Some g; listening := true |}
      end
  end.

(** Gun hands a value of [users/<currentUser>/chats] to the listener; a
    changed list is saved by the render that shows it. *)
Definition deliver (now : Z) (currentUser : jsstring) (val : JsValue)
    (st : ContactsState) : ContactsState :=
  if listening st then
    let st' := handleContact now currentUser val st in
    if bool_decide (contacts st' = contacts st) then st' else saveEffect now currentUser st'
  else st.

(** The end of [handleNewChatSubmit]: the contact of a chat that was
    started goes to the front unless its name is known, and the list is
    saved; [theGun] is the graph [createChatLink] left. *)
Definition startChat (now : Z) (currentUser : jsstring) (chat : Chat.ChatSession)
    (theGun : option Graph) (st : ContactsState) : ContactsState :=
  if existsb (fun c => bool_decide (username c = Chat.partner chat)) (contacts st)
  then {| contacts := contacts st; storage := storage st; gun := theGun;
          listening := listening st |}
  else
    let updated := {| username := Chat.partner chat; chatId := Chat.id chat |}
                   :: contacts st in
    saveEffect now currentUser
      {| contacts := updated;
         storage := (saveContactsToCache (storage st) now currentUser updated).1;
         gun := theGun; listening := listening st |}.

(** The form is submitted with [newChatUsername]: [handleNewChatSubmit],
    and the contact of the chat it started. *)
Definition submitNewChat (JSON_parse : jsstring -> option JsValue)
    (reads : nat -> Read) (now : Z) (currentUser newChatUsername : jsstring)
    (st : ContactsState) : ContactsState :=
  match Chat.handleNewChatSubmit JSON_parse (gun st) reads currentUser newChatUsername with
  | (Chat.Started chat, _, theGun) => startChat now currentUser chat theGun st
  | (Chat.Status _, _, theGun) =>
      {| contacts := contacts st; storage := storage st; gun := theGun;
         listening := listening st |}
  end.

(** A contact list as the component keeps it: no name twice, no channel
    twice, and each name the other party of its channel. *)
Definition contacts_ok (currentUser : jsstring) (l : list Contact) : Prop :=
  NoDup (map username l) /\ NoDup (map chatId l)
  /\ List.Forall (fun c => partnerOf currentUser (chatId c) = Some (username c)) l.

(** The cached contacts of the user, if any, are such a list. *)
Definition cache_ok (currentUser : jsstring) (s : option Storage) : Prop :=
  forall l, loadContactsFromCache s currentUser = Some l -> contacts_ok currentUser l.

(** The invariant: the list shown and the list cached are contact lists. *)
Definition Inv (currentUser : jsstring) (st : ContactsState) : Prop :=
  contacts_ok currentUser (contacts st) /\ cache_ok currentUser (storage st).

(** The cache holds the list that is shown: the very list when it is not
    empty, no list or the empty one otherwise. *)
Definition mirrors (currentUser : jsstring) (st : ContactsState) : Prop :=
  match contacts st with
  | [] =>
      loadContactsFromCache (storage st) currentUser = None
      \/ loadContactsFromCache (storage st) currentUser = Some []
  | _ :: _ => loadContactsFromCache (storage st) currentUser = Some (contacts st)
  end.

(** The states the contact list reaches: mounted over a cache this code
    wrote, then values delivered and chats started in any order. *)
Inductive reachable (JSON_parse : jsstring -> option JsValue) (currentUser : jsstring)
  : ContactsState -> Prop :=
| reach_mount theGun s now :
    cache_ok currentUser s -> reachable JSON_parse currentUser (mount theGun s now currentUser)
| reach_deliver now val st :
    reachable JSON_parse currentUser st ->
    reachable JSON_parse currentUser (deliver now currentUser val st)
| reach_submit reads now newChatUsername st :
    reachable JSON_parse currentUser st ->
    reachable JSON_parse currentUser
      (submitNewChat JSON_parse reads now currentUser newChatUsername st).

(** A [localStorage] that accepts every write. *)
Definition accepting (s : option Storage) : Prop :=
  match s with
  | Some s => forall l k v, refuses s l k v = None
  | None => False
  end.

(** A link in the graph: [chatId] is in [users/<user>/chats]. *)
Definition linked (g : option Graph) (user theChatId : jsstring) : Prop :=
  match g with
  | Some g => theChatId ∈ default ∅ (g !! user)
  | None => False
  end.

End Contacts.
(** ** components/Chat.tsx: sending text and files *)

Module Composer.
Import Crypto.

(** What submitting the message form does. *)
Inductive SendOutcome :=
| Ignored
| Sent (theChatId : jsstring) (payload : ChatMessage)
| SendFailed (e : JsError).

(** A [File]: its name, its MIME type and its bytes; [file.size] is the
    number of the bytes. *)
Record File := {
  file_name : jsstring;
  file_type : jsstring;
  file_bytes : list byte
}.

Definition file_size (f : File) : Z := Z.of_nat (length (file_bytes f)).

(** [5 * 1024 * 1024] *)
Definition MAX_SIZE_BYTES : Z := 5 * 1024 * 1024.

Definition dangerousExtensions : list jsstring :=
  [lit ".exe"; lit ".bat"; lit ".sh"; lit ".scr"; lit ".vbs"; lit ".js"; lit ".jar"].

(** [s.endsWith(ext)] *)
Definition endsWith (s ext : jsstring) : bool :=
  UserCache.startsWith (rev s) (rev ext).

(** What choosing a file does: nothing without a file or a chat; a file
    above the limit is refused with an error message; otherwise the file is
    sent, with a warning when its name has an executable's extension, or
    the exception of the key lookup is shown. *)
Inductive UploadOutcome :=
| NothingToUpload
| TooLarge
| Uploaded (warned : bool) (theChatId : jsstring) (payload : ChatMessage)
| UploadFailed (warned : bool) (e : JsError).

Section WithSubtle.
Context {C : SubtleCrypto}.

(** [getSharedKey] of the component: the key shared with a partner, or the
    exception it throws. *)
Variable getSharedKey : jsstring -> result CryptoKey.

(** [handleSendMessage]; [nonce] is the value of [crypto.getRandomValues]
    and [now] that of [Date.now()].  A chat is selected only with Gun
    loaded, so [gun.get('chat')] is there when the payload is set. *)
Definition handleSendMessage (currentUser : jsstring)
    (currentChat : option Chat.ChatSession) (inputMsg : jsstring)
    (nonce : list byte) (now : Z) : SendOutcome :=
  if negb (truthy (Chat.trim inputMsg)) then Ignored
  else
    match currentChat with
    | None => Ignored
    | Some chat =>
        match getSharedKey (Chat.partner chat) with
        | Throw e => SendFailed e
        | Ok sharedKey =>
            let e := encryptMessage sharedKey nonce (Chat.trim inputMsg) in
            Sent (Chat.id chat)
              {| _key := None; sender := currentUser;
                 text := Some (Chat.trim inputMsg); timestamp := Millis now;
                 ct := Some (enc_ct e); iv := Some (enc_iv e); isFile := false;
                 name := None; type := None; size := None;
                 ctFile := None; ivFile := None |}
        end
    end.

(** [String.prototype.toLowerCase], the platform's. *)
Variable toLowerCase : jsstring -> jsstring.

(** [handleFileUpload]; [file] is [e.target.files?.[0]]. *)
Definition handleFileUpload (currentUser : jsstring)
    (currentChat : option Chat.ChatSession) (file : option File)
    (nonce : list byte) (now : Z) : UploadOutcome :=
  match file, currentChat with
  | Some f, Some chat =>
      if (MAX_SIZE_BYTES <? file_size f)%Z then TooLarge
      else
        let fileName := toLowerCase (file_name f) in
        let warned := existsb (fun ext => endsWith fileName ext) dangerousExtensions in
        match getSharedKey (Chat.partner chat) with
        | Throw e => UploadFailed warned e
        | Ok sharedKey =>
            let e := encryptFile sharedKey nonce (file_bytes f) in
            Uploaded warned (Chat.id chat)
              {| _key := None; sender := currentUser; text := None; timestamp := Millis now;
                 ct := None; iv := None; isFile := true;
                 name := Some (file_name f); type := Some (file_type f);
                 size := Some (file_size f);
                 ctFile := Some (enc_ct e); ivFile := Some (enc_iv e) |}
        end
  | _, _ => NothingToUpload
  end.
End WithSubtle.

End Composer.

(** ** components/ChatWindow.tsx: sending *)

Module WindowComposer.
Import ChatWindow.

(** [handleSendMessage] of ChatWindow.tsx: nothing for a blank message,
    without a contact or without the shared key; otherwise the chat the
    message is sent to and the message, encrypted as it was typed. *)
Definition handleSendMessage {C : SubtleCrypto} (st : WindowState)
    (newMessage : jsstring) (nonce : list byte) (now : Z)
  : option (jsstring * Message) :=
  if negb (truthy (Chat.trim newMessage)) then None
  else
    match contact st, sharedKey st with
    | Some c, Some k =>
        let e := CryptoService.encryptMessage k nonce newMessage in
        Some (chatId c,
              {| id := []; sender := user st;
                 ct := Some (Crypto.enc_ct e); iv := Some (Crypto.enc_iv e);
                 timestamp := Millis now; text := Some newMessage |})
    | _, _ => None
    end.

End WindowComposer.
(** ** components/Auth.tsx: the login and signup form *)

Module AuthForm.
Import UserCache CacheAccess GunService.

(** [{ valid, error }] *)
Inductive Validation :=
| Valid
| Invalid (error : jsstring).

Definition USERNAME_REQUIRED : jsstring := lit "Username is required.".
Definition USERNAME_TOO_SHORT : jsstring := lit "Username must be at least 3 characters.".
Definition USERNAME_TOO_LONG : jsstring := lit "Username must be 20 characters or less.".
Definition USERNAME_CHARSET : jsstring :=
  lit "Username can only contain letters, numbers, underscores, and hyphens.".
Definition PASSWORD_REQUIRED : jsstring := lit "Password is required.".
Definition PASSWORD_TOO_SHORT : jsstring := lit "Password must be at least 6 characters.".

Definition validateUsername (username : jsstring) : Validation :=
  if negb (truthy username) || (length (Chat.trim username) =? 0)%nat
  then Invalid USERNAME_REQUIRED
  else
    let trimmed := Chat.trim username in
    if (length trimmed <? 3)%nat then Invalid USERNAME_TOO_SHORT
    else if (20 <? length trimmed)%nat then Invalid USERNAME_TOO_LONG
    else if negb (Chat.validUsername trimmed) then Invalid USERNAME_CHARSET
    else Valid.

Definition validatePassword (password : jsstring) : Validation :=
  if negb (truthy password) || (length password =? 0)%nat then Invalid PASSWORD_REQUIRED
  else if (length password <? 6)%nat then Invalid PASSWORD_TOO_SHORT
  else Valid.

(** The node [users/<name>] as the form reads it: its [pubKey] member and
    its [privKey] member, a string that is empty when the member is
    missing. *)
Record GunUser := {
  user_pubKey : JsValue;
  user_privKey : jsstring
}.

(** The replica: the user nodes and the chat links. *)
Record GunState := {
  users : gmap jsstring GunUser;
  chats : Graph
}.

(** [StoredUserRecord] with the public key as [JSON.parse] or the node
    gave it. *)
Record NormalizedUser := {
  n_pubKey : JsValue;
  n_encryptedPrivKey : jsstring
}.

(** [{ msg, error }] *)
Record Status := {
  msg : jsstring;
  error : bool
}.

Definition ACCOUNT_RESTORED : jsstring := lit "Account restored from local backup.".
Definition RESTORE_FAILED : jsstring := lit "Failed to restore account. Please try again.".
Definition INVALID_CREDENTIALS : jsstring := lit "Invalid username or password.".
Definition USERNAME_TAKEN : jsstring := lit "Username already taken.".
Definition CREATE_FAILED : jsstring :=
  lit "Failed to create account. Please check your connection and try again.".
Definition SIGNUP_SUCCESSFUL : jsstring := lit "Signup successful! Please log in.".
Definition AN_ERROR_OCCURRED : jsstring := lit "An error occurred.".

Section WithPlatform.
(** [JSON.parse], [None] when it throws, and [JSON.stringify] of a key. *)
Variable JSON_parse : jsstring -> option JsValue.
Variable JSON_stringify : JsonWebKey -> jsstring.
(** The [CryptoKey]s of a pair. *)
Variables PrivateKey PublicKey : Type.
(** [decryptPrivateKey] and [encryptPrivateKey] of cryptoService.ts
    (CryptoJS): the parsed key, [JNull] when it returns [null]. *)
Variable decryptPrivateKey : jsstring -> jsstring -> JsValue.
Variable encryptPrivateKey : JsonWebKey -> jsstring -> jsstring.
(** [importPrivKey] and [importPubKey]: [None] when the promise rejects. *)
Variable importPrivKey : JsonWebKey -> option PrivateKey.
Variable importPubKey : JsonWebKey -> option PublicKey.

(** [createUser] of gunService.ts: the node gets the key pair, its
    [chats] are set to [null]; without Gun it throws. *)
Definition createUser (gun : option GunState) (name : jsstring) (pubKey : JsonWebKey)
    (encryptedPrivKey : jsstring) : result GunState :=
  match gun with
  | None => Throw (Error (lit "Gun not initialized"))
  | Some g =>
      Ok {| users := <[name := {| user_pubKey := JString (JSON_stringify pubKey);
                                  user_privKey := encryptedPrivKey |}]> (users g);
            chats := delete name (chats g) |}
  end.

(** [checkUserExists]: the node, or nothing when there is none, when Gun
    does not answer within the wait, and without Gun. *)
Definition checkUserExists (gun : option GunState) (answers : bool) (name : jsstring)
  : option GunUser :=
  match gun with
  | None => None
  | Some g => if answers then users g !! name else None
  end.

Definition normalizeGunUser (user : option GunUser) : option NormalizedUser :=
  match user with
  | None => None
  | Some u =>
      if falsy (user_pubKey u) || negb (truthy (user_privKey u)) then None
      else
        match user_pubKey u with
        | JString s =>
            match JSON_parse s with
            | Some parsed =>
                Some {| n_pubKey := parsed; n_encryptedPrivKey := user_privKey u |}
            | None => None
            end
        | other => Some {| n_pubKey := other; n_encryptedPrivKey := user_privKey u |}
        end
  end.

(** The form: its fields, what it shows, the replica and the storage it
    works on, and the call of [onLogin] it made, if any. *)
Record AuthState := {
  isLogin : bool;
  form_username : jsstring;
  form_password : jsstring;
  status : option Status;
  loading : bool;
  gun : option GunState;
  storage : option Storage;
  loggedIn : option (jsstring * PrivateKey * PublicKey)
}.

(** The state the handler leaves when it stops with a status line:
    [finally] has set [loading] to false. *)
Definition stopped (st : AuthState) (theGun : option GunState) (m : jsstring) (e : bool)
  : AuthState :=
  {| isLogin := isLogin st; form_username := form_username st;
     form_password := form_password st;
     status := Some {| msg := m; error := e |}; loading := false;
     gun := theGun; storage := storage st; loggedIn := loggedIn st |}.

(** ... and when validation stops it before [setLoading(true)]. *)
Definition refused (st : AuthState) (m : jsstring) : AuthState :=
  {| isLogin := isLogin st; form_username := form_username st;
     form_password := form_password st;
     status := Some {| msg := m; error := true |}; loading := loading st;
     gun := gun st; storage := storage st; loggedIn := loggedIn st |}.

(** The login branch once the user record is known; [restored] tells
    whether it came from the local backup. *)
Definition login (now : Z) (st : AuthState) (theGun : option GunState) (restored : bool)
    (name : jsstring) (user : NormalizedUser) : AuthState :=
  let privJwk := decryptPrivateKey (n_encryptedPrivKey user) (form_password st) in
  if falsy privJwk then stopped st theGun INVALID_CREDENTIALS true
  else
    match privJwk, n_pubKey user with
    | JObject priv, JObject pub =>
        match importPrivKey priv, importPubKey pub with
        | Some privateKey, Some publicKey =>
            {| isLogin := isLogin st; form_username := form_username st;
               form_password := form_password st;
               status := if restored
                         then Some {| msg := ACCOUNT_RESTORED; error := false |}
                         else None;
               loading := false; gun := theGun;
               storage := (Auth.cacheUser (storage st) now name pub
                             (n_encryptedPrivKey user)).1;
               loggedIn := Some (name, privateKey, publicKey) |}
        | _, _ => stopped st theGun AN_ERROR_OCCURRED true
        end
    | _, _ => stopped st theGun AN_ERROR_OCCURRED true
    end.

(** The user types a name and a password into the fields. *)
Definition typed (name password : jsstring) (st : AuthState) : AuthState :=
  {| isLogin := isLogin st; form_username := name; form_password := password;
     status := status st; loading := loading st; gun := gun st;
     storage := storage st; loggedIn := loggedIn st |}.

(** The form as mounted on the signup tab or on the login tab. *)
Definition fresh (signup : bool) (theGun : option GunState) (s : option Storage)
  : AuthState :=
  {| isLogin := negb signup; form_username := []; form_password := [];
     status := None; loading := false; gun := theGun; storage := s;
     loggedIn := None |}.

(** [handleSubmit]; [now] is [Date.now()], [answers] tells whether Gun
    answers [checkUserExists] within its wait, [generated] is the public
    and the private key of [generateKeys] as [exportKey] gives them
    ([None] when one of the promises rejects). *)
Definition handleSubmit (now : Z) (answers : bool)
    (generated : option (JsonWebKey * JsonWebKey)) (st : AuthState) : AuthState :=
  match validateUsername (form_username st) with
  | Invalid e => refused st e
  | Valid =>
      match validatePassword (form_password st) with
      | Invalid e => refused st e
      | Valid =>
          let sanitizedUsername := Chat.trim (form_username st) in
          let userFromGun := checkUserExists (gun st) answers sanitizedUsername in
          let normalizedUser := normalizeGunUser userFromGun in
          if isLogin st then
            match normalizedUser with
            | Some user => login now st (gun st) false sanitizedUsername user
            | None =>
                match loadUserFromCache (storage st) sanitizedUsername with
                | Some cachedUser =>
                    match createUser (gun st) sanitizedUsername (pubKey cachedUser)
                            (encryptedPrivKey cachedUser) with
                    | Ok g =>
                        login now st (Some g) true sanitizedUsername
                          {| n_pubKey := JObject (pubKey cachedUser);
                             n_encryptedPrivKey := encryptedPrivKey cachedUser |}
                    | Throw _ => stopped st (gun st) RESTORE_FAILED true
                    end
                | None => stopped st (gun st) INVALID_CREDENTIALS true
                end
            end
          else
            let taken :=
              match normalizedUser with
              | Some user => negb (falsy (n_pubKey user)) || truthy (n_encryptedPrivKey user)
              | None => false
              end in
            if taken then stopped st (gun st) USERNAME_TAKEN true
            else
              match generated with
              | None => stopped st (gun st) AN_ERROR_OCCURRED true
              | Some (pubJwk, privJwk) =>
                  let encryptedPriv := encryptPrivateKey privJwk (form_password st) in
                  match createUser (gun st) sanitizedUsername pubJwk encryptedPriv with
                  | Throw _ => stopped st (gun st) CREATE_FAILED true
                  | Ok g =>
                      {| isLogin := true; form_username := []; form_password := [];
                         status := Some {| msg := SIGNUP_SUCCESSFUL; error := false |};
                         loading := false; gun := Some g;
                         storage := (Auth.cacheUser (storage st) now sanitizedUsername
                                       pubJwk encryptedPriv).1;
                         loggedIn := loggedIn st |}
                  end
              end
      end
  end.
End WithPlatform.

Arguments isLogin {PrivateKey PublicKey} _.
Arguments form_username {PrivateKey PublicKey} _.
Arguments form_password {PrivateKey PublicKey} _.
Arguments status {PrivateKey PublicKey} _.
Arguments loading {PrivateKey PublicKey} _.
Arguments gun {PrivateKey PublicKey} _.
Arguments storage {PrivateKey PublicKey} _.
Arguments loggedIn {PrivateKey PublicKey} _.
Arguments stopped {PrivateKey PublicKey} _ _ _ _.
Arguments refused {PrivateKey PublicKey} _ _.
Arguments typed {PrivateKey PublicKey} _ _ _.
Arguments login {PrivateKey PublicKey} _ _ _ _ _ _ _ _ _.
Arguments handleSubmit _ _ {PrivateKey PublicKey} _ _ _ _ _ _ _ _.

End AuthForm.
(** ** components/Typewriter.tsx (part_000): the banner *)

Module Typewriter.

(** The lines of the banner. *)
Definition messages : list jsstring :=
  [lit "D-Chat";
   lit "Your Data, Your Control.";
   lit "Decentralized. Private. Yours.";
   lit "Secure Messaging for Web3.";
   lit "Chat Without Central Servers.";
   lit "End-to-End Encrypted. Forever."].

(** The four pieces of state of the component. *)
Record State := {
  text : jsstring;
  msgIndex : nat;
  isDeleting : bool;
  charIndex : Z
}.

(** [useState('')], [useState(0)], [useState(false)], [useState(0)] *)
Definition initial : State :=
  {| text := []; msgIndex := 0; isDeleting := false; charIndex := 0 |}.

(** [s.substring(0, n)]: [n] is clamped to the string. *)
Definition substring0 (s : jsstring) (n : Z) : jsstring := take (Z.to_nat n) s.

Section Banner.
(** The lines the component cycles through ([messages] in the source). *)
Variable lines : list jsstring.

(** [messages[msgIndex]]; the index stays inside the list (with an index
    outside, the source would read [undefined]). *)
Definition currentMessage (st : State) : jsstring := nth (msgIndex st) lines [].

(** One run of the effect with what it schedules: the milliseconds until
    the state changes (0 when the effect sets the state itself) and the
    state then. *)
Definition step (st : State) : Z * State :=
  let current := currentMessage st in
  if negb (isDeleting st) && (charIndex st =? Z.of_nat (length current))%Z then
    (2000%Z, {| text := text st; msgIndex := msgIndex st; isDeleting := true;
                charIndex := charIndex st |})
  else if isDeleting st && (charIndex st =? 0)%Z then
    (0%Z, {| text := text st; msgIndex := (msgIndex st + 1) mod length lines;
             isDeleting := false; charIndex := charIndex st |})
  else if isDeleting st then
    (40%Z, {| text := substring0 current (charIndex st - 1); msgIndex := msgIndex st;
              isDeleting := isDeleting st; charIndex := (charIndex st - 1)%Z |})
  else
    (80%Z, {| text := substring0 current (charIndex st + 1); msgIndex := msgIndex st;
              isDeleting := isDeleting st; charIndex := (charIndex st + 1)%Z |}).

(** [n] runs of the effect: the time that passed and the state. *)
Fixpoint run (n : nat) (st : State) : Z * State :=
  match n with
  | O => (0%Z, st)
  | S n' =>
      let '(d, st') := step st in
      let '(t, st'') := run n' st' in
      ((d + t)%Z, st'')
  end.

(** The state in which line [i] is about to be typed. *)
Definition startOf (i : nat) : State :=
  {| text := []; msgIndex := i; isDeleting := false; charIndex := 0 |}.

(** ... and in which it stands in full. *)
Definition fullyTyped (i : nat) : State :=
  {| text := nth i lines []; msgIndex := i; isDeleting := false;
     charIndex := Z.of_nat (length (nth i lines [])) |}.

(** What holds of the state at every run of the effect: the index is
    inside the list, the count of characters inside the line, and the text
    is the line up to that count. *)
Definition Inv (st : State) : Prop :=
  (msgIndex st < length lines)%nat
  /\ (0 <= charIndex st <= Z.of_nat (length (currentMessage st)))%Z
  /\ text st = take (Z.to_nat (charIndex st)) (currentMessage st).
End Banner.

End Typewriter.
(** ** services/gunService.ts: what a lookup costs *)

Module Lookup.
Import GunService.

(** The time the events of a lookup can take at most, in milliseconds: an
    attempt ends when its timer fires at the latest, a wait takes its
    delay. *)
Definition budget (events : list Event) : Z :=
  fold_right (fun e acc =>
                match e with
                | Attempted timeout => timeout + acc
                | Slept ms => ms + acc
                end%Z) 0%Z events.

(** The timeouts and the delays among the events are within bounds. *)
Definition within (lo : Z) (e : Event) : Prop :=
  match e with
  | Attempted timeout => (900 <= timeout <= 1000)%Z
  | Slept ms => (lo <= ms <= 2000)%Z
  end.

End Lookup.
(** ** Sample data for the scenarios of the specification *)

Module Samples.

Definition alice : jsstring := lit "alice".
Definition bob : jsstring := lit "bob".
Definition carol : jsstring := lit "carol".

Definition alice_bob : Chat.ChatSession :=
  {| Chat.partner := bob; Chat.id := lit "alice:bob" |}.
Definition alice_carol : Chat.ChatSession :=
  {| Chat.partner := carol; Chat.id := lit "alice:carol" |}.

(** A [localStorage] that is empty and accepts every write. *)
Definition roomy : UserCache.Storage :=
  {| UserCache.items := []; UserCache.refuses := fun _ _ _ => None |}.

(** A [localStorage] that is full: every write throws
    [QuotaExceededError]. *)
Definition full (items : list (jsstring * UserCache.Stored)) : UserCache.Storage :=
  {| UserCache.items := items;
     UserCache.refuses := fun _ _ _ => Some QuotaExceededError |}.

(** A [localStorage] with room for one item: a write throws
    [QuotaExceededError] while another item is there. *)
Definition one_slot (items : list (jsstring * UserCache.Stored)) : UserCache.Storage :=
  {| UserCache.items := items;
     UserCache.refuses := fun present _ _ =>
                            match present with
                            | [] => None
                            | _ :: _ => Some QuotaExceededError
                            end |}.

(** An entry of bob's as the replica hands it over. *)
Definition entry (ts : Z) : ChatMessage :=
  {| _key := None; sender := bob; text := None; timestamp := Millis ts;
     ct := Some (lit "Y3Q="); iv := Some (lit "aXY="); isFile := false;
     name := None; type := None; size := None; ctFile := None; ivFile := None |}.

Definition arrival (ts : Z) (key : string) : Chat.Callback :=
  {| Chat.at_time := ts; Chat.cb_msg := Some (entry ts); Chat.cb_key := lit key |}.



(** The chat with bob, just opened on an empty cache. *)
Definition opened : Chat.ChatState :=
  Chat.selectChat 0 alice_bob (Chat.mount (Some roomy)).

(** A directory without an entry for the name: no read is ever answered. *)
Definition nobody : nat -> GunService.Read := fun _ => GunService.Silent.

(** Bob's public key as [createUser] stored it, a string of JSON, and the
    object it stands for. *)
Definition bob_jwk : JsonWebKey := [(lit "kty", lit "EC"); (lit "crv", lit "P-256")].
Definition quoted (s : string) : jsstring := 34 :: lit s ++ [34].
Definition bob_key_json : jsstring :=
  lit "{" ++ quoted "kty" ++ lit ":" ++ quoted "EC" ++ lit ","
  ++ quoted "crv" ++ lit ":" ++ quoted "P-256" ++ lit "}".

(** A directory where the third read is answered in time. *)
Definition third_time : nat -> GunService.Read :=
  fun i => match i with
           | 2%nat => GunService.Answers (GunService.JString bob_key_json) 120
           | 1%nat => GunService.Answers (GunService.JString []) 40
           | _ => GunService.Answers (GunService.JString bob_key_json) 5000
           end.

(** A [JSON.parse] that knows bob's key and rejects every other string. *)
Definition parse_bob (s : jsstring) : option GunService.JsValue :=
  if bool_decide (s = bob_key_json) then Some (GunService.JObject bob_jwk) else None.

(** A directory where the key stored for the name is the string [null],
    answered at once. *)
Definition answering_null : nat -> GunService.Read :=
  fun _ => GunService.Answers (GunService.JString (lit "null")) 10.

(** A [JSON.parse] that knows [null] and bob's key. *)
Definition parse_null_or_bob (s : jsstring) : option GunService.JsValue :=
  if bool_decide (s = lit "null") then Some GunService.JNull else parse_bob s.

(** Contacts of alice in ChatWindow.tsx. *)
Definition bob_contact : Contact := {| username := bob; chatId := lit "alice:bob" |}.
Definition carol_contact : Contact := {| username := carol; chatId := lit "alice:carol" |}.

(** A key and a nonce for the stand-in primitive. *)
Definition toy_key : list byte := [Byte.x01; Byte.x02; Byte.x03].
Definition toy_nonce : list byte := repeat Byte.x07 12.

(** "hi" as bob encrypted and stored it. *)
Definition hi_encrypted : Crypto.Encrypted :=
  Crypto.encryptMessage (C := ToyGcm.subtle) toy_key toy_nonce (lit "hi").

Definition hi_from_bob : ChatWindow.Message :=
  {| ChatWindow.id := []; ChatWindow.sender := bob;
     ChatWindow.ct := Some (Crypto.enc_ct hi_encrypted);
     ChatWindow.iv := Some (Crypto.enc_iv hi_encrypted);
     ChatWindow.timestamp := Millis 1700000000000; ChatWindow.text := None |}.

(** ChatWindow.tsx with the chat with bob open and the shared key derived. *)
Definition window_with_bob : ChatWindow.WindowState (C := ToyGcm.subtle) :=
  ChatWindow.selectContact (Some bob_contact)
    (ChatWindow.keyDerived (C := ToyGcm.subtle) toy_key (ChatWindow.mount alice)).




End Samples.
(** ** More sample data *)

Module MoreSamples.

(** A full [localStorage] with eleven message caches, for the chats "a"
    to "k", the later ones written later. *)
Definition crowded : UserCache.Storage :=
  Samples.full
    (map (fun i : nat =>
            (UserCache.MESSAGES_KEY_PREFIX ++ [N.of_nat (97 + i)],
             UserCache.Doc (UserCache.PMessages []) (Some (Z.of_nat (1000 + i)))))
         (seq 0 11)).

(** Stand-ins for the collaborators of the form: a wrapped key that names
    its password, [CryptoKey]s that are their own JWK. *)
Definition wrap (jwk : JsonWebKey) (password : jsstring) : jsstring :=
  lit "enc:" ++ password.

Definition unwrap (encrypted password : jsstring) : GunService.JsValue :=
  if bool_decide (encrypted = lit "enc:" ++ password)
  then GunService.JObject Samples.bob_jwk
  else GunService.JNull.

Definition stringify (jwk : JsonWebKey) : jsstring := Samples.bob_key_json.

Definition import (jwk : JsonWebKey) : option JsonWebKey := Some jwk.

(** A replica without users, and one that knows bob. *)
Definition nobody_yet : AuthForm.GunState :=
  {| AuthForm.users := ∅; AuthForm.chats := ∅ |}.

Definition bob_node : AuthForm.GunUser :=
  {| AuthForm.user_pubKey := GunService.JString Samples.bob_key_json;
     AuthForm.user_privKey := lit "enc:secret1" |}.

Definition with_bob : AuthForm.GunState :=
  {| AuthForm.users := {[ Samples.bob := bob_node ]}; AuthForm.chats := ∅ |}.

End MoreSamples.
(** ** A flipped bit in what the replica stores *)

Module Tamper.

(** [Base64.idle_flip] on the base64 text of a buffer. *)
Definition idle_flip (buffer : list byte) (i : nat) (bit : N) : bool :=
  Base64.idle_flip (map Byte.to_N buffer) i bit.




Section WithSubtle.
Context {C : SubtleCrypto}.





End WithSubtle.

End Tamper.

(** * Properties *)

(** ** [Array.prototype.sort] on a numeric key *)

Section SortByKey.
Context {A : Type} (key : A -> Z).

Lemma sort_insert_perm x l : Permutation (sort_insert (key_le key) x l) (x :: l).
Proof.
  induction l as [|y l IH]; simpl; [done|].
  destruct ((key_le key) x y); [done|].
  rewrite IH. apply perm_swap.
Qed.

Lemma Array_sort_perm l : Permutation (Array_sort (key_le key) l) l.
Proof.
  induction l as [|x l IH]; simpl; [done|].
  rewrite sort_insert_perm. by constructor.
Qed.

Lemma sort_insert_sorted x l :
  StronglySorted (key_leP key) l -> StronglySorted (key_leP key) (sort_insert (key_le key) x l).
Proof.
  induction 1 as [|y l Hl IH Hy]; simpl.
  - repeat constructor.
  - unfold key_le at 1. destruct (Z.leb_spec (key x - key y) 0).
    + constructor; [by constructor|].
      constructor; [unfold key_leP; lia|].
      eapply List.Forall_impl; [|exact Hy]. unfold key_leP. intros; lia.
    + constructor; [done|].
      rewrite sort_insert_perm. constructor; [unfold key_leP; lia|done].
Qed.

Lemma Array_sort_sorted l : StronglySorted (key_leP key) (Array_sort (key_le key) l).
Proof.
  induction l as [|x l IH]; simpl; [constructor|]. by apply sort_insert_sorted.
Qed.









End SortByKey.

(** ** [Array.prototype.sort] on a key that need not be a number *)

Section SortAnyKey.
Context {Engine : SortEngine} {A : Type} (number : A -> option Z).

(** Whatever the engine does, the elements stay. *)
Lemma sort_by_key_perm l : Permutation (sort_by_key number l) l.
Proof.
  unfold sort_by_key. destruct (forallb _ _).
  - apply Array_sort_perm.
  - apply engine_sort_perm.
Qed.



End SortAnyKey.
(** * Properties *)

(** ** Channel identifiers *)

Module GunServiceProofs.
Import GunService Samples.

Lemma js_lt_irrefl x : js_lt x x = false.
Proof.
  induction x as [|a x IH]; simpl; [reflexivity|].
  rewrite N.ltb_irrefl, N.eqb_refl, IH. reflexivity.
Qed.

Lemma js_lt_asym x y : js_lt x y = true -> js_lt y x = false.
Proof.
  revert y. induction x as [|a x IH]; intros [|b y]; simpl; try done.
  intros H. apply orb_true_iff in H as [H|H].
  - apply N.ltb_lt in H.
    rewrite (proj2 (N.ltb_ge b a)) by lia.
    rewrite (proj2 (N.eqb_neq b a)) by lia. reflexivity.
  - apply andb_true_iff in H as [Hab H]. apply N.eqb_eq in Hab. subst b.
    rewrite N.ltb_irrefl, N.eqb_refl. simpl. by apply IH.
Qed.

Lemma js_lt_total x y : js_lt x y = false -> js_lt y x = false -> x = y.
Proof.
  revert y. induction x as [|a x IH]; intros [|b y]; simpl; try done.
  intros H1 H2.
  apply orb_false_iff in H1 as [H1 H1'].
  apply orb_false_iff in H2 as [H2 H2'].
  apply N.ltb_ge in H1, H2. assert (a = b) by lia. subst b.
  rewrite N.eqb_refl in H1', H2'. simpl in *.
  f_equal. by apply IH.
Qed.

Lemma sortedJoin_comm a b : sortedJoin a b = sortedJoin b a.
Proof.
  unfold sortedJoin, default_le. simpl.
  destruct (js_lt b a) eqn:Hba, (js_lt a b) eqn:Hab; simpl; try reflexivity.
  - apply js_lt_asym in Hba. congruence.
  - by rewrite (js_lt_total a b).
Qed.

Lemma sortedJoin_cases a b :
  sortedJoin a b = a ++ colon ++ b \/ sortedJoin a b = b ++ colon ++ a.
Proof.
  unfold sortedJoin, default_le. simpl. destruct (js_lt b a); simpl; auto.
Qed.

(** A separator that occurs in neither left part splits a string in one way. *)
Lemma split_at_separator (s : N) (a b c d : jsstring) :
  ~ In s a -> ~ In s c -> a ++ s :: b = c ++ s :: d -> a = c /\ b = d.
Proof.
  revert c. induction a as [|x a IH]; intros [|y c] Ha Hc E; simpl in *.
  - by inversion E.
  - inversion E; subst. tauto.
  - inversion E; subst. tauto.
  - inversion E; subst. destruct (IH c) as [-> ->]; auto.
Qed.

Lemma restricted_no_colon u : restricted u -> ~ In 58 u.
Proof.
  intros [_ H] Hin. rewrite List.Forall_forall in H.
  specialize (H _ Hin). vm_compute in H. discriminate.
Qed.

Lemma sanitize_restricted u : restricted u -> sanitizeForChatId u = u.
Proof.
  intros [_ H]. unfold sanitizeForChatId.
  induction H as [|c u Hc _ IH]; simpl; [reflexivity|].
  by rewrite Hc, IH.
Qed.

Lemma restricted_truthy u : restricted u -> truthy u = true.
Proof. intros [H _]. by destruct u. Qed.

Lemma createChatLink_restricted g a b :
  restricted a -> restricted b ->
  (createChatLink (Some g) a b).1 = Some (sortedJoin a b).
Proof.
  intros Ha Hb. unfold createChatLink.
  rewrite !sanitize_restricted by done.
  by rewrite !restricted_truthy by done.
Qed.

Lemma sortedJoin_inj a b c d :
  restricted a -> restricted b -> restricted c -> restricted d ->
  sortedJoin a b = sortedJoin c d ->
  (a = c /\ b = d) \/ (a = d /\ b = c).
Proof.
  intros Ha Hb Hc Hd E.
  pose proof (restricted_no_colon _ Ha). pose proof (restricted_no_colon _ Hb).
  pose proof (restricted_no_colon _ Hc). pose proof (restricted_no_colon _ Hd).
  destruct (sortedJoin_cases a b) as [E1|E1], (sortedJoin_cases c d) as [E2|E2];
    rewrite E1, E2 in E; apply split_at_separator in E; tauto.
Qed.

(** C9.  The channel identifier is commutative and collision-free: for
    distinct usernames [A], [B] over [[a-zA-Z0-9_-]] both parties compute the
    same identifier, namely [sort([A, B]).join(":")], and a pair [C], [D]
    over the same character set that receives the same identifier is the
    same unordered pair. *)
Theorem channel_id_commutative_collision_free
    (g g' : Graph) (A B C D : jsstring)
    (HA : restricted A) (HB : restricted B)
    (HC : restricted C) (HD : restricted D) (HAB : A <> B) :
  (createChatLink (Some g) A B).1 = (createChatLink (Some g') B A).1
  /\ (createChatLink (Some g) A B).1 = Some (sortedJoin A B)
  /\ ((createChatLink (Some g) A B).1 = (createChatLink (Some g') C D).1 ->
      (A = C /\ B = D) \/ (A = D /\ B = C)).
Proof.
  rewrite !createChatLink_restricted by done.
  split; [by rewrite sortedJoin_comm|]. split; [done|].
  intros E. inversion E. by apply sortedJoin_inj.
Qed.

Lemma restricted_alice : restricted alice.
Proof. split; [done|]. repeat constructor. Qed.

Lemma restricted_bob : restricted bob.
Proof. split; [done|]. repeat constructor. Qed.

Lemma channel_id_commutative_collision_free_witness :
  (createChatLink (Some ∅) alice bob).1 = (createChatLink (Some ∅) bob alice).1
  /\ (createChatLink (Some ∅) alice bob).1 = Some (sortedJoin alice bob)
  /\ ((createChatLink (Some ∅) alice bob).1 = (createChatLink (Some ∅) bob alice).1 ->
      (alice = bob /\ bob = alice) \/ (alice = alice /\ bob = bob)).
Proof.
  apply (channel_id_commutative_collision_free ∅ ∅ alice bob bob alice
           restricted_alice restricted_bob restricted_bob restricted_alice).
  discriminate.
Defined.

(** The scenario of the specification: alice and bob get ["alice:bob"]. *)
Example alice_bob_channel :
  (createChatLink (Some ∅) bob alice).1 = Some (lit "alice:bob").
Proof. reflexivity. Qed.

(** C10.  [createChatLink] drops every character outside [[a-zA-Z0-9_-]]
    from both usernames before it computes the identifier; when either
    name is empty after that it returns [undefined] and leaves the graph
    as it was; hence raw usernames that differ only in dropped characters
    get the same identifier. *)
Theorem createChatLink_sanitizes
    (gun : option Graph) (u p u' p' : jsstring) :
  (Forall (fun c => isChatIdChar c = true) (sanitizeForChatId u)
   /\ sanitizeForChatId u = List.filter isChatIdChar u)
  /\ (forall g, gun = Some g ->
      sanitizeForChatId u <> [] -> sanitizeForChatId p <> [] ->
      (createChatLink gun u p).1
      = Some (sortedJoin (sanitizeForChatId u) (sanitizeForChatId p)))
  /\ (sanitizeForChatId u = [] \/ sanitizeForChatId p = [] ->
      createChatLink gun u p = (None, gun))
  /\ (sanitizeForChatId u = sanitizeForChatId u' ->
      sanitizeForChatId p = sanitizeForChatId p' ->
      (createChatLink gun u p).1 = (createChatLink gun u' p').1).
Proof.
  repeat split.
  - unfold sanitizeForChatId. rewrite List.Forall_forall.
    intros c Hc. by apply List.filter_In in Hc as [_ Hc].
  - intros g -> Hu Hp. unfold createChatLink.
    destruct (sanitizeForChatId u); [done|].
    by destruct (sanitizeForChatId p).
  - intros H. unfold createChatLink. destruct gun as [g|]; [|done].
    destruct H as [-> | ->]; simpl; [done|].
    by rewrite orb_true_r.
  - intros Hu Hp. unfold createChatLink. destruct gun as [g|]; [|done].
    rewrite Hu, Hp. by destruct (_ || _).
Qed.

Lemma createChatLink_sanitizes_witness :
  (createChatLink (Some ∅) (lit "al ice!") (lit "b.ob")).1 = Some (lit "alice:bob")
  /\ createChatLink (Some ∅) (lit "!!") bob = (None, Some ∅)
  /\ (createChatLink (Some ∅) (lit "al ice!") (lit "b.ob")).1
     = (createChatLink (Some ∅) alice bob).1.
Proof.
  pose proof (createChatLink_sanitizes (Some ∅) (lit "al ice!") (lit "b.ob") alice bob)
    as (_ & H1 & _ & H3).
  pose proof (createChatLink_sanitizes (Some ∅) (lit "!!") bob alice bob)
    as (_ & _ & H2 & _).
  split; [|split].
  - rewrite (H1 ∅ eq_refl); [reflexivity | discriminate | discriminate].
  - apply H2. left. reflexivity.
  - apply H3; reflexivity.
Defined.

End GunServiceProofs.

(** ** Base64 *)

(** Arithmetic with [/] and [mod] on [N]. *)
Ltac ndiv := zify; Z.to_euclidean_division_equations; lia.

(** Case analysis on every comparison in the goal. *)
Ltac by_cases :=
  repeat match goal with
    | |- context [?a <=? ?b] => destruct (N.leb_spec a b)
    | |- context [?a <? ?b] => destruct (N.ltb_spec a b)
    | |- context [?a =? ?b] => destruct (N.eqb_spec a b)
    end.

Lemma list_ind3 {A : Type} (P : list A -> Prop) :
  P [] -> (forall a, P [a]) -> (forall a b, P [a; b]) ->
  (forall a b c l, P l -> P (a :: b :: c :: l)) ->
  forall l, P l.
Proof.
  intros H0 H1 H2 H3.
  assert (forall l, P l /\ (forall a, P (a :: l)) /\ (forall a b, P (a :: b :: l))) as H.
  { induction l as [|c l (IH0 & IH1 & IH2)]; [by auto|].
    split; [apply IH1|]. split; [intros a; apply IH2|]. intros a b. by apply H3. }
  intros l. apply H.
Qed.

Lemma byte_of_to_N b : byte_of (Byte.to_N b) = b.
Proof.
  unfold byte_of. pose proof (Byte.to_N_bounded b).
  rewrite N.mod_small by lia. by rewrite Byte.of_to_N.
Qed.

Lemma to_N_byte_of n : n < 256 -> Byte.to_N (byte_of n) = n.
Proof.
  intros Hn. unfold byte_of. rewrite N.mod_small by done.
  destruct (Byte.of_N n) as [b|] eqn:E.
  - by apply Byte.to_of_N.
  - apply Byte.of_N_None_iff in E. lia.
Qed.

Lemma bytes_are_small (buf : list byte) : List.Forall (fun n => n < 256) (map Byte.to_N buf).
Proof.
  induction buf as [|b buf IH]; constructor; [|done].
  pose proof (Byte.to_N_bounded b). lia.
Qed.

Module Base64Proofs.
Import Base64.

Lemma b64_index_char i : i < 64 -> b64_index (b64_char i) = Some i.
Proof.
  intros Hi. unfold b64_char.
  destruct (N.ltb_spec i 26); [|destruct (N.ltb_spec i 52);
    [|destruct (N.ltb_spec i 62); [|destruct (N.eqb_spec i 62)]]];
    unfold b64_index; by_cases; simpl; try lia; f_equal; lia.
Qed.

Lemma b64_char_plain i :
  i < 64 -> is_ascii_whitespace (b64_char i) = false /\ b64_char i <> 61.
Proof.
  intros Hi. unfold b64_char, is_ascii_whitespace.
  destruct (N.ltb_spec i 26); [|destruct (N.ltb_spec i 52);
    [|destruct (N.ltb_spec i 62); [|destruct (N.eqb_spec i 62)]]];
    (split; [by_cases; simpl; try done; lia | lia]).
Qed.

Lemma sextets_small bs :
  List.Forall (fun n => n < 256) bs -> List.Forall (fun s => s < 64) (sextets bs).
Proof.
  induction bs as [|a|a b|a b c l IH] using list_ind3; intros H.
  - constructor.
  - inversion_clear H. simpl. repeat constructor; ndiv.
  - inversion_clear H as [|? ? Ha H']. inversion_clear H' as [|? ? Hb _].
    simpl. repeat constructor; ndiv.
  - inversion_clear H as [|? ? Ha H']. inversion_clear H' as [|? ? Hb H''].
    inversion_clear H'' as [|? ? Hc Hl].
    change (sextets (a :: b :: c :: l))
      with (a / 4 :: (a mod 4) * 16 + b / 16 :: (b mod 16) * 4 + c / 64 :: c mod 64
            :: sextets l).
    repeat (constructor; [ndiv|]). by apply IH.
Qed.

Lemma octets_sextets bs :
  List.Forall (fun n => n < 256) bs -> octets (sextets bs) = bs.
Proof.
  induction bs as [|a|a b|a b c l IH] using list_ind3; intros H.
  - done.
  - inversion_clear H. simpl. f_equal. ndiv.
  - inversion_clear H as [|? ? Ha H']. inversion_clear H' as [|? ? Hb _].
    simpl. f_equal; [ndiv|]. f_equal. ndiv.
  - inversion_clear H as [|? ? Ha H']. inversion_clear H' as [|? ? Hb H''].
    inversion_clear H'' as [|? ? Hc Hl].
    change (sextets (a :: b :: c :: l))
      with (a / 4 :: (a mod 4) * 16 + b / 16 :: (b mod 16) * 4 + c / 64 :: c mod 64
            :: sextets l).
    cbn [octets]. rewrite (IH Hl).
    assert (((a / 4 * 64 + ((a mod 4) * 16 + b / 16)) * 64 + ((b mod 16) * 4 + c / 64)) * 64
            + c mod 64 = a * 65536 + b * 256 + c) as -> by ndiv.
    f_equal; [ndiv|]. f_equal; [ndiv|]. f_equal. ndiv.
Qed.

Lemma padding_step n : padding (S (S (S n))) = padding n.
Proof.
  unfold padding. replace (S (S (S n))) with (n + 1 * 3)%nat by lia.
  by rewrite Nat.Div0.mod_add.
Qed.

Lemma padding_cases n : padding n = [] \/ padding n = [61] \/ padding n = [61; 61].
Proof.
  unfold padding. destruct (n mod 3)%nat as [|[|[|]]]; auto.
Qed.

(** The length of the characters and of the padding. *)
Lemma encode_lengths (bs : list N) :
  ((length (sextets bs) + length (padding (length bs))) mod 4 = 0)%nat
  /\ ((length (sextets bs)) mod 4 <> 1)%nat.
Proof.
  induction bs as [|a|a b|a b c l [IH1 IH2]] using list_ind3;
    [by split | by split | by split |].
  change (sextets (a :: b :: c :: l))
    with (a / 4 :: (a mod 4) * 16 + b / 16 :: (b mod 16) * 4 + c / 64 :: c mod 64
          :: sextets l).
  cbn [length]. rewrite padding_step. split.
  - replace (S (S (S (S (length (sextets l))))) + length (padding (length l)))%nat
        with ((length (sextets l) + length (padding (length l))) + 1 * 4)%nat by lia.
    by rewrite Nat.Div0.mod_add.
  - replace (S (S (S (S (length (sextets l))))))
      with (length (sextets l) + 1 * 4)%nat by lia.
    by rewrite Nat.Div0.mod_add.
Qed.

Lemma strip_equals_padding (body pad : jsstring) :
  List.Forall (fun c => c <> 61) body ->
  pad = [] \/ pad = [61] \/ pad = [61; 61] ->
  strip_equals (body ++ pad) = body.
Proof.
  intros Hb Hp. induction Hb as [|c body Hc Hb IH].
  - destruct Hp as [->|[->| ->]]; reflexivity.
  - change ((c :: body) ++ pad) with (c :: (body ++ pad)). cbn [strip_equals].
    rewrite (proj2 (N.eqb_neq c 61)) by done. cbn [andb]. by rewrite IH.
Qed.

Lemma indices_chars sx :
  List.Forall (fun s => s < 64) sx -> indices (map b64_char sx) = Some sx.
Proof.
  induction 1 as [|s sx Hs _ IH]; simpl; [done|].
  by rewrite b64_index_char, IH.
Qed.

Lemma filter_plain (body pad : jsstring) :
  List.Forall (fun c => is_ascii_whitespace c = false) body ->
  pad = [] \/ pad = [61] \/ pad = [61; 61] ->
  remove_whitespace (body ++ pad) = body ++ pad.
Proof.
  intros Hb Hp. unfold remove_whitespace. rewrite List.filter_app.
  f_equal.
  - induction Hb as [|c body Hc _ IH]; simpl; [done|]. by rewrite Hc, IH.
  - destruct Hp as [->|[->| ->]]; reflexivity.
Qed.

(** Characters of the alphabet, filled up to a multiple of four, decode to
    the bytes of their 6-bit groups. *)
Lemma decode_chars sx pad :
  List.Forall (fun s => s < 64) sx ->
  pad = [] \/ pad = [61] \/ pad = [61; 61] ->
  ((length sx + length pad) mod 4 = 0)%nat ->
  (length sx mod 4 <> 1)%nat ->
  decode (map b64_char sx ++ pad) = Some (octets sx).
Proof.
  intros Hsx Hpad Hlen Hbody.
  assert (List.Forall (fun c => is_ascii_whitespace c = false /\ c <> 61)
            (map b64_char sx)) as Hplain.
  { clear -Hsx. induction Hsx as [|s sx Hs _ IH]; constructor; [|done].
    by apply b64_char_plain. }
  unfold decode.
  rewrite filter_plain;
    [|eapply List.Forall_impl; [|exact Hplain]; by intros c [? _] | done].
  unfold remove_padding. rewrite length_app, length_map, Hlen. cbn [Nat.eqb].
  rewrite strip_equals_padding;
    [|eapply List.Forall_impl; [|exact Hplain]; by intros c [_ ?] | done].
  unfold decode_alphabet. rewrite length_map.
  destruct (Nat.eqb_spec (length sx mod 4) 1) as [E|_]; [done|].
  by rewrite indices_chars.
Qed.

(** What [btoa] writes, [atob] reads back. *)
Lemma decode_encode bs :
  List.Forall (fun n => n < 256) bs -> decode (encode bs) = Some bs.
Proof.
  intros Hbs. destruct (encode_lengths bs) as [Hlen Hbody]. unfold encode.
  rewrite decode_chars; [|by apply sextets_small|apply padding_cases|done|done].
  by rewrite octets_sextets.
Qed.

(** *** The characters before the padding carry bits that [atob] drops *)

Lemma sextets_snoc pre x t :
  (length pre mod 3 = 0)%nat ->
  sextets (pre ++ [x]) = sextets pre ++ [x / 4; (x mod 4) * 16]
  /\ (List.Forall (fun n => n < 256) pre -> octets (sextets pre ++ t) = pre ++ octets t)
  /\ (length (sextets pre) mod 4 = 0)%nat.
Proof.
  induction pre as [|a|a b|a b c l IH] using list_ind3; intros Hlen; try done.
  replace (length (a :: b :: c :: l)) with (length l + 1 * 3)%nat in Hlen by (simpl; lia).
  rewrite Nat.Div0.mod_add in Hlen. destruct (IH Hlen) as (IH1 & IH2 & IH3).
  change (sextets (a :: b :: c :: l))
    with (a / 4 :: (a mod 4) * 16 + b / 16 :: (b mod 16) * 4 + c / 64 :: c mod 64
          :: sextets l).
  split; [|split].
  - change ((a :: b :: c :: l) ++ [x]) with (a :: b :: c :: (l ++ [x])).
    destruct l as [|d l]; [done|].
    change (sextets (a :: b :: c :: (d :: l) ++ [x]))
      with (a / 4 :: (a mod 4) * 16 + b / 16 :: (b mod 16) * 4 + c / 64 :: c mod 64
            :: sextets ((d :: l) ++ [x])).
    by rewrite IH1.
  - intros H. inversion_clear H as [|? ? Ha H']. inversion_clear H' as [|? ? Hb H''].
    inversion_clear H'' as [|? ? Hc Hl].
    cbn [app octets]. rewrite (IH2 Hl).
    assert (((a / 4 * 64 + ((a mod 4) * 16 + b / 16)) * 64 + ((b mod 16) * 4 + c / 64)) * 64
            + c mod 64 = a * 65536 + b * 256 + c) as -> by ndiv.
    cbn [app]. f_equal; [ndiv|]. f_equal; [ndiv|]. f_equal. ndiv.
  - cbn [length].
    replace (S (S (S (S (length (sextets l)))))) with (length (sextets l) + 1 * 4)%nat by lia.
    by rewrite Nat.Div0.mod_add.
Qed.

Lemma idle_bit_flip low :
  low < 4 ->
  exists d, 0 < d < 16
            /\ N.lxor (b64_char (low * 16)) (2 ^ idle_bit low) = b64_char (low * 16 + d).
Proof.
  intros H. destruct low as [|[[|[]|]|[|[]|]|]]; try lia.
  - exists 2. by vm_compute.
  - exists 11. by vm_compute.
  - exists 8. by vm_compute.
  - exists 2. by vm_compute.
Qed.

(** A byte sequence whose length leaves 1 modulo 3 has two base64 texts that
    differ in one bit and decode alike. *)
Lemma encode_malleable bs :
  List.Forall (fun n => n < 256) bs -> (length bs mod 3 = 1)%nat ->
  exists i bit, flip_bit i bit (encode bs) <> encode bs
                /\ decode (flip_bit i bit (encode bs)) = Some bs.
Proof.
  intros Hbs Hlen.
  destruct (exists_last (l := bs)) as (pre & x & ->); [by intros ->|].
  apply Forall_app in Hbs as [Hpre Hx]. inversion_clear Hx as [|? ? Hx' _].
  assert (length pre mod 3 = 0)%nat as Hpre3.
  { rewrite length_app in Hlen. cbn [length] in Hlen.
    rewrite Nat.Div0.add_mod in Hlen.
    assert (length pre mod 3 < 3)%nat as Hlt by (apply Nat.mod_upper_bound; lia).
    destruct (length pre mod 3)%nat as [|[|[|]]]; [done| | |lia]; by vm_compute in Hlen. }
  destruct (sextets_snoc pre x [x / 4; (x mod 4) * 16] Hpre3) as (Hs & _ & Hs4).
  assert (x mod 4 < 4) as Hlow by ndiv.
  destruct (idle_bit_flip (x mod 4) Hlow) as (d & Hd & Hflip).
  exists (length (sextets pre) + 1)%nat, (idle_bit (x mod 4)).
  assert (encode (pre ++ [x])
          = map b64_char (sextets pre)
            ++ [b64_char (x / 4); b64_char ((x mod 4) * 16); 61; 61]) as Henc.
  { unfold encode, padding. rewrite Hlen, Hs, map_app, <- app_assoc. reflexivity. }
  assert (flip_bit (length (sextets pre) + 1) (idle_bit (x mod 4)) (encode (pre ++ [x]))
          = map b64_char (sextets pre ++ [x / 4; (x mod 4) * 16 + d]) ++ [61; 61]) as Hmod.
  { rewrite Henc. unfold flip_bit.
    replace (length (sextets pre) + 1)%nat
      with (length (map b64_char (sextets pre)) + 1)%nat by (by rewrite length_map).
    rewrite (alter_app_r _ (map b64_char (sextets pre)) _ 1).
    cbn [alter list_alter]. rewrite Hflip.
    rewrite map_app, <- app_assoc. reflexivity. }
  split.
  - rewrite Hmod, Henc, map_app, <- app_assoc. intros E.
    apply app_inv_head in E. injection E as E.
    assert (b64_index (b64_char (x mod 4 * 16 + d)) = b64_index (b64_char (x mod 4 * 16)))
      as E' by by rewrite E.
    rewrite !b64_index_char in E' by ndiv. injection E' as E'. lia.
  - rewrite Hmod. rewrite decode_chars.
    + destruct (sextets_snoc pre x [x / 4; (x mod 4) * 16 + d] Hpre3) as (_ & Ho & _).
      rewrite (Ho Hpre). cbn [octets]. do 3 f_equal. ndiv.
    + apply Forall_app. split; [by apply sextets_small|].
      repeat constructor; ndiv.
    + auto.
    + rewrite !length_app. cbn [length].
      replace (length (sextets pre) + 2 + 2)%nat
        with (length (sextets pre) + 1 * 4)%nat by lia.
      by rewrite Nat.Div0.mod_add.
    + rewrite length_app. cbn [length]. rewrite Nat.Div0.add_mod, Hs4. by vm_compute.
Qed.

(** *** Without padding every character counts *)






















(** *** Every flipped bit, classified *)























Lemma remove_whitespace_padding len :
  remove_whitespace (padding len) = padding len.
Proof. by destruct (padding_cases len) as [->|[->| ->]]. Qed.









End Base64Proofs.

(** [b64ToArrayBuffer] undoes [arrayBufferToB64]. *)
Lemma b64ToArrayBuffer_arrayBufferToB64 (buffer : list byte) :
  Crypto.b64ToArrayBuffer (Crypto.arrayBufferToB64 buffer) = Ok buffer.
Proof.
  unfold Crypto.b64ToArrayBuffer, Crypto.arrayBufferToB64, Base64.atob.
  rewrite Base64Proofs.decode_encode by apply bytes_are_small.
  f_equal. rewrite map_map. rewrite <- (map_id buffer) at 2.
  apply map_ext. intros b. apply byte_of_to_N.
Qed.

(** A buffer whose length leaves 1 modulo 3: one bit of its base64 text can
    be flipped and [b64ToArrayBuffer] still gives the buffer. *)
Lemma arrayBufferToB64_malleable (buffer : list byte) :
  (length buffer mod 3 = 1)%nat ->
  exists i bit,
    flip_bit i bit (Crypto.arrayBufferToB64 buffer) <> Crypto.arrayBufferToB64 buffer
    /\ Crypto.b64ToArrayBuffer (flip_bit i bit (Crypto.arrayBufferToB64 buffer)) = Ok buffer.
Proof.
  intros Hlen.
  destruct (Base64Proofs.encode_malleable (map Byte.to_N buffer)) as (i & bit & Hne & Hdec).
  - apply bytes_are_small.
  - by rewrite length_map.
  - exists i, bit. split; [exact Hne|].
    unfold Crypto.b64ToArrayBuffer, Crypto.arrayBufferToB64, Base64.atob.
    rewrite Hdec. f_equal. rewrite map_map. rewrite <- (map_id buffer) at 2.
    apply map_ext. intros b. apply byte_of_to_N.
Qed.









(** [btoa] of the binary string of a buffer is [arrayBufferToB64] and does
    not throw. *)
Lemma btoa_binary_string (buffer : list byte) :
  Base64.btoa (map Byte.to_N buffer) = Ok (Crypto.arrayBufferToB64 buffer).
Proof.
  unfold Base64.btoa. rewrite (proj2 (forallb_forall _ _)); [done|].
  intros n Hn. apply in_map_iff in Hn as (b & <- & _).
  apply N.leb_le, Byte.to_N_bounded.
Qed.

(** ** UTF-8 *)

Module EncodingProofs.
Import Encoding.

(** Case analysis on the comparisons of the goal, equalities first. *)
Ltac by_cases' :=
  repeat match goal with
    | |- context [?a =? ?b] => destruct (N.eqb_spec a b)
    end;
  repeat match goal with
    | |- context [?a <=? ?b] => destruct (N.leb_spec a b)
    | |- context [?a <? ?b] => destruct (N.ltb_spec a b)
    end.

Lemma utf8_bytes_small cp :
  cp < 0x110000 -> List.Forall (fun b => b < 256) (utf8_bytes cp).
Proof.
  intros H. unfold utf8_bytes. by_cases'; repeat constructor; ndiv.
Qed.

(** The decoder reads the bytes of a scalar value back as that value. *)
Lemma decode_scalar cp rest :
  scalar cp ->
  utf8_decode None (utf8_bytes cp ++ rest) = cp :: utf8_decode None rest.
Proof.
  intros [Hmax Hsur]. unfold utf8_bytes.
  destruct (N.ltb_spec cp 0x80) as [H1|H1];
    [|destruct (N.ltb_spec cp 0x800) as [H2|H2];
      [|destruct (N.ltb_spec cp 0x10000) as [H3|H3]]].
  - cbn [app utf8_decode]. unfold lead.
    destruct (N.leb_spec cp 0x7F); [done|lia].
  - cbn [app utf8_decode]. unfold lead.
    destruct (N.leb_spec (0xC0 + cp / 64) 0x7F); [ndiv|].
    destruct (N.leb_spec 0xC2 (0xC0 + cp / 64)); [|ndiv].
    destruct (N.leb_spec (0xC0 + cp / 64) 0xDF); [|ndiv].
    cbn [andb utf8_decode lower_boundary upper_boundary bytes_needed code_point].
    destruct (N.leb_spec 0x80 (0x80 + cp mod 64)); [|ndiv].
    destruct (N.leb_spec (0x80 + cp mod 64) 0xBF); [|ndiv].
    cbn [andb N.eqb Pos.eqb]. f_equal. ndiv.
  - cbn [app utf8_decode]. unfold lead.
    destruct (N.leb_spec (0xE0 + cp / 4096) 0x7F); [ndiv|].
    destruct (N.leb_spec 0xC2 (0xE0 + cp / 4096)); [|ndiv].
    destruct (N.leb_spec (0xE0 + cp / 4096) 0xDF); [ndiv|].
    destruct (N.leb_spec 0xE0 (0xE0 + cp / 4096)); [|ndiv].
    destruct (N.leb_spec (0xE0 + cp / 4096) 0xEF); [|ndiv].
    cbn [andb utf8_decode lower_boundary upper_boundary bytes_needed code_point].
    destruct (N.eqb_spec (0xE0 + cp / 4096) 0xE0), (N.eqb_spec (0xE0 + cp / 4096) 0xED);
      try (exfalso; ndiv);
      (match goal with
       | |- context [(?lo <=? ?b) && (?b <=? ?hi)] =>
           destruct (N.leb_spec lo b); [|exfalso; ndiv];
           destruct (N.leb_spec b hi); [|exfalso; ndiv]
       end;
       cbn [andb N.eqb Pos.eqb N.sub Pos.sub Pos.sub_mask Pos.pred_double Pos.double_mask
              Pos.double_pred_mask Pos.succ_double_mask
              utf8_decode lower_boundary upper_boundary bytes_needed code_point];
       destruct (N.leb_spec 0x80 (0x80 + cp mod 64)); [|exfalso; ndiv];
       destruct (N.leb_spec (0x80 + cp mod 64) 0xBF); [|exfalso; ndiv];
       cbn [andb]; f_equal; ndiv).
  - cbn [app utf8_decode]. unfold lead.
    destruct (N.leb_spec (0xF0 + cp / 262144) 0x7F); [ndiv|].
    destruct (N.leb_spec 0xC2 (0xF0 + cp / 262144)); [|ndiv].
    destruct (N.leb_spec (0xF0 + cp / 262144) 0xDF); [ndiv|].
    destruct (N.leb_spec 0xE0 (0xF0 + cp / 262144)); [|ndiv].
    destruct (N.leb_spec (0xF0 + cp / 262144) 0xEF); [ndiv|].
    destruct (N.leb_spec 0xF0 (0xF0 + cp / 262144)); [|ndiv].
    destruct (N.leb_spec (0xF0 + cp / 262144) 0xF4); [|ndiv].
    cbn [andb utf8_decode lower_boundary upper_boundary bytes_needed code_point].
    destruct (N.eqb_spec (0xF0 + cp / 262144) 0xF0), (N.eqb_spec (0xF0 + cp / 262144) 0xF4);
      try (exfalso; ndiv);
      (match goal with
       | |- context [(?lo <=? ?b) && (?b <=? ?hi)] =>
           destruct (N.leb_spec lo b); [|exfalso; ndiv];
           destruct (N.leb_spec b hi); [|exfalso; ndiv]
       end;
       cbn [andb N.eqb Pos.eqb N.sub Pos.sub Pos.sub_mask Pos.pred_double Pos.double_mask
              Pos.double_pred_mask Pos.succ_double_mask
              utf8_decode lower_boundary upper_boundary bytes_needed code_point];
       destruct (N.leb_spec 0x80 (0x80 + (cp / 64) mod 64)); [|exfalso; ndiv];
       destruct (N.leb_spec (0x80 + (cp / 64) mod 64) 0xBF); [|exfalso; ndiv];
       cbn [andb N.eqb Pos.eqb N.sub Pos.sub Pos.sub_mask Pos.pred_double Pos.double_mask
              Pos.double_pred_mask Pos.succ_double_mask
              utf8_decode lower_boundary upper_boundary bytes_needed code_point];
       destruct (N.leb_spec 0x80 (0x80 + cp mod 64)); [|exfalso; ndiv];
       destruct (N.leb_spec (0x80 + cp mod 64) 0xBF); [|exfalso; ndiv];
       cbn [andb]; f_equal; ndiv).
Qed.

Lemma decode_scalars cps :
  List.Forall scalar cps -> utf8_decode None (flat_map utf8_bytes cps) = cps.
Proof.
  induction 1 as [|cp cps Hcp _ IH]; simpl; [done|].
  by rewrite decode_scalar, IH.
Qed.

Lemma well_formed_ind (P : jsstring -> Prop) :
  P [] ->
  (forall c s, is_high_surrogate c = false -> is_low_surrogate c = false ->
               c < 0x10000 -> well_formed s = true -> P s -> P (c :: s)) ->
  (forall c d s, is_high_surrogate c = true -> is_low_surrogate d = true ->
                 well_formed s = true -> P s -> P (c :: d :: s)) ->
  forall s, well_formed s = true -> P s.
Proof.
  intros H0 H1 H2.
  assert (forall s, (well_formed s = true -> P s)
                    /\ (forall c, well_formed (c :: s) = true -> P (c :: s))) as H.
  { induction s as [|d s [IHs IHc]].
    - split; [done|]. intros c. cbn [well_formed].
      destruct (is_high_surrogate c) eqn:Eh; [done|].
      intros Hw. apply andb_true_iff in Hw as [Hw _].
      apply andb_true_iff in Hw as [Hl Hc]. apply negb_true_iff in Hl.
      apply N.ltb_lt in Hc. by apply H1.
    - split; [apply IHc|]. intros c. cbn [well_formed].
      destruct (is_high_surrogate c) eqn:Eh.
      + intros Hw. apply andb_true_iff in Hw as [Hl Hw]. apply H2; auto.
      + intros Hw. apply andb_true_iff in Hw as [Hw Hds].
        apply andb_true_iff in Hw as [Hl Hc]. apply negb_true_iff in Hl.
        apply N.ltb_lt in Hc. apply H1; auto. }
  intros s. apply H.
Qed.

Lemma surrogate_pair_scalar c d :
  is_high_surrogate c = true -> is_low_surrogate d = true ->
  let cp := 0x10000 + (c - 0xD800) * 0x400 + (d - 0xDC00) in
  scalar cp /\ 0x10000 <= cp /\ utf16_units cp = [c; d].
Proof.
  intros Hc Hd cp. unfold is_high_surrogate, is_low_surrogate in Hc, Hd.
  apply andb_true_iff in Hc as [Hc1 Hc2]. apply andb_true_iff in Hd as [Hd1 Hd2].
  apply N.leb_le in Hc1, Hc2, Hd1, Hd2.
  assert (0x10000 <= cp < 0x110000) as Hcp by (unfold cp; lia).
  split; [split; lia|]. split; [lia|].
  unfold utf16_units. destruct (N.ltb_spec cp 0x10000); [lia|].
  f_equal; [|f_equal]; unfold cp; ndiv.
Qed.

Lemma plain_unit_scalar c :
  is_high_surrogate c = false -> is_low_surrogate c = false -> c < 0x10000 ->
  scalar c /\ utf16_units c = [c].
Proof.
  unfold is_high_surrogate, is_low_surrogate, scalar, utf16_units. intros Hh Hl Hc.
  apply andb_false_iff in Hh, Hl. rewrite !N.leb_gt in Hh, Hl.
  split; [lia|]. by rewrite (proj2 (N.ltb_lt _ _) Hc).
Qed.

(** The scalar values of a well-formed string, and the way back. *)
Lemma to_scalars_well_formed s :
  well_formed s = true ->
  List.Forall scalar (to_scalars s) /\ flat_map utf16_units (to_scalars s) = s.
Proof.
  revert s. apply well_formed_ind;
    [|intros c s Hh Hl Hc _ [IH1 IH2]|intros c d s Hh Hl _ [IH1 IH2]].
  - split; [constructor|done].
  - cbn [to_scalars]. rewrite Hh, Hl.
    destruct (plain_unit_scalar c Hh Hl Hc) as [Hs Hu].
    split; [by constructor|]. cbn [flat_map]. by rewrite Hu, IH2.
  - cbn [to_scalars]. rewrite Hh, Hl.
    destruct (surrogate_pair_scalar c d Hh Hl) as (Hs & _ & Hu).
    split; [by constructor|]. cbn [flat_map]. by rewrite Hu, IH2.
Qed.

(** Only U+FEFF is encoded with the bytes of the byte order mark in front. *)
Lemma strip_bom_scalars cps :
  List.Forall scalar cps -> hd_error cps <> Some 0xFEFF ->
  strip_bom (flat_map utf8_bytes cps) = flat_map utf8_bytes cps.
Proof.
  intros Hs Hhd. destruct Hs as [|cp cps [Hmax Hsur] _]; [done|].
  cbn [flat_map]. assert (cp <> 0xFEFF) as Hne by (intros ->; by apply Hhd).
  unfold utf8_bytes.
  destruct (N.ltb_spec cp 0x80) as [H1|H1];
    [|destruct (N.ltb_spec cp 0x800) as [H2|H2];
      [|destruct (N.ltb_spec cp 0x10000) as [H3|H3]]];
    cbn [app]; unfold strip_bom.
  - destruct (N.eqb_spec cp 0xEF) as [->|Hb]; [lia|].
    destruct cp as [|p]; [done|].
    repeat (destruct p as [p|p|]; try done).
  - assert (0xC0 + cp / 64 <> 0xEF) as Hb by ndiv.
    destruct (0xC0 + cp / 64) as [|p]; [done|].
    repeat (destruct p as [p|p|]; try done).
  - assert (~ (0xE0 + cp / 4096 = 0xEF /\ 0x80 + (cp / 64) mod 64 = 0xBB
               /\ 0x80 + cp mod 64 = 0xBF)) as Hb by ndiv.
    destruct (N.eq_dec (0xE0 + cp / 4096) 0xEF) as [E1|Hb1].
    + rewrite E1.
      destruct (N.eq_dec (0x80 + (cp / 64) mod 64) 0xBB) as [E2|Hb2]; [rewrite E2|].
      * destruct (N.eq_dec (0x80 + cp mod 64) 0xBF) as [E3|Hb3]; [tauto|].
        destruct (0x80 + cp mod 64) as [|p]; [done|].
        repeat (destruct p as [p|p|]; try done).
      * destruct (0x80 + (cp / 64) mod 64) as [|p]; [done|].
        repeat (destruct p as [p|p|]; try done).
    + destruct (0xE0 + cp / 4096) as [|p]; [done|].
      repeat (destruct p as [p|p|]; try done).
  - assert (0xF0 + cp / 262144 <> 0xEF) as Hb by ndiv.
    destruct (0xF0 + cp / 262144) as [|p]; [done|].
    repeat (destruct p as [p|p|]; try done).
Qed.

Lemma to_scalars_head s :
  well_formed s = true -> starts_with_bom s = false ->
  hd_error (to_scalars s) <> Some 0xFEFF.
Proof.
  intros Hw Hb. destruct s as [|c s]; [done|].
  cbn [well_formed] in Hw. cbn [starts_with_bom] in Hb. apply N.eqb_neq in Hb.
  cbn [to_scalars]. destruct (is_high_surrogate c) eqn:Hh.
  - destruct s as [|d s]; [done|]. apply andb_true_iff in Hw as [Hl _].
    rewrite Hl. cbn [hd_error].
    destruct (surrogate_pair_scalar c d Hh Hl) as (_ & Hge & _).
    intros [= E]. lia.
  - apply andb_true_iff in Hw as [Hw _]. apply andb_true_iff in Hw as [Hl _].
    apply negb_true_iff in Hl. rewrite Hl. cbn [hd_error]. congruence.
Qed.

(** [TextDecoder] gives back what [TextEncoder] was given, for every
    well-formed string that does not begin with U+FEFF. *)
Lemma TextDecoder_TextEncoder s :
  well_formed s = true -> starts_with_bom s = false ->
  TextDecoder_decode (TextEncoder_encode s) = s.
Proof.
  intros Hw Hb. destruct (to_scalars_well_formed s Hw) as [Hs Hu].
  unfold TextDecoder_decode, TextEncoder_encode.
  assert (map Byte.to_N (map byte_of (flat_map utf8_bytes (to_scalars s)))
          = flat_map utf8_bytes (to_scalars s)) as ->.
  { rewrite map_map. rewrite <- (map_id (flat_map _ _)) at 2.
    apply map_ext_in. intros b Hin. apply to_N_byte_of.
    apply in_flat_map in Hin as (cp & Hcp & Hin).
    rewrite List.Forall_forall in Hs. destruct (Hs cp Hcp) as [Hmax _].
    pose proof (utf8_bytes_small cp Hmax) as Hsmall.
    rewrite List.Forall_forall in Hsmall. by apply Hsmall. }
  rewrite strip_bom_scalars by (done || by apply to_scalars_head).
  by rewrite decode_scalars.
Qed.

End EncodingProofs.

(** ** The key directory *)

Module DirectoryProofs.
Import GunService Samples.

Section WithJson.
Variable JSON_parse : jsstring -> option JsValue.

Lemma resolveLoop_all_empty reads retries i d :
  (forall j, (j < retries)%nat ->
     nonEmpty (tryOnce (attemptTimeout (delayAt j d)) (reads (i + j)%nat)) = false) ->
  resolveLoop JSON_parse reads retries i d = (JNull, schedule retries d).
Proof.
  revert i d. induction retries as [|r IH]; intros i d H; simpl; [done|].
  pose proof (H 0%nat ltac:(lia)) as H0. simpl in H0.
  rewrite Nat.add_0_r in H0. rewrite H0.
  rewrite (IH (S i) (nextDelay d)); [done|].
  intros j Hj. specialize (H (S j) ltac:(lia)). simpl in H.
  by rewrite Nat.add_succ_r in H.
Qed.

Lemma resolveLoop_first reads retries i d n :
  (n < retries)%nat ->
  (forall j, (j < n)%nat ->
     nonEmpty (tryOnce (attemptTimeout (delayAt j d)) (reads (i + j)%nat)) = false) ->
  nonEmpty (tryOnce (attemptTimeout (delayAt n d)) (reads (i + n)%nat)) = true ->
  resolveLoop JSON_parse reads retries i d
  = (decodeKey JSON_parse (tryOnce (attemptTimeout (delayAt n d)) (reads (i + n)%nat)),
     schedule n d ++ [Attempted (attemptTimeout (delayAt n d))]).
Proof.
  revert retries i d. induction n as [|n IH]; intros [|r] i d Hn He Hf; try lia.
  - simpl in *. rewrite Nat.add_0_r in *. by rewrite Hf.
  - simpl. pose proof (He 0%nat ltac:(lia)) as H0. simpl in H0.
    rewrite Nat.add_0_r in H0. rewrite H0.
    rewrite (IH r (S i) (nextDelay d)); [| lia | |].
    + by rewrite Nat.add_succ_r.
    + intros j Hj. specialize (He (S j) ltac:(lia)). simpl in He.
      by rewrite Nat.add_succ_r in He.
    + simpl in Hf. by rewrite Nat.add_succ_r in Hf.
Qed.

Lemma attemptsOf_schedule n d : attemptsOf (schedule n d) = n.
Proof.
  revert d. induction n as [|n IH]; intros d; [done|].
  unfold attemptsOf in *. simpl. by rewrite IH.
Qed.

Lemma attemptsOf_app e1 e2 : attemptsOf (e1 ++ e2) = (attemptsOf e1 + attemptsOf e2)%nat.
Proof. unfold attemptsOf. by rewrite List.filter_app, length_app. Qed.
End WithJson.

Lemma nextDelay_capped d : (nextDelay d <= 2000)%Z.
Proof. unfold nextDelay. apply Z.le_min_l. Qed.

Lemma nextDelay_grows d : (0 <= d <= 2000)%Z -> (d <= nextDelay d)%Z.
Proof.
  unfold nextDelay. intros H. apply Z.min_glb; [lia|].
  apply Z.div_le_lower_bound; lia.
Qed.

(** A string that is read is never returned as it was read when it parses:
    the non-empty string [null] resolves to [null], which the form shows as
    "User not found" after a single attempt. *)
Lemma stored_string_is_parsed :
  nonEmpty (tryOnce (attemptTimeout DEFAULT_DELAY) (answering_null 0%nat)) = true
  /\ fetchPartnerPubKey parse_null_or_bob (Some ∅) answering_null
       DEFAULT_RETRIES DEFAULT_DELAY
     = (JNull, [Attempted 900])
  /\ JNull <> JString (lit "null")
  /\ Chat.handleNewChatSubmit parse_null_or_bob (Some ∅) answering_null alice (lit "ghost")
     = (Chat.Status Chat.USER_NOT_FOUND, [Attempted 900], Some ∅).
Proof. repeat split; try reflexivity. discriminate. Qed.

(** C5, as the code has it.  With the defaults (5 retries, first delay
    700 ms) a name whose reads all come back empty, each read raced against
    its timeout, costs exactly five attempts with the waits 700, 840, 1008,
    1210 and 1452 ms between and after them (each wait the last one times
    1.2, rounded, and never above 2000), and only then resolves to [null];
    the form shows that as "User not found".  When the [n]-th read is the
    first to bring a value that is not empty, [n + 1] attempts are made and
    no further one, and the result is that value unless it is a string: a
    string is returned as what [JSON.parse] makes of it, and as it is only
    when it does not parse.  A result that is falsy is shown as "User not
    found" as well. *)
Theorem directory_lookup_bounded_retry
    (JSON_parse : jsstring -> option JsValue) (g : Graph) (reads : nat -> Read) :
  ((forall i, (i < DEFAULT_RETRIES)%nat -> emptyAt reads DEFAULT_DELAY i) ->
   fetchPartnerPubKey JSON_parse (Some g) reads DEFAULT_RETRIES DEFAULT_DELAY
   = (JNull, [Attempted 900; Slept 700; Attempted 900; Slept 840;
              Attempted 900; Slept 1008; Attempted 900; Slept 1210;
              Attempted 900; Slept 1452])
   /\ attemptsOf (fetchPartnerPubKey JSON_parse (Some g) reads
                    DEFAULT_RETRIES DEFAULT_DELAY).2 = 5%nat
   /\ forall currentUser name,
        Chat.trim name <> currentUser -> Chat.validUsername (Chat.trim name) = true ->
        (Chat.handleNewChatSubmit JSON_parse (Some g) reads currentUser name).1.1
        = Chat.Status Chat.USER_NOT_FOUND)
  /\ (forall n, (n < DEFAULT_RETRIES)%nat ->
      (forall i, (i < n)%nat -> emptyAt reads DEFAULT_DELAY i) ->
      ~ emptyAt reads DEFAULT_DELAY n ->
      let res := tryOnce (attemptTimeout (delayAt n DEFAULT_DELAY)) (reads n) in
      let out := fetchPartnerPubKey JSON_parse (Some g) reads
                   DEFAULT_RETRIES DEFAULT_DELAY in
      attemptsOf out.2 = S n
      /\ out.2 = schedule n DEFAULT_DELAY
                 ++ [Attempted (attemptTimeout (delayAt n DEFAULT_DELAY))]
      /\ ((forall s, res <> JString s) -> out.1 = res)
      /\ (forall s v, res = JString s -> JSON_parse s = Some v -> out.1 = v)
      /\ (forall s, res = JString s -> JSON_parse s = None -> out.1 = res)
      /\ (forall currentUser name,
            Chat.trim name <> currentUser -> Chat.validUsername (Chat.trim name) = true ->
            falsy out.1 = true ->
            (Chat.handleNewChatSubmit JSON_parse (Some g) reads currentUser name).1
            = (Chat.Status Chat.USER_NOT_FOUND, out.2)))
  /\ (forall d, (nextDelay d <= 2000)%Z /\ ((0 <= d <= 2000)%Z -> (d <= nextDelay d)%Z)).
Proof.
  split; [|split].
  - intros Hempty.
    assert (fetchPartnerPubKey JSON_parse (Some g) reads DEFAULT_RETRIES DEFAULT_DELAY
            = (JNull, schedule DEFAULT_RETRIES DEFAULT_DELAY)) as E.
    { unfold fetchPartnerPubKey. apply resolveLoop_all_empty.
      intros j Hj. exact (Hempty j Hj). }
    split; [by rewrite E|]. split.
    + rewrite E. apply attemptsOf_schedule.
    + intros currentUser name Hne Hvalid. unfold Chat.handleNewChatSubmit.
      assert (truthy (Chat.trim name) = true) as Ht.
      { unfold Chat.validUsername in Hvalid. by apply andb_true_iff in Hvalid as [? _]. }
      rewrite Ht, Hvalid. cbn [negb].
      rewrite bool_decide_eq_false_2 by done.
      by rewrite E.
  - intros n Hn Hempty Hfirst res out.
    assert (out = (decodeKey JSON_parse res,
                   schedule n DEFAULT_DELAY
                   ++ [Attempted (attemptTimeout (delayAt n DEFAULT_DELAY))])) as E.
    { unfold out, fetchPartnerPubKey.
      apply (resolveLoop_first JSON_parse reads DEFAULT_RETRIES 0 DEFAULT_DELAY n Hn).
      - intros j Hj. exact (Hempty j Hj).
      - unfold emptyAt in Hfirst. simpl. by destruct (nonEmpty _). }
    split; [|split; [|split; [|split; [|split]]]].
    + rewrite E. cbn [snd]. rewrite attemptsOf_app, attemptsOf_schedule.
      change (attemptsOf [Attempted (attemptTimeout (delayAt n DEFAULT_DELAY))])
        with 1%nat.
      lia.
    + by rewrite E.
    + intros Hs. rewrite E. cbn [fst]. destruct res; try done. by destruct (Hs s).
    + intros s v Es Ep. rewrite E, Es. cbn [fst decodeKey]. by rewrite Ep.
    + intros s Es Ep. rewrite E, Es. cbn [fst decodeKey]. by rewrite Ep.
    + intros currentUser name Hne Hvalid Hfalsy. unfold Chat.handleNewChatSubmit.
      assert (truthy (Chat.trim name) = true) as Ht.
      { unfold Chat.validUsername in Hvalid. by apply andb_true_iff in Hvalid as [? _]. }
      rewrite Ht, Hvalid. cbn [negb].
      rewrite bool_decide_eq_false_2 by done.
      fold out. rewrite E in Hfalsy |- *. cbn [fst snd] in *. by rewrite Hfalsy.
  - intros d. split; [apply nextDelay_capped | apply nextDelay_grows].
Qed.

Lemma directory_lookup_bounded_retry_witness :
  (Chat.handleNewChatSubmit parse_bob (Some ∅) nobody alice (lit " ghost ")).1.1
  = Chat.Status Chat.USER_NOT_FOUND
  /\ (fetchPartnerPubKey parse_bob (Some ∅) third_time DEFAULT_RETRIES DEFAULT_DELAY).1
     = JObject bob_jwk.
Proof.
  pose proof (directory_lookup_bounded_retry parse_bob ∅ nobody) as (H1 & _ & _).
  pose proof (directory_lookup_bounded_retry parse_bob ∅ third_time) as (_ & H2 & _).
  split.
  - apply H1; [|discriminate|reflexivity].
    intros i _. reflexivity.
  - destruct (H2 2%nat) as (_ & _ & _ & E & _).
    + unfold DEFAULT_RETRIES. lia.
    + intros [|[|i]] Hi; [reflexivity|reflexivity|lia].
    + discriminate.
    + exact (E bob_key_json (JObject bob_jwk) eq_refl eq_refl).
Defined.

(** The scenario of the specification: "ghost" is not in the directory. *)
Example ghost_not_found :
  Chat.handleNewChatSubmit parse_bob (Some ∅) nobody alice (lit "ghost")
  = (Chat.Status Chat.USER_NOT_FOUND,
     [Attempted 900; Slept 700; Attempted 900; Slept 840; Attempted 900;
      Slept 1008; Attempted 900; Slept 1210; Attempted 900; Slept 1452],
     Some ∅).
Proof. reflexivity. Qed.

End DirectoryProofs.

(** ** The durable cache keeps timelines *)

Module UserCacheProofs.
Import UserCache Chat.









End UserCacheProofs.

(** ** The reconciler of Chat.tsx *)

Module ChatProofs.
Import UserCache Chat UserCacheProofs.

Section WithEngine.
Context {Engine : SortEngine}.

Lemma some_key_true key l : some_key key l = true <-> key ∈ entryKeys l.
Proof.
  unfold some_key, entryKeys. rewrite existsb_exists, list_elem_of_omap.
  split.
  - intros (m & Hm & Hk). exists m. split; [by apply list_elem_of_In|].
    by apply bool_decide_eq_true in Hk.
  - intros (m & Hm & Hk). exists m. split; [by apply list_elem_of_In|].
    by apply bool_decide_eq_true.
Qed.

Lemma some_key_false key l : some_key key l = false <-> key ∉ entryKeys l.
Proof. rewrite <- some_key_true. by destruct (some_key key l). Qed.

Lemma truthy_nonempty (k : jsstring) : truthy k = true <-> k <> [].
Proof. by destruct k. Qed.

(** What one callback does to the timeline: nothing, or one entry enters
    behind the entries that are not newer. *)
Lemma handleMessage_cases chatId cb st :
  let st' := handleMessage chatId cb st in
  (messages st' = messages st /\ storage st' = storage st
   /\ (forall k, k ∈ renderedMessageKeys st' ->
                 k ∈ renderedMessageKeys st \/
                 (k = cb_key cb /\ k ∈ entryKeys (messages st))))
  \/ (exists msg, cb_msg cb = Some msg /\ cb_key cb <> []
      /\ (cb_key cb ∉ renderedMessageKeys st)
      /\ (cb_key cb ∉ entryKeys (messages st))
      /\ messages st' = sort_by_timestamp (messages st ++ [with_key msg (cb_key cb)])
      /\ renderedMessageKeys st' = {[cb_key cb]} ∪ renderedMessageKeys st
      /\ storage st' = (saveMessagesToCache (storage st) (at_time cb) (at_time cb)
                          chatId (messages st')).1).
Proof.
  unfold handleMessage. destruct (cb_msg cb) as [msg|]; [|left; auto].
  destruct (truthy (cb_key cb)) eqn:Ht; simpl; [|left; auto].
  case_bool_decide as Hin; simpl; [left; auto|].
  destruct (some_key _ _) eqn:Hs; simpl.
  - left. repeat split; [].
    intros k Hk. apply elem_of_union in Hk as [Hk|Hk]; [|by left].
    apply elem_of_singleton in Hk. subst k. right. split; [done|].
    by apply some_key_true.
  - right. exists msg. repeat split; try done.
    + by apply truthy_nonempty.
    + by apply some_key_false.
Qed.

Lemma handleMessage_other chatId cb st :
  currentChat (handleMessage chatId cb st) = currentChat st
  /\ listening (handleMessage chatId cb st) = listening st.
Proof.
  unfold handleMessage. destruct (cb_msg cb); [|done].
  destruct (_ || _); [done|]. by destruct (some_key _ _).
Qed.













Lemma Array_sort_snoc_neq (l : list ChatMessage) m :
  sort_by_timestamp (l ++ [m]) <> l.
Proof.
  intros Heq. apply (f_equal length) in Heq. unfold sort_by_timestamp in Heq.
  rewrite (Permutation_length (sort_by_key_perm _ (l ++ [m]))) in Heq.
  rewrite length_app in Heq. simpl in Heq. lia.
Qed.

Lemma deliver_listening chatId cb st : listening (deliver chatId cb st) = listening st.
Proof.
  unfold deliver. case_bool_decide; [|done].
  destruct (handleMessage_other chatId cb st) as [_ E].
  by case_bool_decide.
Qed.





Lemma feed_reachable chatId cbs st : reachable st -> reachable (feed chatId cbs st).
Proof.
  revert st. induction cbs as [|cb cbs IH]; intros st Hr; [done|].
  apply IH. by constructor.
Qed.




End WithEngine.

End ChatProofs.

(** ** The reconciler of ChatWindow.tsx *)

Module ChatWindowProofs.
Import ChatWindow.

Lemma Map_has_true k (m : MessageMap) : Map_has k m = true <-> k ∈ map fst m.
Proof.
  unfold Map_has. rewrite existsb_exists, list_elem_of_fmap. split.
  - intros (kv & Hin & Hk). apply bool_decide_eq_true in Hk.
    exists kv. split; [done|]. by apply list_elem_of_In.
  - intros (kv & Hk & Hin). exists kv. split; [by apply list_elem_of_In|].
    by apply bool_decide_eq_true.
Qed.

Lemma Map_set_keys k v m :
  map fst (Map_set k v m) = if Map_has k m then map fst m else map fst m ++ [k].
Proof.
  induction m as [|[k' v'] m IH]; simpl; [done|].
  case_bool_decide as E; simpl; [by subst k'|].
  rewrite IH. by destruct (Map_has k m).
Qed.



Section WithSubtle.
Context {C : SubtleCrypto} {Engine : SortEngine}.







End WithSubtle.

End ChatWindowProofs.

(** ** The rendered timeline: order and de-duplication *)

Module Timeline.
Import Samples.





Section WithEngine.
Context {Engine : SortEngine}.

(** Two entries with timestamp 200: the one that entered first stays first. *)
Example ties_keep_arrival_order :
  map _key
    (Chat.messages
       (Chat.feed (lit "alice:bob")
          [arrival 200 "k1"; arrival 100 "k2"; arrival 200 "k3"] opened))
  = [Some (lit "k2"); Some (lit "k1"); Some (lit "k3")].
Proof. vm_compute. reflexivity. Qed.

End WithEngine.



End Timeline.

(** ** Writes to the durable cache under quota pressure *)

Module CacheWrites.
Import UserCache Samples.

(** The claim as the specification words it fails for the user record: on a
    full [localStorage] without user records to evict, [saveUserToCache]
    throws the [QuotaExceededError] at its caller. *)
Lemma saveUserToCache_rethrows_quota :
  (saveUserToCache (Some (full [])) 1000 alice bob_jwk (lit "wrapped")).2
  = Some QuotaExceededError.
Proof. reflexivity. Qed.

(** The same after an eviction that did not help: bob's record is gone and
    the error still reaches the caller. *)
Example saveUserToCache_evicts_then_rethrows :
  let s := full [(buildKey bob, Doc (PUser bob bob_jwk (lit "w")) (Some 5%Z))] in
  saveUserToCache (Some s) 1000 alice bob_jwk (lit "wrapped")
  = (Some (full []), Some QuotaExceededError).
Proof. reflexivity. Qed.

Lemma removeItem_sublist s k : items (removeItem s k) `sublist_of` items s.
Proof. simpl. induction (items s) as [|kv l IH]; simpl; [constructor|].
       destruct (negb _); by constructor. Qed.

Lemma removeOldest_sublist s kts n : items (removeOldest s kts n) `sublist_of` items s.
Proof.
  revert s kts. induction n as [|n IH]; intros s [|kt kts]; simpl; try done.
  etrans; [apply IH|apply removeItem_sublist].
Qed.

(** C7, as the code has it.  [saveContactsToCache] and
    [saveMessagesToCache] catch whatever [setItem] throws, a
    quota-exceeded error included, also when evicting old message caches
    does not make room: they return normally; a refused contact write
    leaves the storage as it was, a refused message write adds nothing to
    it and leaves it as it was unless old message caches were evicted.
    [saveUserToCache] does nothing without a storage; it returns normally
    when the write goes through, and when the write exceeds the quota,
    user records exist and the retry after evicting the oldest of them
    goes through; in every other case (another error, no user record to
    evict, a retry that fails too) it throws the error of the first write
    at its caller, and the caller in Auth.tsx catches it. *)
Theorem cache_writes_under_quota
    (storage : option Storage) (now now' : Z) (username chat : jsstring)
    (contacts : list Contact) (msgs : list ChatMessage)
    (pubKey : JsonWebKey) (encryptedPrivKey : jsstring) :
  (saveContactsToCache storage now username contacts).2 = None
  /\ (saveMessagesToCache storage now now' chat msgs).2 = None
  /\ (forall s e, storage = Some s ->
        setItem s (CHATS_KEY_PREFIX ++ username) (Doc (PContacts contacts) (Some now))
        = Throw e ->
        (saveContactsToCache storage now username contacts).1 = Some s)
  /\ (forall s e, storage = Some s ->
        setItem s (MESSAGES_KEY_PREFIX ++ chat) (Doc (PMessages msgs) (Some now))
        = Throw e ->
        (exists s', (saveMessagesToCache storage now now' chat msgs).1 = Some s'
                    /\ (items s' `sublist_of` items s
                        \/ setItem (removeOldest s
                                      (Array_sort by_time (map (keyTime s) (messageKeys s)))
                                      (Nat.max 1 (length (messageKeys s) / 5)))
                             (MESSAGES_KEY_PREFIX ++ chat)
                             (Doc (PMessages msgs) (Some now')) = Ok s'))
        /\ (isQuotaExceeded e = false \/ (length (messageKeys s) <= 10)%nat ->
            (saveMessagesToCache storage now now' chat msgs).1 = Some s))
  /\ (forall e, (saveUserToCache storage now username pubKey encryptedPrivKey).2 = Some e ->
        exists s, storage = Some s
                  /\ setItem s (buildKey username)
                       (Doc (PUser username pubKey encryptedPrivKey) (Some now))
                     = Throw e)
  /\ (storage = None ->
      saveUserToCache storage now username pubKey encryptedPrivKey = (None, None))
  /\ (forall s, storage = Some s ->
        let record := Doc (PUser username pubKey encryptedPrivKey) (Some now) in
        let userKeys := List.filter (fun k => startsWith k STORAGE_KEY_PREFIX) (keys s) in
        let evicted := removeItem s (findOldest s userKeys (hd [] userKeys) None) in
        let saved := saveUserToCache storage now username pubKey encryptedPrivKey in
        (forall s', setItem s (buildKey username) record = Ok s' ->
           saved = (Some s', None))
        /\ (forall e s2,
              setItem s (buildKey username) record = Throw e ->
              isQuotaExceeded e = true -> userKeys <> [] ->
              setItem evicted (buildKey username) record = Ok s2 ->
              saved = (Some s2, None))
        /\ (forall e e2,
              setItem s (buildKey username) record = Throw e ->
              isQuotaExceeded e = true -> userKeys <> [] ->
              setItem evicted (buildKey username) record = Throw e2 ->
              saved = (Some evicted, Some e))
        /\ (forall e,
              setItem s (buildKey username) record = Throw e ->
              isQuotaExceeded e = false \/ userKeys = [] ->
              saved = (Some s, Some e)))
  /\ (Auth.cacheUser storage now username pubKey encryptedPrivKey).2 = None.
Proof.
  split; [|split; [|split; [|split; [|split; [|split; [|split]]]]]].
  - unfold saveContactsToCache. destruct storage as [s|]; [|done].
    by destruct (setItem _ _ _).
  - unfold saveMessagesToCache. destruct storage as [s|]; [|done].
    destruct (setItem s _ _) as [|e]; [done|].
    destruct (isQuotaExceeded e); [|done].
    destruct (10 <? _)%nat; [|done].
    by destruct (setItem _ _ _).
  - intros s e -> E. unfold saveContactsToCache. by rewrite E.
  - intros s e -> E. unfold saveMessagesToCache. rewrite E. fold (messageKeys s).
    split.
    + destruct (isQuotaExceeded e); [|by eexists; split; [done|left]].
      destruct (10 <? _)%nat; [|by eexists; split; [done|left]].
      assert (length (Array_sort by_time (map (keyTime s) (messageKeys s)))
              = length (messageKeys s)) as ->.
      { unfold by_time. by rewrite (Permutation_length (Array_sort_perm snd _)), length_map. }
      destruct (setItem (removeOldest _ _ _) _ _) as [s2|e2] eqn:E2; cbn [fst].
      * exists s2. split; [done|]. by right.
      * eexists. split; [done|]. left. apply removeOldest_sublist.
    + intros [Hq|Hlen].
      * by rewrite Hq.
      * destruct (isQuotaExceeded e); [|done].
        by rewrite (proj2 (Nat.ltb_ge _ _) Hlen).
  - intros e. unfold saveUserToCache. destruct storage as [s|]; [|done].
    destruct (setItem s _ _) as [|e0] eqn:E; [done|].
    destruct (isQuotaExceeded e0).
    + destruct (List.filter _ _) as [|k0 ks]; cbn [snd].
      * intros [= <-]. by exists s.
      * destruct (setItem (removeItem _ _) _ _); cbn [snd]; [done|].
        intros [= <-]. by exists s.
    + cbn [snd]. intros [= <-]. by exists s.
  - by intros ->.
  - intros s -> record userKeys evicted saved.
    unfold saved, saveUserToCache. fold record. fold userKeys.
    split; [|split; [|split]].
    + by intros s' ->.
    + intros e s2 -> -> Hkeys E2. destruct userKeys as [|k0 ks] eqn:Ek; [done|].
      unfold evicted in E2. cbn [hd] in E2. by rewrite E2.
    + intros e e2 -> -> Hkeys E2. destruct userKeys as [|k0 ks] eqn:Ek; [done|].
      unfold evicted in E2 |- *. cbn [hd] in E2 |- *. by rewrite E2.
    + intros e -> [-> | Hnone]; [done|].
      destruct (isQuotaExceeded e); [|done]. by rewrite Hnone.
  - unfold Auth.cacheUser. by destruct (saveUserToCache _ _ _ _ _).
Qed.

Lemma cache_writes_under_quota_witness :
  (saveContactsToCache (Some (full [])) 7 alice []).1 = Some (full [])
  /\ (saveMessagesToCache (Some (full [])) 7 8 (lit "alice:bob") [entry 1]).1
     = Some (full [])
  /\ saveUserToCache
       (Some (one_slot [(buildKey bob, Doc (PUser bob bob_jwk (lit "w")) (Some 5%Z))]))
       7 alice bob_jwk (lit "wrapped")
     = (Some (one_slot [(buildKey alice,
                         Doc (PUser alice bob_jwk (lit "wrapped")) (Some 7%Z))]),
        None)
  /\ saveUserToCache (Some (full [])) 7 alice bob_jwk (lit "wrapped")
     = (Some (full []), Some QuotaExceededError).
Proof.
  pose proof (cache_writes_under_quota (Some (full [])) 7 8 alice (lit "alice:bob")
                [] [entry 1] bob_jwk (lit "wrapped")) as (_ & _ & H1 & H2 & _ & _ & H4 & _).
  pose proof (cache_writes_under_quota
                (Some (one_slot [(buildKey bob, Doc (PUser bob bob_jwk (lit "w")) (Some 5%Z))]))
                7 8 alice (lit "alice:bob") [] [entry 1] bob_jwk (lit "wrapped"))
    as (_ & _ & _ & _ & _ & _ & H3 & _).
  split; [|split; [|split]].
  - apply (H1 (full []) QuotaExceededError); reflexivity.
  - destruct (H2 (full []) QuotaExceededError) as [_ H]; [reflexivity|reflexivity|].
    apply H. right. simpl. lia.
  - destruct (H3 _ eq_refl) as (_ & H & _).
    apply (H QuotaExceededError); [reflexivity|reflexivity|discriminate|reflexivity].
  - destruct (H4 _ eq_refl) as (_ & _ & _ & H).
    apply (H QuotaExceededError); [reflexivity|by right].
Defined.

End CacheWrites.

(** ** The sender's plaintext echo *)

Module PlaintextEcho.
Import MessageItem.

Lemma process_of_others {C : SubtleCrypto} getSharedKey currentUser partner msg :
  sender msg <> currentUser -> isFile msg = false ->
  process getSharedKey currentUser partner msg = decryptedOnly getSharedKey msg.
Proof.
  intros Hs Hf. unfold process, decryptedOnly.
  rewrite bool_decide_eq_false_2 by done. rewrite Hf. cbn [andb].
  reflexivity.
Qed.

Lemma process_ignores_echo {C : SubtleCrypto} getSharedKey currentUser partner msg t :
  sender msg <> currentUser ->
  process getSharedKey currentUser partner (with_echo msg t)
  = process getSharedKey currentUser partner msg.
Proof.
  intros Hs. unfold process. cbn [with_echo sender isFile ct iv ctFile ivFile text].
  rewrite bool_decide_eq_false_2 by done. reflexivity.
Qed.

(** C8.  The plaintext echo of a message is looked at only when its sender
    is the viewer.  For a message of anybody else the text shown is the
    decryption of the ciphertext with the shared key and nothing else, in
    [MessageItem] of Chat.tsx and in the callback of ChatWindow.tsx alike, so
    two runs that differ only in the echo of such a message show it the
    same. *)
Theorem echo_only_for_own_messages {C : SubtleCrypto}
    (getSharedKey : jsstring -> result CryptoKey)
    (currentUser partner : jsstring) (msg : ChatMessage) (echo : option jsstring)
    (k : CryptoKey) (wmsg : ChatWindow.Message) (wecho : option jsstring)
    (Hother : sender msg <> currentUser)
    (Hwother : ChatWindow.sender wmsg <> currentUser) :
  render getSharedKey currentUser partner (with_echo msg echo)
  = render getSharedKey currentUser partner msg
  /\ (isFile msg = false ->
      process getSharedKey currentUser partner msg = decryptedOnly getSharedKey msg)
  /\ ChatWindow.decryptedTextOf currentUser k (ChatWindow.with_text wmsg wecho)
     = ChatWindow.decryptedTextOf currentUser k wmsg
  /\ ChatWindow.decryptedTextOf currentUser k wmsg
     = (if ChatWindow.needs_decrypt wmsg then ChatWindow.decrypted k wmsg else [])
  /\ ChatWindow.with_text (ChatWindow.with_text wmsg wecho)
       (Some (ChatWindow.decryptedTextOf currentUser k (ChatWindow.with_text wmsg wecho)))
     = ChatWindow.with_text wmsg (Some (ChatWindow.decryptedTextOf currentUser k wmsg)).
Proof.
  assert (ChatWindow.decryptedTextOf currentUser k (ChatWindow.with_text wmsg wecho)
          = ChatWindow.decryptedTextOf currentUser k wmsg) as Hw.
  { unfold ChatWindow.decryptedTextOf, ChatWindow.needs_decrypt, ChatWindow.decrypted,
      ChatWindow.optimistic.
    cbn [ChatWindow.with_text ChatWindow.ct ChatWindow.iv ChatWindow.text ChatWindow.sender].
    destruct (_ && _); [done|].
    rewrite bool_decide_eq_false_2 by done.
    destruct wecho as [t|], (ChatWindow.text wmsg) as [t'|]; by rewrite ?andb_false_r. }
  split; [|split; [|split; [|split]]].
  - unfold render. rewrite process_ignores_echo by done. reflexivity.
  - intros Hf. by apply process_of_others.
  - exact Hw.
  - unfold ChatWindow.decryptedTextOf, ChatWindow.optimistic.
    destruct (ChatWindow.needs_decrypt wmsg); [done|].
    rewrite bool_decide_eq_false_2 by done.
    destruct (ChatWindow.text wmsg); by rewrite ?andb_false_r.
  - rewrite Hw. reflexivity.
Qed.

Lemma echo_only_for_own_messages_witness :
  render (C := ToyGcm.subtle) (fun _ => Ok []) Samples.alice Samples.bob
    (with_echo (Samples.entry 5) (Some (lit "forged")))
  = render (C := ToyGcm.subtle) (fun _ => Ok []) Samples.alice Samples.bob (Samples.entry 5).
Proof.
  apply (echo_only_for_own_messages (C := ToyGcm.subtle) (fun _ => Ok [])
           Samples.alice Samples.bob (Samples.entry 5) (Some (lit "forged")) []
           {| ChatWindow.id := lit "k"; ChatWindow.sender := Samples.bob;
              ChatWindow.ct := None; ChatWindow.iv := None;
              ChatWindow.timestamp := Millis 5; ChatWindow.text := None |} None);
    discriminate.
Defined.

(** The echo is what an own message shows. *)
Example own_echo_is_shown :
  process (C := ToyGcm.subtle) (fun _ => Ok []) Samples.bob Samples.alice
    (with_echo (Samples.entry 5) (Some (lit "hi")))
  = {| decryptedText := Some (lit "hi"); fileUrl := None |}.
Proof. reflexivity. Qed.

End PlaintextEcho.

(** ** Callbacks of a channel that was left *)

Module Teardown.
Import Samples.

Section WithEngine.
Context {Engine : SortEngine}.

(** ChatWindow.tsx: a callback suspended at [await] has no way to notice that
    the effect it belongs to was cleaned up.  Whatever chat the window shows
    by the time the decryption settles, the message goes into what is
    rendered. *)
Lemma settle_applies_whatever_is_shown {C : SubtleCrypto}
    (st : ChatWindow.WindowState) (n : nat) (t : ChatWindow.Task) :
  ChatWindow.awaiting st !! n = Some t ->
  ChatWindow.task_id t ∈ map fst
    (ChatWindow.Map_set (ChatWindow.task_id t)
       (ChatWindow.with_text (ChatWindow.task_msg t)
          (Some (ChatWindow.decrypted (ChatWindow.key (ChatWindow.task_listener t))
                   (ChatWindow.task_msg t))))
       (default [] (ChatWindow.heap st !! ChatWindow.map_ref (ChatWindow.task_listener t))))
  /\ ChatWindow.messages (ChatWindow.settle n st)
     = ChatWindow.sort_by_timestamp
         (ChatWindow.Map_values
            (ChatWindow.Map_set (ChatWindow.task_id t)
               (ChatWindow.with_text (ChatWindow.task_msg t)
                  (Some (ChatWindow.decrypted (ChatWindow.key (ChatWindow.task_listener t))
                           (ChatWindow.task_msg t))))
               (default [] (ChatWindow.heap st
                              !! ChatWindow.map_ref (ChatWindow.task_listener t))))).
Proof.
  intros Ht. split.
  - rewrite ChatWindowProofs.Map_set_keys.
    destruct (ChatWindow.Map_has _ _) eqn:E.
    + by apply ChatWindowProofs.Map_has_true.
    + apply elem_of_app. right. by apply list_elem_of_singleton.
  - unfold ChatWindow.settle. rewrite Ht. reflexivity.
Qed.

(** C6, the failing run in ChatWindow.tsx.  Alice has the chat with bob open.
    An entry of bob's arrives and its callback waits for the decryption.
    Alice selects carol: the effect is cleaned up and the listener now is
    the one of the chat with carol.  The decryption settles, and the list
    rendered for the chat with carol is bob's message. *)
Theorem stale_callback_reaches_new_channel :
  let arrived := ChatWindow.arrive (lit "alice:bob") hi_from_bob (lit "k1") window_with_bob in
  let switched := ChatWindow.selectContact (Some carol_contact) arrived in
  let settled := ChatWindow.settle 0 switched in
  ChatWindow.messages arrived = []
  /\ ChatWindow.contact switched = Some carol_contact
  /\ ChatWindow.chat <$> ChatWindow.listener switched = Some (lit "alice:carol")
  /\ ChatWindow.messages switched = []
  /\ ChatWindow.contact settled = Some carol_contact
  /\ map (fun m => (ChatWindow.id m, ChatWindow.sender m, ChatWindow.text m))
       (ChatWindow.messages settled)
     = [(lit "k1", bob, Some (lit "hi"))].
Proof. vm_compute. repeat split. Qed.

(** Without a suspended callback too the list of the chat that was left stays
    on screen: the effect of ChatWindow.tsx empties it only when no contact
    or no key is there. *)
Example old_messages_stay_on_screen :
  let shown := ChatWindow.settle 0
                 (ChatWindow.arrive (lit "alice:bob") hi_from_bob (lit "k1") window_with_bob) in
  let switched := ChatWindow.selectContact (Some carol_contact) shown in
  ChatWindow.contact switched = Some carol_contact
  /\ map ChatWindow.id (ChatWindow.messages switched) = [lit "k1"].
Proof. vm_compute. repeat split. Qed.

(** Chat.tsx: [handleMessage] compares nothing with the chat that is open.
    What keeps a callback of the old chat away is [off()] alone: once Gun
    runs the old closure after the switch, the entry is in the timeline of
    the new chat and in the cache of the old one. *)
Example late_callback_enters_new_chat :
  let switched := Chat.selectChat 5 alice_carol opened in
  let late := Chat.handleMessage (lit "alice:bob") (arrival 10 "k9") switched in
  Chat.currentChat late = Some alice_carol
  /\ map _key (Chat.messages late) = [Some (lit "k9")]
  /\ Chat.deliver (lit "alice:bob") (arrival 10 "k9") switched = switched.
Proof. vm_compute. repeat split. Qed.

(** Chat.tsx, by way of the cache: the effect that saves the timeline runs in
    the render that already has the new chat and still has the old
    messages, so bob's timeline is written under the key of the chat with
    carol; when that chat is opened again it is hydrated with bob's
    message. *)
Example old_timeline_saved_under_new_chat :
  let with_bob := Chat.feed (lit "alice:bob") [arrival 100 "k1"] opened in
  let with_carol := Chat.selectChat 5 alice_carol with_bob in
  let back := Chat.selectChat 9 alice_carol (Chat.selectChat 7 alice_bob with_carol) in
  Chat.messages with_carol = []
  /\ map _key <$> UserCache.loadMessagesFromCache (Chat.storage with_carol) (lit "alice:carol")
     = Some [Some (lit "k1")]
  /\ Chat.currentChat back = Some alice_carol
  /\ map (fun m => (_key m, sender m)) (Chat.messages back) = [(Some (lit "k1"), bob)].
Proof. vm_compute. repeat split. Qed.

End WithEngine.

End Teardown.

(** ** Encryption and decryption of messages *)

Module ToyGcmProofs.
Import ToyGcm.

Lemma bytes_eqb_refl bs : bytes_eqb bs bs = true.
Proof.
  induction bs as [|b bs IH]; simpl; [done|].
  unfold byte_eqb. by rewrite N.eqb_refl, IH.
Qed.

Lemma tag_length k iv p : length (tag k iv p) = 16%nat.
Proof. reflexivity. Qed.

(** The stand-in decrypts what it encrypted. *)
Lemma toy_correct : AesGcmCorrect subtle.
Proof.
  intros k iv p. cbn [subtle_decrypt subtle_encrypt subtle]. unfold decrypt, encrypt.
  rewrite length_app, tag_length.
  replace (length p + 16 - 16)%nat with (length p) by lia.
  rewrite take_app_length, drop_app_length, bytes_eqb_refl.
  by rewrite (proj2 (Nat.leb_le 16 (length p + 16))) by lia.
Qed.

End ToyGcmProofs.

Module CryptoProofs.
Import Crypto.

Section WithSubtle.
Context {C : SubtleCrypto}.

(** Decrypting what [encryptMessage] made: with a correct primitive the
    outcome is the text after one pass through [TextEncoder] and
    [TextDecoder]. *)
Lemma decrypt_encrypt_text (H : AesGcmCorrect C) (sharedKey : CryptoKey)
    (iv : list byte) (plaintext : jsstring) :
  let e := encryptMessage sharedKey iv plaintext in
  decryptMessage sharedKey (enc_ct e) (enc_iv e)
  = Ok (arrayBufferToText (textToArrayBuffer plaintext)).
Proof.
  unfold encryptMessage, decryptMessage. cbn [enc_ct enc_iv].
  rewrite !b64ToArrayBuffer_arrayBufferToB64.
  by rewrite decrypt_encrypt.
Qed.

(** [cryptoService.decryptMessage] is the function with every exception
    turned into [DecryptionFailure]. *)
Lemma service_decryptMessage sharedKey ct_b64 iv_b64 :
  CryptoService.decryptMessage sharedKey ct_b64 iv_b64
  = match decryptMessage sharedKey ct_b64 iv_b64 with
    | Ok t => Ok t
    | Throw _ => Throw CryptoService.DecryptionFailure
    end.
Proof. reflexivity. Qed.

End WithSubtle.

(** C1, as the code has it.  For every AES-GCM key, every nonce and every
    plaintext that is a well-formed string (no surrogate without its partner)
    and does not begin with U+FEFF, decrypting the [{ct, iv}] pair that
    [encryptMessage] made returns exactly the plaintext, with the exported
    function and with the method of [cryptoService]. *)
Theorem decrypt_encrypt_roundtrip {C : SubtleCrypto} (H : AesGcmCorrect C)
    (sharedKey : CryptoKey) (iv : list byte) (plaintext : jsstring)
    (Hwf : Encoding.well_formed plaintext = true)
    (Hbom : Encoding.starts_with_bom plaintext = false) :
  let e := encryptMessage sharedKey iv plaintext in
  decryptMessage sharedKey (enc_ct e) (enc_iv e) = Ok plaintext
  /\ CryptoService.decryptMessage sharedKey
       (enc_ct (CryptoService.encryptMessage sharedKey iv plaintext))
       (enc_iv (CryptoService.encryptMessage sharedKey iv plaintext)) = Ok plaintext.
Proof.
  intros e.
  assert (decryptMessage sharedKey (enc_ct e) (enc_iv e) = Ok plaintext) as E.
  { unfold e. rewrite decrypt_encrypt_text by done.
    unfold arrayBufferToText, textToArrayBuffer.
    by rewrite EncodingProofs.TextDecoder_TextEncoder. }
  split; [done|].
  rewrite service_decryptMessage. unfold CryptoService.encryptMessage. fold e.
  by rewrite E.
Qed.

Lemma decrypt_encrypt_roundtrip_witness :
  let e := encryptMessage (C := ToyGcm.subtle) Samples.toy_key Samples.toy_nonce (lit "hi") in
  decryptMessage (C := ToyGcm.subtle) Samples.toy_key (enc_ct e) (enc_iv e) = Ok (lit "hi").
Proof.
  apply (decrypt_encrypt_roundtrip (C := ToyGcm.subtle) ToyGcmProofs.toy_correct
           Samples.toy_key Samples.toy_nonce (lit "hi")); reflexivity.
Defined.

(** The claim for every string fails: a plaintext that begins with U+FEFF
    comes back without it, because [TextDecoder] drops a byte order mark. *)
Lemma byte_order_mark_is_lost :
  let plaintext := 0xFEFF :: lit "hi" in
  let e := CryptoService.encryptMessage (C := ToyGcm.subtle)
             Samples.toy_key Samples.toy_nonce plaintext in
  CryptoService.decryptMessage (C := ToyGcm.subtle) Samples.toy_key (enc_ct e) (enc_iv e)
  = Ok (lit "hi")
  /\ lit "hi" <> plaintext.
Proof. split; [vm_compute; reflexivity | discriminate]. Qed.

(** The same with any correct primitive in place of the stand-in. *)
Lemma byte_order_mark_is_lost_always {C : SubtleCrypto} (H : AesGcmCorrect C)
    (sharedKey : CryptoKey) (iv : list byte) :
  let e := encryptMessage sharedKey iv (0xFEFF :: lit "hi") in
  decryptMessage sharedKey (enc_ct e) (enc_iv e) = Ok (lit "hi").
Proof. intros e. unfold e. by rewrite decrypt_encrypt_text. Qed.

(** A surrogate without its partner comes back as U+FFFD. *)
Example lone_surrogate_is_replaced {C : SubtleCrypto} (H : AesGcmCorrect C)
    (sharedKey : CryptoKey) (iv : list byte) :
  let e := encryptMessage sharedKey iv [0xD83D] in
  decryptMessage sharedKey (enc_ct e) (enc_iv e) = Ok [0xFFFD].
Proof. intros e. unfold e. by rewrite decrypt_encrypt_text. Qed.

(** *** Tampering *)


(** The same for any primitive, whenever the length of the ciphertext leaves
    1 modulo 3 (with the sixteen bytes AES-GCM adds: whenever the length of
    the encoded plaintext is a multiple of 3). *)
Lemma flipped_bit_goes_unnoticed_always {C : SubtleCrypto}
    (sharedKey : CryptoKey) (iv : list byte) (plaintext : jsstring) :
  (length (subtle_encrypt sharedKey iv (textToArrayBuffer plaintext)) mod 3 = 1)%nat ->
  exists i bit,
    let e := encryptMessage sharedKey iv plaintext in
    flip_bit i bit (enc_ct e) <> enc_ct e
    /\ decryptMessage sharedKey (flip_bit i bit (enc_ct e)) (enc_iv e)
       = decryptMessage sharedKey (enc_ct e) (enc_iv e).
Proof.
  intros Hlen.
  destruct (arrayBufferToB64_malleable _ Hlen) as (i & bit & Hne & Hdec).
  exists i, bit. cbn [encryptMessage enc_ct enc_iv]. split; [exact Hne|].
  unfold decryptMessage. by rewrite Hdec, !b64ToArrayBuffer_arrayBufferToB64.
Qed.

Section Tampering.
Context {C : SubtleCrypto}.





End Tampering.




(** Every single flipped bit of the nonce text and of the ciphertext text of
    "hi" makes the stand-in primitive fail: "hi" gives eighteen bytes of
    ciphertext, whose base64 text has no idle bits. *)
Example every_flip_of_hi_fails :
  let e := encryptMessage (C := ToyGcm.subtle) Samples.toy_key Samples.toy_nonce (lit "hi") in
  forallb (fun i =>
    forallb (fun bit =>
      match CryptoService.decryptMessage (C := ToyGcm.subtle) Samples.toy_key
              (flip_bit i bit (enc_ct e)) (enc_iv e) with
      | Throw _ => true
      | Ok _ => false
      end) [0; 1; 2; 3; 4; 5; 6; 7; 8; 9; 10; 11; 12; 13; 14; 15])
    (seq 0 (length (enc_ct e)))
  = true.
Proof. vm_compute. reflexivity. Qed.

(** Of the 28 characters of the ciphertext text of "hey" one bit is idle:
    bit 3 of character 25. *)
Example the_idle_flip_of_hey :
  let genuine := subtle_encrypt (SubtleCrypto := ToyGcm.subtle) Samples.toy_key
                   Samples.toy_nonce (textToArrayBuffer (lit "hey")) in
  length (arrayBufferToB64 genuine) = 28%nat
  /\ List.filter (fun flip => Tamper.idle_flip genuine flip.1 flip.2)
       (list_prod (seq 0 28) [0; 1; 2; 3; 4; 5; 6; 7; 8; 9; 10; 11; 12; 13; 14; 15])
     = [(25%nat, 3)].
Proof. split; vm_compute; reflexivity. Qed.

End CryptoProofs.
(** ** The cache read back *)

Module CacheAccessProofs.
Import UserCache CacheAccess.

Lemma key_eqb_eq a b : key_eqb a b = true <-> a = b.
Proof. unfold key_eqb. by rewrite bool_decide_eq_true. Qed.

Lemma key_eqb_refl a : key_eqb a a = true.
Proof. by apply key_eqb_eq. Qed.

Lemma key_eqb_neq a b : a <> b -> key_eqb a b = false.
Proof. intros H. unfold key_eqb. by rewrite bool_decide_eq_false. Qed.

Lemma lookup_upsert k v l : lookup_item k (upsert k v l) = Some v.
Proof.
  induction l as [|[k' v'] l IH]; simpl.
  - by rewrite key_eqb_refl.
  - destruct (key_eqb k k') eqn:E; simpl; [by rewrite key_eqb_refl|by rewrite E].
Qed.

Lemma lookup_upsert_ne k k' v l :
  k' <> k -> lookup_item k' (upsert k v l) = lookup_item k' l.
Proof.
  intros Hne. induction l as [|[k0 v0] l IH]; simpl.
  - by rewrite key_eqb_neq.
  - destruct (key_eqb k k0) eqn:E; simpl.
    + apply key_eqb_eq in E as <-. by rewrite key_eqb_neq.
    + by rewrite IH.
Qed.

Lemma getItem_removeItem s k : getItem (removeItem s k) k = None.
Proof.
  unfold getItem, removeItem. simpl.
  induction (items s) as [|[k0 v0] l IH]; simpl; [done|].
  destruct (key_eqb k k0) eqn:E; simpl; [done|].
  by rewrite E.
Qed.

Lemma getItem_removeItem_ne s k k' :
  k' <> k -> getItem (removeItem s k) k' = getItem s k'.
Proof.
  intros Hne. unfold getItem, removeItem. simpl.
  induction (items s) as [|[k0 v0] l IH]; simpl; [done|].
  destruct (key_eqb k k0) eqn:E; simpl.
  - apply key_eqb_eq in E as <-. by rewrite key_eqb_neq.
  - by rewrite IH.
Qed.

Lemma getItem_setItem s k v s' : setItem s k v = Ok s' -> getItem s' k = Some v.
Proof.
  unfold setItem. destruct (refuses s _ _ _); [done|]. intros [= <-].
  apply lookup_upsert.
Qed.

Lemma getItem_setItem_ne s k v s' k' :
  setItem s k v = Ok s' -> k' <> k -> getItem s' k' = getItem s k'.
Proof.
  unfold setItem. destruct (refuses s _ _ _); [done|]. intros [= <-] Hne.
  by apply lookup_upsert_ne.
Qed.

(** A key that is stored is one of [Object.keys]. *)
Lemma getItem_keys s k v : getItem s k = Some v -> k ∈ keys s.
Proof.
  unfold getItem, keys. induction (items s) as [|[k0 v0] l IH]; simpl; [done|].
  destruct (key_eqb k k0) eqn:E.
  - apply key_eqb_eq in E as ->. intros _. left.
  - intros H. right. by apply IH.
Qed.

Lemma keys_getItem s k : k ∈ keys s -> is_Some (getItem s k).
Proof.
  unfold getItem, keys. induction (items s) as [|[k0 v0] l IH]; simpl.
  - by intros ?%elem_of_nil.
  - intros [->|H]%elem_of_cons; [by rewrite key_eqb_refl|].
    destruct (key_eqb k k0); [done|]. by apply IH.
Qed.

(** The three kinds of keys do not overlap. *)
Lemma startsWith_app k prefix : startsWith (prefix ++ k) prefix = true.
Proof. induction prefix as [|c p IH]; simpl; [by destruct k|]. by rewrite N.eqb_refl. Qed.

Lemma user_key_kind u : startsWith (buildKey u) STORAGE_KEY_PREFIX = true.
Proof. apply startsWith_app. Qed.

Lemma chats_key_kind u :
  startsWith (CHATS_KEY_PREFIX ++ u) STORAGE_KEY_PREFIX = false
  /\ startsWith (CHATS_KEY_PREFIX ++ u) MESSAGES_KEY_PREFIX = false.
Proof. done. Qed.

Lemma messages_key_kind c :
  startsWith (MESSAGES_KEY_PREFIX ++ c) STORAGE_KEY_PREFIX = false
  /\ startsWith (MESSAGES_KEY_PREFIX ++ c) CHATS_KEY_PREFIX = false.
Proof. done. Qed.

Lemma user_key_other_kinds u :
  startsWith (buildKey u) MESSAGES_KEY_PREFIX = false
  /\ startsWith (buildKey u) CHATS_KEY_PREFIX = false.
Proof. done. Qed.

Lemma read_Some s k : read (Some s) k = getItem s k.
Proof. done. Qed.

(** What the loop of [saveUserToCache] returns: a key it was given, and
    one whose [updatedAt] no other numeric [updatedAt] is below. *)
Lemma findOldest_spec s ks k0 ot :
  (forall t0, ot = Some t0 -> updatedAtOf s k0 = Some t0) ->
  let r := findOldest s ks k0 ot in
  (r = k0 \/ r ∈ ks)
  /\ (forall k t, k ∈ ks -> updatedAtOf s k = Some t ->
        exists tr, updatedAtOf s r = Some tr /\ (tr <= t)%Z)
  /\ (forall t0, ot = Some t0 -> exists tr, updatedAtOf s r = Some tr /\ (tr <= t0)%Z).
Proof.
  revert k0 ot. induction ks as [|key rest IH]; intros k0 ot Hot; cbn zeta.
  { cbn [findOldest]. split; [by left|]. split.
    - by intros k t ?%elem_of_nil.
    - intros t0 E. exists t0. split; [by apply Hot|lia]. }
  cbn [findOldest].
  assert (forall k1 ot1,
    (forall t0, ot1 = Some t0 -> updatedAtOf s k1 = Some t0) ->
    (k1 = k0 \/ k1 = key) ->
    (forall t, updatedAtOf s key = Some t ->
       exists t1, ot1 = Some t1 /\ (t1 <= t)%Z) ->
    (forall t0, ot = Some t0 -> exists t1, ot1 = Some t1 /\ (t1 <= t0)%Z) ->
    let r := findOldest s rest k1 ot1 in
    (r = k0 \/ r ∈ key :: rest)
    /\ (forall k t, k ∈ key :: rest -> updatedAtOf s k = Some t ->
          exists tr, updatedAtOf s r = Some tr /\ (tr <= t)%Z)
    /\ (forall t0, ot = Some t0 -> exists tr, updatedAtOf s r = Some tr /\ (tr <= t0)%Z))
    as Hstep.
  { intros k1 ot1 H1 Hk1 Hkey Hprev. cbn zeta.
    destruct (IH k1 ot1 H1) as (Hr & Hall & Hacc). split; [|split].
    - destruct Hr as [->|Hr]; [|right; by right].
      destruct Hk1 as [->| ->]; [by left|right; left].
    - intros k t [->|Hin]%elem_of_cons Hk.
      + destruct (Hkey t Hk) as (t1 & E1 & Hle).
        destruct (Hacc t1 E1) as (tr & Etr & Hle'). exists tr. split; [done|lia].
      + exact (Hall k t Hin Hk).
    - intros t0 E0. destruct (Hprev t0 E0) as (t1 & E1 & Hle).
      destruct (Hacc t1 E1) as (tr & Etr & Hle'). exists tr. split; [done|lia]. }
  unfold updatedAtOf in Hstep at 2.
  destruct (getItem s key) as [[payload [t|]|]|] eqn:Eg.
  - destruct ot as [t0|].
    + destruct (Z.ltb_spec t t0) as [Hlt|Hge].
      * apply Hstep.
        -- intros t1 [= <-]. unfold updatedAtOf. by rewrite Eg.
        -- by right.
        -- intros t1 [= <-]. exists t. split; [done|lia].
        -- intros t1 [= <-]. exists t. split; [done|lia].
      * apply Hstep.
        -- exact Hot.
        -- by left.
        -- intros t1 [= <-]. exists t0. split; [done|lia].
        -- intros t1 [= <-]. exists t0. split; [done|lia].
    + apply Hstep.
      * intros t1 [= <-]. unfold updatedAtOf. by rewrite Eg.
      * by right.
      * intros t1 [= <-]. exists t. split; [done|lia].
      * done.
  - apply Hstep; [exact Hot|by left|done|].
    intros t0 E0. exists t0. split; [done|lia].
  - apply Hstep; [exact Hot|by left|done|].
    intros t0 E0. exists t0. split; [done|lia].
  - apply Hstep; [exact Hot|by left|done|].
    intros t0 E0. exists t0. split; [done|lia].
Qed.

Lemma userKeys_kind s k : k ∈ userKeys s -> startsWith k STORAGE_KEY_PREFIX = true.
Proof. unfold userKeys. rewrite list_elem_of_In, List.filter_In. tauto. Qed.

Lemma messageKeys_kind s k : k ∈ messageKeys s -> startsWith k MESSAGES_KEY_PREFIX = true.
Proof. unfold messageKeys. rewrite list_elem_of_In, List.filter_In. tauto. Qed.

Lemma messageKeys_keys s k : k ∈ messageKeys s -> k ∈ keys s.
Proof. unfold messageKeys. rewrite !list_elem_of_In, List.filter_In. tauto. Qed.

Lemma keyTime_fst s k : (keyTime s k).1 = k.
Proof. unfold keyTime. by destruct (getItem s k) as [[? [?|]|]|]. Qed.

(** [removeOldest] removes the keys of the first [n] entries and nothing
    else. *)
Lemma getItem_removeOldest s kts n k :
  getItem (removeOldest s kts n) k
  = if bool_decide (k ∈ (take n kts).*1) then None else getItem s k.
Proof.
  revert s kts. induction n as [|n IH]; intros s [|kt kts]; cbn [removeOldest take fmap list_fmap].
  - rewrite bool_decide_eq_false_2; [done|]. by intros ?%elem_of_nil.
  - rewrite bool_decide_eq_false_2; [done|]. by intros ?%elem_of_nil.
  - rewrite bool_decide_eq_false_2; [done|]. by intros ?%elem_of_nil.
  - rewrite IH. destruct (decide (k = kt.1)) as [->|Hne].
    + rewrite getItem_removeItem.
      rewrite (bool_decide_eq_true_2 (kt.1 ∈ kt.1 :: _)) by left.
      by destruct (bool_decide _).
    + rewrite getItem_removeItem_ne by done.
      apply (f_equal (fun b : bool => if b then None else getItem s k)).
      apply bool_decide_ext. rewrite elem_of_cons. tauto.
Qed.

(** In a list sorted by a key, what stands in front is not above what
    stands behind. *)
Lemma sorted_take_drop {A} (key : A -> Z) (l : list A) n a b :
  StronglySorted (key_leP key) l -> a ∈ take n l -> b ∈ drop n l ->
  (key a <= key b)%Z.
Proof.
  intros Hs. revert n. induction Hs as [|x l Hl IH Hx]; intros n Ha Hb.
  - rewrite take_nil in Ha. by apply elem_of_nil in Ha.
  - destruct n as [|n]; [by apply elem_of_nil in Ha|].
    cbn [take drop] in Ha, Hb. apply elem_of_cons in Ha as [->|Ha].
    + rewrite List.Forall_forall in Hx. apply Hx.
      apply list_elem_of_lookup in Hb as [i Hi]. rewrite lookup_drop in Hi.
      apply list_elem_of_In. by eapply list_elem_of_lookup_2.
    + by apply (IH n).
Qed.

End CacheAccessProofs.
(** ** What is written to the cache is read back, and only that is touched *)

Module CacheLaws.
Import UserCache CacheAccess CacheAccessProofs Samples.

(** X1 (userCache.ts, [saveUserToCache] and [loadUserFromCache]).  When
    [saveUserToCache] returns without throwing, [loadUserFromCache] of the
    same name returns the public key and the wrapped private key that were
    saved, whether the first write went through or the retry after an
    eviction did; a record saved with an empty wrapped key is not read
    back. *)
Theorem saveUserToCache_loadUserFromCache
    (s : Storage) (now : Z) (username : jsstring) (pk : JsonWebKey)
    (epk : jsstring) (after : option Storage) :
  saveUserToCache (Some s) now username pk epk = (after, None) ->
  loadUserFromCache after username
  = if truthy epk then Some {| pubKey := pk; encryptedPrivKey := epk |} else None.
Proof.
  unfold saveUserToCache.
  assert (forall s0 s1,
    setItem s0 (buildKey username) (Doc (PUser username pk epk) (Some now)) = Ok s1 ->
    loadUserFromCache (Some s1) username
    = if truthy epk then Some {| pubKey := pk; encryptedPrivKey := epk |} else None)
    as Hset.
  { intros s0 s1 E. unfold loadUserFromCache. by rewrite (getItem_setItem _ _ _ _ E). }
  destruct (setItem s _ _) as [s1|e] eqn:E1.
  { intros [= <-]. by apply (Hset s). }
  destruct (isQuotaExceeded e); [|done].
  destruct (List.filter _ _) as [|k0 ks]; [done|].
  destruct (setItem (removeItem _ _) _ _) as [s2|e2] eqn:E2; [|done].
  intros [= <-]. by apply (Hset _ _ E2).
Qed.

Lemma saveUserToCache_loadUserFromCache_witness :
  loadUserFromCache (saveUserToCache (Some roomy) 1000 alice bob_jwk (lit "wrapped")).1 alice
  = Some {| pubKey := bob_jwk; encryptedPrivKey := lit "wrapped" |}.
Proof.
  apply (saveUserToCache_loadUserFromCache roomy 1000 alice bob_jwk (lit "wrapped")).
  reflexivity.
Defined.

(** X2 (userCache.ts, [saveContactsToCache] and [loadContactsFromCache]).
    A contact list the storage accepts is read back as it was written, the
    empty list included; whether the write is accepted or not, no other key
    of the storage changes, so the contacts of every other user, the user
    records and the message caches read as before. *)
Theorem saveContactsToCache_loadContactsFromCache
    (s : Storage) (now : Z) (username : jsstring) (contacts : list Contact) :
  let after := (saveContactsToCache (Some s) now username contacts).1 in
  (refuses s (items s) (CHATS_KEY_PREFIX ++ username) (Doc (PContacts contacts) (Some now))
   = None ->
   loadContactsFromCache after username = Some contacts)
  /\ (forall k, k <> CHATS_KEY_PREFIX ++ username -> read after k = read (Some s) k)
  /\ (forall other, other <> username ->
        loadContactsFromCache after other = loadContactsFromCache (Some s) other)
  /\ (forall name, loadUserFromCache after name = loadUserFromCache (Some s) name)
  /\ (forall chat, loadMessagesFromCache after chat = loadMessagesFromCache (Some s) chat).
Proof.
  intros after.
  assert (forall k, k <> CHATS_KEY_PREFIX ++ username -> read after k = read (Some s) k)
    as Hother.
  { intros k Hk. unfold after, saveContactsToCache.
    destruct (setItem s _ _) as [s1|e] eqn:E; cbn [fst]; [|done].
    rewrite !read_Some. by apply (getItem_setItem_ne _ _ _ _ _ E). }
  assert (exists s1, after = Some s1) as [s1 Es1].
  { unfold after, saveContactsToCache. destruct (setItem s _ _); by eexists. }
  split; [|split; [exact Hother|split; [|split]]].
  - intros Hacc. unfold after, saveContactsToCache, setItem. rewrite Hacc. cbn [fst].
    unfold loadContactsFromCache, getItem. cbn [items]. by rewrite lookup_upsert.
  - intros other Hne. specialize (Hother (CHATS_KEY_PREFIX ++ other)).
    rewrite Es1 in *. unfold loadContactsFromCache. rewrite !read_Some in Hother.
    rewrite Hother; [done|]. intros E. by apply app_inv_head in E.
  - intros name. specialize (Hother (buildKey name)).
    rewrite Es1 in *. unfold loadUserFromCache. rewrite !read_Some in Hother.
    rewrite Hother; [done|].
    intros E. pose proof (user_key_kind name) as Hk. rewrite E in Hk.
    by rewrite (proj1 (chats_key_kind username)) in Hk.
  - intros chat. specialize (Hother (MESSAGES_KEY_PREFIX ++ chat)).
    rewrite Es1 in *. unfold loadMessagesFromCache. rewrite !read_Some in Hother.
    rewrite Hother; [done|].
    intros E. pose proof (startsWith_app chat MESSAGES_KEY_PREFIX) as Hk. rewrite E in Hk.
    by rewrite (proj2 (chats_key_kind username)) in Hk.
Qed.

Lemma saveContactsToCache_loadContactsFromCache_witness :
  loadContactsFromCache (saveContactsToCache (Some roomy) 7 alice [bob_contact]).1 alice
  = Some [bob_contact].
Proof.
  apply (saveContactsToCache_loadContactsFromCache roomy 7 alice [bob_contact]).
  reflexivity.
Defined.

(** X3 (userCache.ts, [saveMessagesToCache] and [loadMessagesFromCache]).
    A timeline the storage accepts at the first write is read back as it
    was written and no other key changes.  In every case, eviction
    included, the keys that are no message caches read as before (user
    records and contacts are never evicted for messages), and the cache of
    the chat reads as the new timeline, as it did before, or as absent:
    never as another list. *)
Theorem saveMessagesToCache_loadMessagesFromCache
    (s : Storage) (now now' : Z) (chatId : jsstring) (msgs : list ChatMessage) :
  let cacheKey := MESSAGES_KEY_PREFIX ++ chatId in
  let after := (saveMessagesToCache (Some s) now now' chatId msgs).1 in
  (refuses s (items s) cacheKey (Doc (PMessages msgs) (Some now)) = None ->
   loadMessagesFromCache after chatId = Some msgs
   /\ forall k, k <> cacheKey -> read after k = read (Some s) k)
  /\ (forall k, startsWith k MESSAGES_KEY_PREFIX = false -> read after k = read (Some s) k)
  /\ (forall name, loadUserFromCache after name = loadUserFromCache (Some s) name)
  /\ (forall name, loadContactsFromCache after name = loadContactsFromCache (Some s) name)
  /\ (loadMessagesFromCache after chatId = Some msgs
      \/ loadMessagesFromCache after chatId = loadMessagesFromCache (Some s) chatId
      \/ loadMessagesFromCache after chatId = None).
Proof.
  intros cacheKey after.
  set (kts := Array_sort by_time (map (keyTime s) (messageKeys s))).
  set (n := Nat.max 1 (length kts / 5)).
  assert (forall k, k ∈ (take n kts).*1 -> startsWith k MESSAGES_KEY_PREFIX = true) as Hkind.
  { intros k (kt & -> & Hin)%list_elem_of_fmap.
    apply elem_of_take in Hin as (i & Hi & _). apply list_elem_of_lookup_2 in Hi.
    apply list_elem_of_In in Hi.
    apply (Permutation_in _ (Array_sort_perm snd (map (keyTime s) (messageKeys s)))) in Hi.
    apply in_map_iff in Hi as (k & <- & Hk). apply list_elem_of_In in Hk.
    rewrite keyTime_fst. by apply (messageKeys_kind s). }
  (* the storage afterwards: with the write, as it was, or after the eviction *)
  assert ((exists s1, setItem s cacheKey (Doc (PMessages msgs) (Some now)) = Ok s1
                      /\ after = Some s1)
          \/ (refuses s (items s) cacheKey (Doc (PMessages msgs) (Some now)) <> None
              /\ (after = Some s
                  \/ after = Some (removeOldest s kts n)
                  \/ exists s2, setItem (removeOldest s kts n) cacheKey
                                  (Doc (PMessages msgs) (Some now')) = Ok s2
                                /\ after = Some s2))) as Hafter.
  { unfold after, saveMessagesToCache. fold cacheKey (messageKeys s) kts n.
    destruct (setItem s cacheKey _) as [s1|e] eqn:E1; cbn [fst].
    { left. by exists s1. }
    right. split.
    { unfold setItem in E1. by destruct (refuses s _ _ _). }
    destruct (isQuotaExceeded e); [|by left].
    destruct (10 <? _)%nat; [|by left].
    destruct (setItem (removeOldest s kts n) cacheKey _) as [s2|e2] eqn:E2; cbn [fst].
    - right. right. by exists s2.
    - right. by left. }
  assert (forall k, k ∉ (take n kts).*1 -> getItem (removeOldest s kts n) k = getItem s k)
    as Hrem.
  { intros k Hk. rewrite getItem_removeOldest. by rewrite bool_decide_eq_false_2. }
  assert (forall k, startsWith k MESSAGES_KEY_PREFIX = false -> read after k = read (Some s) k)
    as Hother.
  { intros k Hk.
    assert (k <> cacheKey) as Hne.
    { intros ->. unfold cacheKey in Hk. by rewrite startsWith_app in Hk. }
    assert (k ∉ (take n kts).*1) as Hout.
    { intros Hin. apply Hkind in Hin. congruence. }
    destruct Hafter as [(s1 & E1 & ->)|[_ [->|[->|(s2 & E2 & ->)]]]]; rewrite ?read_Some.
    - by apply (getItem_setItem_ne _ _ _ _ _ E1).
    - done.
    - by apply Hrem.
    - rewrite (getItem_setItem_ne _ _ _ _ _ E2) by done. by apply Hrem. }
  split; [|split; [exact Hother|split; [|split]]].
  - intros Hacc. destruct Hafter as [(s1 & E1 & ->)|[Href _]]; [|done].
    split.
    + unfold loadMessagesFromCache. fold cacheKey. by rewrite (getItem_setItem _ _ _ _ E1).
    + intros k Hk. rewrite !read_Some. by apply (getItem_setItem_ne _ _ _ _ _ E1).
  - intros name.
    assert (exists s', after = Some s') as [s' Es'].
    { destruct Hafter as [(s1 & _ & ->)|[_ [->|[->|(s2 & _ & ->)]]]]; by eexists. }
    specialize (Hother (buildKey name) (proj1 (user_key_other_kinds name))).
    rewrite Es' in *. unfold loadUserFromCache. rewrite !read_Some in Hother.
    by rewrite Hother.
  - intros name.
    assert (exists s', after = Some s') as [s' Es'].
    { destruct Hafter as [(s1 & _ & ->)|[_ [->|[->|(s2 & _ & ->)]]]]; by eexists. }
    specialize (Hother (CHATS_KEY_PREFIX ++ name) (proj2 (chats_key_kind name))).
    rewrite Es' in *. unfold loadContactsFromCache. rewrite !read_Some in Hother.
    by rewrite Hother.
  - destruct Hafter as [(s1 & E1 & ->)|[_ [->|[->|(s2 & E2 & ->)]]]].
    + left. unfold loadMessagesFromCache. fold cacheKey.
      by rewrite (getItem_setItem _ _ _ _ E1).
    + right. by left.
    + right. unfold loadMessagesFromCache. fold cacheKey.
      rewrite getItem_removeOldest. destruct (bool_decide _); [by right|by left].
    + left. unfold loadMessagesFromCache. fold cacheKey.
      by rewrite (getItem_setItem _ _ _ _ E2).
Qed.

Lemma saveMessagesToCache_loadMessagesFromCache_witness :
  loadMessagesFromCache
    (saveMessagesToCache (Some roomy) 7 8 (lit "alice:bob") [entry 1; entry 2]).1
    (lit "alice:bob")
  = Some [entry 1; entry 2].
Proof.
  apply (saveMessagesToCache_loadMessagesFromCache roomy 7 8 (lit "alice:bob")
           [entry 1; entry 2]).
  reflexivity.
Defined.

(** X4 (userCache.ts, [saveUserToCache], the branch for
    [QuotaExceededError]).  Whatever happens, keys that are no user records
    read as before: contacts and message caches are never evicted for a
    user record.  A write that is accepted changes no other key.  When the
    first write exceeds the quota and user records exist, exactly one key
    is evicted: a user record whose [updatedAt] no numeric [updatedAt] of
    another user record is below; all other keys but the one written read
    as before. *)
Theorem saveUserToCache_evicts_oldest_user
    (s : Storage) (now : Z) (username : jsstring) (pk : JsonWebKey) (epk : jsstring) :
  let record := Doc (PUser username pk epk) (Some now) in
  let after := (saveUserToCache (Some s) now username pk epk).1 in
  (forall k, startsWith k STORAGE_KEY_PREFIX = false -> read after k = read (Some s) k)
  /\ (refuses s (items s) (buildKey username) record = None ->
      forall k, k <> buildKey username -> read after k = read (Some s) k)
  /\ (refuses s (items s) (buildKey username) record = Some QuotaExceededError ->
      userKeys s <> [] ->
      exists evicted,
        evicted ∈ userKeys s
        /\ (forall k t, k ∈ userKeys s -> updatedAtOf s k = Some t ->
              exists t0, updatedAtOf s evicted = Some t0 /\ (t0 <= t)%Z)
        /\ (forall k, k <> evicted -> k <> buildKey username ->
              read after k = read (Some s) k)
        /\ (evicted <> buildKey username -> read after evicted = None)).
Proof.
  intros record after.
  assert (refuses s (items s) (buildKey username) record = Some QuotaExceededError ->
          userKeys s <> [] ->
          exists evicted,
            evicted ∈ userKeys s
            /\ (forall k t, k ∈ userKeys s -> updatedAtOf s k = Some t ->
                  exists t0, updatedAtOf s evicted = Some t0 /\ (t0 <= t)%Z)
            /\ (forall k, k <> evicted -> k <> buildKey username ->
                  read after k = read (Some s) k)
            /\ (evicted <> buildKey username -> read after evicted = None)) as Hevict.
  { intros Href Hkeys. unfold after, saveUserToCache. fold record.
    replace (setItem s (buildKey username) record)
      with (Throw QuotaExceededError : result Storage)
      by (unfold setItem; by rewrite Href).
    cbn [isQuotaExceeded]. fold (userKeys s).
    destruct (userKeys s) as [|k0 ks] eqn:Eks; [done|].
    destruct (findOldest_spec s (k0 :: ks) k0 None) as (Hr & Hmin & _); [done|].
    set (evicted := findOldest s (k0 :: ks) k0 None) in *.
    exists evicted. split; [|split; [exact Hmin|]].
    { destruct Hr as [->|Hr]; [left|exact Hr]. }
    destruct (setItem (removeItem s evicted) _ _) as [s2|e2] eqn:E2; cbn [fst].
    - split.
      + intros k Hk Hk'. rewrite !read_Some.
        rewrite (getItem_setItem_ne _ _ _ _ _ E2) by done.
        by apply getItem_removeItem_ne.
      + intros Hne. rewrite read_Some.
        rewrite (getItem_setItem_ne _ _ _ _ _ E2) by done.
        apply getItem_removeItem.
    - split.
      + intros k Hk _. rewrite !read_Some. by apply getItem_removeItem_ne.
      + intros _. rewrite read_Some. apply getItem_removeItem. }
  split; [|split; [|exact Hevict]].
  - intros k Hk.
    assert (k <> buildKey username) as Hne.
    { intros ->. by rewrite user_key_kind in Hk. }
    unfold after, saveUserToCache. fold record.
    destruct (setItem s _ _) as [s1|e] eqn:E1; cbn [fst].
    { rewrite !read_Some. by apply (getItem_setItem_ne _ _ _ _ _ E1). }
    destruct (isQuotaExceeded e); [|done]. fold (userKeys s).
    destruct (userKeys s) as [|k0 ks] eqn:Eks; [done|].
    destruct (findOldest_spec s (k0 :: ks) k0 None) as (Hr & _ & _); [done|].
    set (evicted := findOldest s (k0 :: ks) k0 None) in *.
    assert (k <> evicted) as Hne'.
    { intros ->. assert (evicted ∈ userKeys s) as Hin.
      { rewrite Eks. destruct Hr as [->|Hr]; [left|exact Hr]. }
      apply userKeys_kind in Hin. congruence. }
    destruct (setItem (removeItem s evicted) _ _) as [s2|e2] eqn:E2; cbn [fst];
      rewrite !read_Some.
    + rewrite (getItem_setItem_ne _ _ _ _ _ E2) by done. by apply getItem_removeItem_ne.
    + by apply getItem_removeItem_ne.
  - intros Hacc k Hk. unfold after, saveUserToCache, setItem. fold record.
    rewrite Hacc. cbn [fst]. rewrite !read_Some. unfold getItem. cbn [items].
    by apply lookup_upsert_ne.
Qed.

(** Two user records in a full storage, alice's the older. *)
Lemma saveUserToCache_evicts_oldest_user_witness :
  let s := full [(buildKey bob, Doc (PUser bob bob_jwk (lit "w")) (Some 50%Z));
                 (buildKey alice, Doc (PUser alice bob_jwk (lit "w")) (Some 20%Z))] in
  exists evicted,
    evicted ∈ userKeys s
    /\ read (saveUserToCache (Some s) 1000 carol bob_jwk (lit "w")).1 evicted = None.
Proof.
  intros s.
  destruct (saveUserToCache_evicts_oldest_user s 1000 carol bob_jwk (lit "w"))
    as (_ & _ & H).
  destruct H as (evicted & Hin & _ & _ & Hgone); [reflexivity|discriminate|].
  exists evicted. split; [exact Hin|]. apply Hgone.
  intros ->. revert Hin. vm_compute. intros Hin.
  repeat (apply elem_of_cons in Hin as [Hin|Hin]; [discriminate Hin|]).
  by apply elem_of_nil in Hin.
Defined.

(** X5 (userCache.ts, [saveMessagesToCache], the cleanup for
    [QuotaExceededError]).  With at most ten message caches nothing is
    evicted.  With more than ten, at least one message cache is evicted or
    overwritten, and the eviction takes the oldest first: a message cache
    that is gone afterwards has an [updatedAt] (0 when it has none) that is
    not above that of any message cache of another chat that is still
    there. *)
Theorem saveMessagesToCache_evicts_oldest_first
    (s : Storage) (now now' : Z) (chatId : jsstring) (msgs : list ChatMessage) :
  let cacheKey := MESSAGES_KEY_PREFIX ++ chatId in
  let after := (saveMessagesToCache (Some s) now now' chatId msgs).1 in
  refuses s (items s) cacheKey (Doc (PMessages msgs) (Some now)) = Some QuotaExceededError ->
  ((length (messageKeys s) <= 10)%nat -> after = Some s)
  /\ ((10 < length (messageKeys s))%nat ->
      (exists k, k ∈ messageKeys s /\ (read after k = None \/ k = cacheKey))
      /\ forall gone kept,
           gone ∈ messageKeys s -> kept ∈ messageKeys s -> kept <> cacheKey ->
           read after gone = None -> read after kept <> None ->
           ((keyTime s gone).2 <= (keyTime s kept).2)%Z).
Proof.
  intros cacheKey after Href.
  set (kts := Array_sort by_time (map (keyTime s) (messageKeys s))).
  set (n := Nat.max 1 (length kts / 5)).
  assert (Permutation kts (map (keyTime s) (messageKeys s))) as Hperm
    by apply (Array_sort_perm snd).
  assert (StronglySorted (key_leP snd) kts) as Hsorted by apply (Array_sort_sorted snd).
  assert (setItem s cacheKey (Doc (PMessages msgs) (Some now)) = Throw QuotaExceededError)
    as Ethrow by (unfold setItem; by rewrite Href).
  split.
  { intros Hlen. unfold after, saveMessagesToCache. fold cacheKey.
    rewrite Ethrow. cbn [isQuotaExceeded]. fold (messageKeys s).
    by rewrite (proj2 (Nat.ltb_ge _ _) Hlen). }
  intros Hlen.
  assert (exists s1, after = Some s1
            /\ forall k, k <> cacheKey -> getItem s1 k = getItem (removeOldest s kts n) k)
    as (s1 & Eafter & Hs1).
  { unfold after, saveMessagesToCache. fold cacheKey.
    rewrite Ethrow. cbn [isQuotaExceeded]. fold (messageKeys s) kts n.
    rewrite (proj2 (Nat.ltb_lt _ _) Hlen).
    destruct (setItem (removeOldest s kts n) cacheKey _) as [s2|e2] eqn:E2; cbn [fst].
    - exists s2. split; [done|]. intros k Hk. by apply (getItem_setItem_ne _ _ _ _ _ E2).
    - by eexists. }
  rewrite Eafter. split.
  - (* the first of the sorted caches is evicted *)
    destruct kts as [|kt kts'] eqn:Ekts.
    { apply Permutation_length in Hperm. rewrite length_map in Hperm.
      simpl in Hperm. lia. }
    assert (kt.1 ∈ messageKeys s) as Hin.
    { assert (In kt (map (keyTime s) (messageKeys s))) as Hkt
        by (apply (Permutation_in _ Hperm); left; done).
      apply in_map_iff in Hkt as (k & <- & Hk). rewrite keyTime_fst.
      by apply list_elem_of_In. }
    exists kt.1. split; [exact Hin|].
    destruct (decide (kt.1 = cacheKey)) as [E|Hne]; [by right|left].
    rewrite read_Some, Hs1 by done. rewrite getItem_removeOldest.
    rewrite bool_decide_eq_true_2; [done|].
    assert (n = S (Nat.pred n)) as -> by (unfold n; lia). cbn [take fmap list_fmap]. left.
  - intros gone kept Hgone Hkept Hne Hg Hk. rewrite read_Some in Hg, Hk.
    assert (is_Some (getItem s gone)) as [v Hv]
      by (by apply keys_getItem, messageKeys_keys).
    assert (gone ∈ (take n kts).*1) as Hin.
    { destruct (decide (gone = cacheKey)) as [->|Hne'].
      - destruct (decide (cacheKey ∈ (take n kts).*1)) as [?|Hout]; [done|].
        exfalso.
        (* the retry did not go through, or it would be readable *)
        revert Hg. unfold after in Eafter. revert Eafter.
        unfold saveMessagesToCache. fold cacheKey.
        rewrite Ethrow. cbn [isQuotaExceeded]. fold (messageKeys s) kts n.
        rewrite (proj2 (Nat.ltb_lt _ _) Hlen).
        destruct (setItem (removeOldest s kts n) cacheKey _) as [s2|e2] eqn:E2; cbn [fst];
          intros [= <-].
        + by rewrite (getItem_setItem _ _ _ _ E2).
        + rewrite getItem_removeOldest, bool_decide_eq_false_2 by done. by rewrite Hv.
      - rewrite Hs1, getItem_removeOldest in Hg by done.
        destruct (decide (gone ∈ (take n kts).*1)) as [?|Hout]; [done|].
        rewrite bool_decide_eq_false_2 in Hg by done. congruence. }
    assert (kept ∉ (take n kts).*1) as Hout.
    { intros Hin'. apply Hk. rewrite Hs1, getItem_removeOldest by done.
      by rewrite bool_decide_eq_true_2. }
    apply list_elem_of_fmap in Hin as (kt & -> & Hkt).
    assert (keyTime s kept ∈ drop n kts) as Hdrop.
    { assert (keyTime s kept ∈ kts) as Hin'.
      { apply list_elem_of_In, (Permutation_in _ (Permutation_sym Hperm)), in_map.
        by apply list_elem_of_In. }
      rewrite <- (take_drop n kts) in Hin'. apply elem_of_app in Hin' as [Hin'|Hin']; [|done].
      exfalso. apply Hout. apply list_elem_of_fmap. exists (keyTime s kept).
      by rewrite keyTime_fst. }
    assert (keyTime s kt.1 = kt) as Ekt.
    { assert (In kt (map (keyTime s) (messageKeys s))) as Hkt'.
      { apply (Permutation_in _ Hperm), list_elem_of_In.
        apply elem_of_take in Hkt as (i & Hi & _). by eapply list_elem_of_lookup_2. }
      apply in_map_iff in Hkt' as (k & <- & _). by rewrite keyTime_fst. }
    rewrite Ekt. exact (sorted_take_drop snd kts n kt (keyTime s kept) Hsorted Hkt Hdrop).
Qed.

Lemma saveMessagesToCache_evicts_oldest_first_witness :
  let after := (saveMessagesToCache (Some MoreSamples.crowded) 5000 5001 (lit "z")
                  [entry 1]).1 in
  exists k, k ∈ messageKeys MoreSamples.crowded
            /\ (read after k = None \/ k = MESSAGES_KEY_PREFIX ++ lit "z").
Proof.
  intros after.
  destruct (saveMessagesToCache_evicts_oldest_first MoreSamples.crowded 5000 5001 (lit "z")
              [entry 1]) as [_ H]; [reflexivity|].
  apply H. vm_compute. lia.
Defined.

(** X6 (userCache.ts, [clearUserCache] and [clearMessagesCache]).
    [clearUserCache] removes the user record and the contact list of the
    user: both read as absent afterwards; every other key reads as before,
    the message caches of the user's chats included.  [clearMessagesCache]
    removes the cache of one chat and changes nothing else. *)
Theorem clearing_removes_own_keys_only
    (storage : option Storage) (username chatId : jsstring) :
  loadUserFromCache (clearUserCache storage username) username = None
  /\ loadContactsFromCache (clearUserCache storage username) username = None
  /\ (forall k, k <> buildKey username -> k <> CHATS_KEY_PREFIX ++ username ->
        read (clearUserCache storage username) k = read storage k)
  /\ (forall chat, loadMessagesFromCache (clearUserCache storage username) chat
                   = loadMessagesFromCache storage chat)
  /\ loadMessagesFromCache (clearMessagesCache storage chatId) chatId = None
  /\ (forall k, k <> MESSAGES_KEY_PREFIX ++ chatId ->
        read (clearMessagesCache storage chatId) k = read storage k).
Proof.
  destruct storage as [s|]; [|done].
  assert (buildKey username <> CHATS_KEY_PREFIX ++ username) as Hkinds.
  { intros E. pose proof (user_key_kind username) as Hk. rewrite E in Hk.
    by rewrite (proj1 (chats_key_kind username)) in Hk. }
  split; [|split; [|split; [|split; [|split]]]].
  - unfold loadUserFromCache, clearUserCache.
    rewrite getItem_removeItem_ne by done. by rewrite getItem_removeItem.
  - unfold loadContactsFromCache, clearUserCache. by rewrite getItem_removeItem.
  - intros k Hk1 Hk2. unfold clearUserCache. rewrite !read_Some.
    by rewrite !getItem_removeItem_ne.
  - intros chat. unfold loadMessagesFromCache, clearUserCache.
    rewrite !getItem_removeItem_ne; [done| |].
    + intros E. pose proof (user_key_kind username) as Hk. rewrite <- E in Hk.
      by rewrite (proj1 (messages_key_kind chat)) in Hk.
    + intros E. pose proof (startsWith_app username CHATS_KEY_PREFIX) as Hk.
      rewrite <- E in Hk. by rewrite (proj2 (messages_key_kind chat)) in Hk.
  - unfold loadMessagesFromCache, clearMessagesCache. by rewrite getItem_removeItem.
  - intros k Hk. unfold clearMessagesCache. rewrite !read_Some.
    by rewrite getItem_removeItem_ne.
Qed.

End CacheLaws.
(** ** The codecs of cryptoService.ts *)

Module CodecProofs.
Import Encoding Text.

(** The scalar values of any string, and the string they stand for. *)
Lemma to_scalars_any s :
  code_units s ->
  List.Forall scalar (to_scalars s)
  /\ flat_map utf16_units (to_scalars s) = toWellFormed s.
Proof.
  assert (scalar 0xFFFD /\ utf16_units 0xFFFD = [0xFFFD]) as [Hrep Urep].
  { split; [|done]. unfold scalar. lia. }
  intros Hs. unfold code_units in Hs.
  assert (forall n s, (length s <= n)%nat -> List.Forall (fun c => c < 0x10000) s ->
            List.Forall scalar (to_scalars s)
            /\ flat_map utf16_units (to_scalars s) = toWellFormed s) as Hall.
  { clear s Hs. induction n as [|n IH]; intros [|c s] Hlen Hs; cbn [length] in Hlen;
      try (split; [constructor|done]); [lia|].
    apply List.Forall_cons_iff in Hs as [Hc Hs].
    cbn [to_scalars toWellFormed].
    destruct (is_high_surrogate c) eqn:Hh.
    - destruct s as [|d s].
      + split; [by constructor|done].
      + destruct (is_low_surrogate d) eqn:Hl.
        * apply List.Forall_cons_iff in Hs as [Hd Hs].
          destruct (IH s) as [IH1 IH2]; [cbn [length] in Hlen; lia|done|].
          destruct (EncodingProofs.surrogate_pair_scalar c d Hh Hl) as (Hsc & _ & Hu).
          split; [by constructor|]. cbn [flat_map]. by rewrite Hu, IH2.
        * destruct (IH (d :: s)) as [IH1 IH2]; [lia|done|].
          split; [by constructor|]. cbn [flat_map]. by rewrite Urep, IH2.
    - destruct (IH s) as [IH1 IH2]; [lia|done|].
      destruct (is_low_surrogate c) eqn:Hl.
      + split; [by constructor|]. cbn [flat_map]. by rewrite Urep, IH2.
      + destruct (EncodingProofs.plain_unit_scalar c Hh Hl Hc) as [Hsc Hu].
        split; [by constructor|]. cbn [flat_map]. by rewrite Hu, IH2. }
  by apply (Hall (length s)).
Qed.

Lemma bytes_back (bs : list N) :
  List.Forall (fun b => b < 256) bs -> map Byte.to_N (map byte_of bs) = bs.
Proof.
  induction 1 as [|b bs Hb _ IH]; simpl; [done|]. by rewrite to_N_byte_of, IH.
Qed.

Lemma utf8_small cps :
  List.Forall scalar cps -> List.Forall (fun b => b < 256) (flat_map utf8_bytes cps).
Proof.
  induction 1 as [|cp cps [Hcp _] _ IH]; simpl; [constructor|].
  apply List.Forall_app. split; [by apply EncodingProofs.utf8_bytes_small|done].
Qed.

(** One pass through [TextEncoder] and [TextDecoder]. *)
Lemma TextDecoder_TextEncoder_any s :
  code_units s ->
  TextDecoder_decode (TextEncoder_encode s) = withoutBOM (toWellFormed s).
Proof.
  intros Hs. destruct (to_scalars_any s Hs) as [Hsc Hu].
  unfold TextDecoder_decode, TextEncoder_encode.
  rewrite bytes_back by by apply utf8_small.
  destruct (to_scalars s) as [|cp cps] eqn:E.
  { by rewrite <- Hu. }
  destruct (N.eq_dec cp 0xFEFF) as [->|Hne].
  - (* the bytes of U+FEFF are the byte order mark *)
    apply List.Forall_cons_iff in Hsc as [_ Hsc].
    rewrite <- Hu. cbn [flat_map]. change (utf8_bytes 0xFEFF) with [0xEF; 0xBB; 0xBF].
    change (utf16_units 0xFEFF) with [0xFEFF].
    cbn [app strip_bom withoutBOM]. change (0xFEFF =? 0xFEFF) with true. cbn iota.
    by rewrite EncodingProofs.decode_scalars.
  - rewrite EncodingProofs.strip_bom_scalars; [|done|cbn [hd_error]; congruence].
    rewrite EncodingProofs.decode_scalars by done. rewrite Hu.
    (* a string that does not start with U+FEFF is left as it is *)
    destruct (toWellFormed s) as [|c w] eqn:Ew; [done|]. cbn [withoutBOM].
    destruct (N.eqb_spec c 0xFEFF) as [->|]; [|done]. exfalso. apply Hne.
    cbn [flat_map] in Hu. apply List.Forall_cons_iff in Hsc as [[Hmax _] _].
    revert Hu. unfold utf16_units.
    destruct (N.ltb_spec cp 0x10000) as [Hlt|Hge]; cbn [app]; intros [= Hu _]; [done|].
    exfalso. revert Hu. ndiv.
Qed.

End CodecProofs.
(** ** Round trips of the codecs *)

Module CodecLaws.
Import Crypto Text.

(** X7 (cryptoService.ts, [arrayBufferToB64] and [b64ToArrayBuffer]).
    [b64ToArrayBuffer] gives back every buffer [arrayBufferToB64] was
    given, also when white space was put into the text; the text of a
    buffer of [n] bytes has [4 * ceil(n / 3)] characters; two buffers with
    the same text are the same buffer. *)
Theorem base64_of_buffers (buffer : list byte) :
  b64ToArrayBuffer (arrayBufferToB64 buffer) = Ok buffer
  /\ length (arrayBufferToB64 buffer) = (4 * ((length buffer + 2) / 3))%nat
  /\ (forall other, arrayBufferToB64 other = arrayBufferToB64 buffer -> other = buffer)
  /\ (forall t, Base64.remove_whitespace t = arrayBufferToB64 buffer ->
        b64ToArrayBuffer t = Ok buffer).
Proof.
  split; [apply b64ToArrayBuffer_arrayBufferToB64|split; [|split]].
  - unfold arrayBufferToB64, Base64.encode.
    rewrite <- (length_map Byte.to_N buffer).
    induction (map Byte.to_N buffer) as [|a|a b|a b c l IH] using list_ind3;
      [done|done|done|].
    change (Base64.sextets (a :: b :: c :: l))
      with (a / 4 :: (a mod 4) * 16 + b / 16 :: (b mod 16) * 4 + c / 64 :: c mod 64
            :: Base64.sextets l).
    cbn [length map app]. rewrite Base64Proofs.padding_step.
    rewrite length_app, length_map in *.
    replace (S (S (S (length l))) + 2)%nat with ((length l + 2) + 1 * 3)%nat by lia.
    rewrite Nat.div_add by lia. lia.
  - intros other E. apply (f_equal b64ToArrayBuffer) in E.
    rewrite !b64ToArrayBuffer_arrayBufferToB64 in E. by injection E.
  - intros t E.
    assert (Base64.decode t = Base64.decode (arrayBufferToB64 buffer)) as Hd.
    { unfold Base64.decode. rewrite E. f_equal. f_equal. rewrite <- E.
      unfold Base64.remove_whitespace. clear. induction t as [|c t IH]; simpl; [done|].
      destruct (negb (Base64.is_ascii_whitespace c)) eqn:Ec; simpl; [|done].
      rewrite Ec. by f_equal. }
    pose proof (b64ToArrayBuffer_arrayBufferToB64 buffer) as Hb.
    unfold b64ToArrayBuffer, Base64.atob in *. by rewrite Hd.
Qed.

(** X8 (cryptoService.ts, [encryptFile] and [decryptFile]).  With a key
    and a primitive that decrypts what it encrypted, [decryptFile] returns
    the bytes of the file [encryptFile] was given, for every sequence of
    bytes. *)
Theorem decryptFile_encryptFile {C : SubtleCrypto} (H : AesGcmCorrect C)
    (sharedKey : CryptoKey) (iv file : list byte) :
  let e := encryptFile sharedKey iv file in
  decryptFile sharedKey (enc_ct e) (enc_iv e) = Ok file.
Proof.
  unfold encryptFile, decryptFile. cbn [enc_ct enc_iv].
  rewrite !b64ToArrayBuffer_arrayBufferToB64. by rewrite decrypt_encrypt.
Qed.

Lemma decryptFile_encryptFile_witness :
  let file := [Byte.x00; Byte.xff; Byte.xef; Byte.xbb; Byte.xbf; Byte.xd8] in
  let e := encryptFile (C := ToyGcm.subtle) Samples.toy_key Samples.toy_nonce file in
  decryptFile (C := ToyGcm.subtle) Samples.toy_key (enc_ct e) (enc_iv e) = Ok file.
Proof.
  intros file.
  exact (decryptFile_encryptFile (C := ToyGcm.subtle) ToyGcmProofs.toy_correct
           Samples.toy_key Samples.toy_nonce file).
Defined.

(** X9 (cryptoService.ts, [textToArrayBuffer], [arrayBufferToText],
    [encryptMessage], [decryptMessage]).  For every string, decrypting what
    [encryptMessage] made of it returns the string with every surrogate
    that has no partner replaced by U+FFFD and without a U+FEFF at its
    start; [textToArrayBuffer] followed by [arrayBufferToText] does the
    same. *)
Theorem decryptMessage_encryptMessage_any {C : SubtleCrypto} (H : AesGcmCorrect C)
    (sharedKey : CryptoKey) (iv : list byte) (plaintext : jsstring)
    (Hunits : code_units plaintext) :
  let e := encryptMessage sharedKey iv plaintext in
  arrayBufferToText (textToArrayBuffer plaintext) = withoutBOM (toWellFormed plaintext)
  /\ decryptMessage sharedKey (enc_ct e) (enc_iv e)
     = Ok (withoutBOM (toWellFormed plaintext))
  /\ CryptoService.decryptMessage sharedKey (enc_ct e) (enc_iv e)
     = Ok (withoutBOM (toWellFormed plaintext)).
Proof.
  intros e.
  assert (arrayBufferToText (textToArrayBuffer plaintext)
          = withoutBOM (toWellFormed plaintext)) as E
    by by apply CodecProofs.TextDecoder_TextEncoder_any.
  split; [exact E|].
  assert (decryptMessage sharedKey (enc_ct e) (enc_iv e)
          = Ok (withoutBOM (toWellFormed plaintext))) as E'.
  { unfold e. rewrite CryptoProofs.decrypt_encrypt_text by done. by rewrite E. }
  split; [exact E'|].
  rewrite CryptoProofs.service_decryptMessage. by rewrite E'.
Qed.

(** U+FEFF, a high surrogate on its own, "a", a pair (U+1F512), a low
    surrogate on its own. *)
Lemma decryptMessage_encryptMessage_any_witness :
  let plaintext := [0xFEFF; 0xD800; 97; 0xD83D; 0xDD12; 0xDC00] in
  let e := encryptMessage (C := ToyGcm.subtle) Samples.toy_key Samples.toy_nonce plaintext in
  decryptMessage (C := ToyGcm.subtle) Samples.toy_key (enc_ct e) (enc_iv e)
  = Ok [0xFFFD; 97; 0xD83D; 0xDD12; 0xFFFD].
Proof.
  intros plaintext.
  refine (proj1 (proj2 (decryptMessage_encryptMessage_any (C := ToyGcm.subtle)
                          ToyGcmProofs.toy_correct Samples.toy_key Samples.toy_nonce
                          plaintext _))).
  unfold code_units, plaintext. repeat (constructor; [reflexivity|]). constructor.
Defined.

End CodecLaws.
(** ** The contact list of Chat.tsx *)

Module ContactsProofs.
Import UserCache GunService Contacts.

Lemma split_plain sep s : ~ In sep s -> split sep s = [s].
Proof.
  induction s as [|c s IH]; intros Hs; simpl; [done|].
  destruct (N.eqb_spec c sep) as [->|_]; [exfalso; apply Hs; by left|].
  rewrite IH; [done|]. intros Hin. apply Hs. by right.
Qed.

Lemma split_at sep a b : ~ In sep a -> split sep (a ++ sep :: b) = a :: split sep b.
Proof.
  induction a as [|c a IH]; intros Ha; simpl.
  - by rewrite N.eqb_refl.
  - destruct (N.eqb_spec c sep) as [->|_]; [exfalso; apply Ha; by left|].
    rewrite IH; [done|]. intros Hin. apply Ha. by right.
Qed.

(** The pieces of the identifier of two names without a colon. *)
Lemma split_sortedJoin a b :
  restricted a -> restricted b ->
  split 58 (sortedJoin a b) = [a; b] \/ split 58 (sortedJoin a b) = [b; a].
Proof.
  intros Ha Hb.
  pose proof (GunServiceProofs.restricted_no_colon _ Ha) as Na.
  pose proof (GunServiceProofs.restricted_no_colon _ Hb) as Nb.
  destruct (GunServiceProofs.sortedJoin_cases a b) as [-> | ->]; [left|right];
    unfold colon; cbn [lit N_of_ascii app];
    change (N_of_ascii ":") with 58; rewrite split_at, split_plain; done.
Qed.

Lemma partnerOf_sortedJoin a b :
  restricted a -> restricted b -> a <> b -> partnerOf a (sortedJoin a b) = Some b.
Proof.
  intros Ha Hb Hne. unfold partnerOf.
  destruct (split_sortedJoin a b Ha Hb) as [-> | ->]; cbn [List.find].
  - rewrite bool_decide_eq_true_2 by done. cbn [negb].
    rewrite bool_decide_eq_false_2 by congruence. cbn [negb].
    by rewrite GunServiceProofs.restricted_truthy.
  - rewrite bool_decide_eq_false_2 by congruence. cbn [negb].
    by rewrite GunServiceProofs.restricted_truthy.
Qed.

Lemma partnerOf_self a : restricted a -> partnerOf a (sortedJoin a a) = None.
Proof.
  intros Ha. unfold partnerOf.
  destruct (split_sortedJoin a a Ha Ha) as [-> | ->]; cbn [List.find];
    by rewrite bool_decide_eq_true_2.
Qed.

Lemma validUsername_restricted s : Chat.validUsername s = true -> restricted s.
Proof.
  unfold Chat.validUsername. intros [Ht Hall]%andb_true_iff. split.
  - by destruct s.
  - apply List.Forall_forall. by apply forallb_forall.
Qed.

(** What a submission that started a chat went through. *)
Lemma handleNewChatSubmit_started JSON_parse g reads currentUser input chat events g' :
  Chat.handleNewChatSubmit JSON_parse g reads currentUser input
  = (Chat.Started chat, events, g') ->
  Chat.partner chat = Chat.trim input
  /\ Chat.trim input <> currentUser
  /\ Chat.validUsername (Chat.trim input) = true
  /\ createChatLink g currentUser (Chat.trim input) = (Some (Chat.id chat), g').
Proof.
  unfold Chat.handleNewChatSubmit.
  destruct (negb (truthy _)); [done|].
  destruct (bool_decide _) eqn:Eself; [done|]. apply bool_decide_eq_false in Eself.
  destruct (Chat.validUsername _) eqn:Ev; [|done]. cbn [negb].
  destruct (fetchPartnerPubKey _ _ _ _ _) as [pubKey ev].
  destruct (falsy pubKey); [done|].
  destruct (createChatLink _ _ _) as [[theChatId|] g2] eqn:Ec; [|done].
  by intros [= <- <- <-].
Qed.

Lemma handleNewChatSubmit_no_gun JSON_parse reads currentUser input :
  (Chat.handleNewChatSubmit JSON_parse None reads currentUser input).2 = None.
Proof.
  unfold Chat.handleNewChatSubmit.
  destruct (negb (truthy _)); [done|]. destruct (bool_decide _); [done|].
  destruct (negb (Chat.validUsername _)); [done|]. by cbn.
Qed.

(** Reading the contacts after they were saved: the list that was saved,
    or what was there before when the write was refused. *)
Lemma load_after_save s now user l :
  loadContactsFromCache (saveContactsToCache s now user l).1 user = Some l
  \/ loadContactsFromCache (saveContactsToCache s now user l).1 user
     = loadContactsFromCache s user.
Proof.
  destruct s as [s|]; [|by right]. unfold saveContactsToCache.
  destruct (setItem s _ _) as [s1|e] eqn:E; cbn [fst]; [left|by right].
  unfold loadContactsFromCache. by rewrite (CacheAccessProofs.getItem_setItem _ _ _ _ E).
Qed.

Lemma load_after_accepted_save s now user l :
  accepting s ->
  loadContactsFromCache (saveContactsToCache s now user l).1 user = Some l
  /\ accepting (saveContactsToCache s now user l).1.
Proof.
  destruct s as [s|]; [|done]. cbn [accepting]. intros Hacc.
  unfold saveContactsToCache, setItem. rewrite Hacc. cbn [fst]. split.
  - unfold loadContactsFromCache, getItem. cbn [items].
    by rewrite CacheAccessProofs.lookup_upsert.
  - done.
Qed.

Lemma save_cache_ok s now user l :
  cache_ok user s -> contacts_ok user l ->
  cache_ok user (saveContactsToCache s now user l).1.
Proof.
  intros Hs Hl l' E. destruct (load_after_save s now user l) as [E'|E'];
    rewrite E' in E; [by injection E as <-|by apply Hs].
Qed.

Lemma known_false partner theChatId prev :
  known partner theChatId prev = false ->
  (partner ∉ map username prev) /\ (theChatId ∉ map chatId prev).
Proof.
  unfold known. induction prev as [|c prev IH]; cbn [existsb map].
  - intros _. split; by intros ?%elem_of_nil.
  - intros [Hc Hrest]%orb_false_iff. apply orb_false_iff in Hc as [Hu Hi].
    apply bool_decide_eq_false in Hu, Hi. destruct (IH Hrest) as [IH1 IH2].
    split; intros [E|Hin]%elem_of_cons; congruence || tauto.
Qed.

Lemma contacts_ok_nil user : contacts_ok user [].
Proof. split; [|split]; cbn [map]; constructor. Qed.

Lemma saveEffect_Inv now user st : Inv user st -> Inv user (saveEffect now user st).
Proof.
  intros [Hc Hs]. unfold saveEffect.
  destruct (contacts st) as [|c l] eqn:E; [split; [by rewrite E|done]|].
  split; cbn [contacts storage]; [done|]. by apply save_cache_ok.
Qed.

Lemma handleContact_Inv now user val st :
  Inv user st -> Inv user (handleContact now user val st).
Proof.
  intros [Hc Hs]. unfold handleContact.
  destruct (chatIdOf val) as [theChatId|]; [|by split].
  destruct (negb (truthy theChatId)); [by split|].
  destruct (partnerOf user theChatId) as [partner|] eqn:Ep; [|by split].
  destruct (known partner theChatId (contacts st)) eqn:Ek; [by split|].
  apply known_false in Ek as [Hu Hi]. destruct Hc as (H1 & H2 & H3).
  assert (contacts_ok user ({| username := partner; chatId := theChatId |} :: contacts st))
    as Hok.
  { split; [|split]; cbn [map]; [by constructor|by constructor|by constructor]. }
  split; cbn [contacts storage]; [done|]. by apply save_cache_ok.
Qed.

Lemma startChat_Inv now user chat g st :
  Inv user st ->
  partnerOf user (Chat.id chat) = Some (Chat.partner chat) ->
  Inv user (startChat now user chat g st).
Proof.
  intros [Hc Hs] Hp. unfold startChat.
  destruct (existsb _ _) eqn:Ek; [by split|].
  assert (Chat.partner chat ∉ map username (contacts st)) as Hu.
  { clear -Ek. induction (contacts st) as [|c l IH]; cbn [existsb map] in *.
    - by intros ?%elem_of_nil.
    - apply orb_false_iff in Ek as [Hc Hl]. apply bool_decide_eq_false in Hc.
      intros [E|Hin]%elem_of_cons; [congruence|by apply IH]. }
  destruct Hc as (H1 & H2 & H3).
  assert (Chat.id chat ∉ map chatId (contacts st)) as Hi.
  { intros (c & Ec & Hin)%list_elem_of_fmap. apply Hu.
    rewrite List.Forall_forall in H3. apply list_elem_of_In in Hin.
    specialize (H3 c Hin). rewrite <- Ec, Hp in H3. injection H3 as ->.
    apply list_elem_of_fmap. exists c. split; [done|]. by apply list_elem_of_In. }
  apply saveEffect_Inv. split; cbn [contacts storage].
  - split; [|split]; cbn [map]; [by constructor|by constructor|by constructor].
  - apply save_cache_ok; [done|].
    split; [|split]; cbn [map]; [by constructor|by constructor|by constructor].
Qed.

Lemma contacts_reachable_Inv JSON_parse user st :
  restricted user -> reachable JSON_parse user st -> Inv user st.
Proof.
  intros Hu. induction 1 as [g s now Hs|now val st _ IH|reads now input st _ IH].
  - unfold mount. destruct g as [g|]; [|split; [apply contacts_ok_nil|done]].
    destruct (loadContactsFromCache s user) as [[|c cached]|] eqn:E.
    + split; [apply contacts_ok_nil|done].
    + apply saveEffect_Inv. split; cbn [contacts storage]; [by apply Hs|done].
    + split; [apply contacts_ok_nil|done].
  - unfold deliver. destruct (listening st); [|done].
    destruct (bool_decide _); [by apply handleContact_Inv|].
    by apply saveEffect_Inv, handleContact_Inv.
  - unfold submitNewChat.
    destruct (Chat.handleNewChatSubmit _ _ _ _ _) as [[[msg|chat] events] g'] eqn:E.
    { destruct IH. by split. }
    apply handleNewChatSubmit_started in E as (Ep & Hne & Hv & Ec).
    apply startChat_Inv; [done|].
    apply validUsername_restricted in Hv.
    destruct (gun st) as [g|]; [|done].
    pose proof (GunServiceProofs.createChatLink_restricted g user _ Hu Hv) as El.
    rewrite Ec in El. injection El as ->. rewrite Ep.
    apply partnerOf_sortedJoin; [done|done|congruence].
Qed.

(** [restoreChatLinks] step by step. *)
Lemma linked_chats_set g user c u x :
  linked (Some (chats_set g user c)) u x
  <-> linked (Some g) u x \/ (u = user /\ x = c).
Proof.
  unfold linked, chats_set, Graph. cbn beta iota. destruct (decide (u = user)) as [->|Hne].
  - rewrite lookup_insert_eq. cbn [from_option id].
    rewrite elem_of_union, elem_of_singleton. tauto.
  - rewrite lookup_insert_ne by done. split; [by left|]. intros [?|[? _]]; done.
Qed.

Lemma linked_restore g user l u x :
  linked (restoreChatLinks (Some g) user l) u x
  <-> linked (Some g) u x
      \/ exists c, c ∈ l /\ x = chatId c /\ (u = user \/ u = username c).
Proof.
  unfold restoreChatLinks. revert g. induction l as [|c l IH]; intros g; cbn [fold_left].
  - split; [by left|]. intros [?|(c & Hc%elem_of_nil & _)]; done.
  - rewrite IH, !linked_chats_set. split.
    + intros [[[H|[-> ->]]|[-> ->]]|(c' & Hin & E & Hu)].
      * by left.
      * right. exists c. split; [left|]. split; [done|by left].
      * right. exists c. split; [left|]. split; [done|by right].
      * right. exists c'. split; [by right|done].
    + intros [H|(c' & [->|Hin]%elem_of_cons & -> & Hu)].
      * left. left. by left.
      * left. destruct Hu as [->| ->]; [left; by right|by right].
      * right. by exists c'.
Qed.

Lemma accepting_save s now user l :
  accepting (saveContactsToCache s now user l).1 <-> accepting s.
Proof.
  destruct s as [s|]; [|done]. unfold saveContactsToCache.
  by destruct (setItem s _ _) as [s1|e] eqn:E; [unfold setItem in E;
    destruct (refuses s _ _ _); [done|injection E as <-]|].
Qed.

Lemma saveEffect_mirrors now user st :
  accepting (storage st) -> mirrors user st -> mirrors user (saveEffect now user st).
Proof.
  intros Hacc Hm. unfold saveEffect.
  destruct (contacts st) as [|c l] eqn:E; [done|]. unfold mirrors. cbn [contacts storage].
  by apply load_after_accepted_save.
Qed.

Lemma handleContact_mirrors now user val st :
  accepting (storage st) -> mirrors user st -> mirrors user (handleContact now user val st).
Proof.
  intros Hacc Hm. unfold handleContact.
  destruct (chatIdOf val) as [theChatId|]; [|done].
  destruct (negb (truthy theChatId)); [done|].
  destruct (partnerOf user theChatId) as [partner|]; [|done].
  destruct (known partner theChatId (contacts st)); [done|].
  unfold mirrors. cbn [contacts storage]. by apply load_after_accepted_save.
Qed.

Lemma handleContact_storage now user val st :
  accepting (storage (handleContact now user val st)) <-> accepting (storage st).
Proof.
  unfold handleContact.
  destruct (chatIdOf val) as [theChatId|]; [|done].
  destruct (negb (truthy theChatId)); [done|].
  destruct (partnerOf user theChatId) as [partner|]; [|done].
  destruct (known partner theChatId (contacts st)); [done|].
  cbn [storage]. apply accepting_save.
Qed.

Lemma saveEffect_storage now user st :
  accepting (storage (saveEffect now user st)) <-> accepting (storage st).
Proof.
  unfold saveEffect. destruct (contacts st); [done|]. cbn [storage]. apply accepting_save.
Qed.

(** With Gun loaded and a storage that accepts every write, the cache
    holds the list that is shown. *)
Lemma contacts_reachable_mirrors JSON_parse user st :
  reachable JSON_parse user st ->
  accepting (storage st) -> is_Some (gun st) -> mirrors user st.
Proof.
  induction 1 as [g s now Hs|now val st _ IH|reads now input st _ IH].
  - unfold mount. destruct g as [g|]; [|by intros _ [? ?]].
    destruct (loadContactsFromCache s user) as [[|c cached]|] eqn:E.
    + intros _ _. unfold mirrors. cbn [contacts storage]. by right.
    + intros Hacc _. apply saveEffect_storage in Hacc. cbn [storage] in Hacc.
      apply saveEffect_mirrors; [done|]. unfold mirrors. by cbn [contacts storage].
    + intros _ _. unfold mirrors. cbn [contacts storage]. by left.
  - unfold deliver. destruct (listening st); [|done].
    destruct (bool_decide _).
    + intros Hacc Hg. pose proof (proj1 (handleContact_storage _ _ _ _) Hacc) as Hacc'.
      apply handleContact_mirrors; [done|]. apply IH; [done|].
      revert Hg. unfold handleContact.
      by repeat (case_match; try done).
    + intros Hacc Hg. pose proof (proj1 (saveEffect_storage _ _ _) Hacc) as Hacc1.
      pose proof (proj1 (handleContact_storage _ _ _ _) Hacc1) as Hacc2.
      apply saveEffect_mirrors; [done|]. apply handleContact_mirrors; [done|].
      apply IH; [done|]. revert Hg. unfold saveEffect, handleContact.
      by repeat (case_match; try done).
  - unfold submitNewChat.
    destruct (Chat.handleNewChatSubmit _ _ _ _ _) as [[[msg|chat] events] g'] eqn:E.
    { cbn [storage gun]. intros Hacc Hg. unfold mirrors in *. cbn [contacts storage].
      apply IH; [done|]. destruct (gun st) as [g|]; [done|].
      pose proof (handleNewChatSubmit_no_gun JSON_parse reads user input) as Hn.
      rewrite E in Hn. cbn in Hn. subst g'. by destruct Hg. }
    assert (is_Some (gun st)) as Hgun.
    { destruct (gun st) as [g|]; [done|].
      apply handleNewChatSubmit_started in E as (_ & _ & _ & Ec). done. }
    unfold startChat. destruct (existsb _ _).
    { cbn [storage gun]. intros Hacc _. unfold mirrors in *. cbn [contacts storage].
      by apply IH. }
    intros Hacc _. pose proof (proj1 (saveEffect_storage _ _ _) Hacc) as Hacc1.
    cbn [storage] in Hacc1.
    apply saveEffect_mirrors; [done|]. unfold mirrors. cbn [contacts storage].
    apply load_after_accepted_save. by apply accepting_save in Hacc1.
Qed.

End ContactsProofs.
(** ** Contacts: who the other party is, and what the list keeps *)

Module ContactLaws.
Import UserCache GunService Contacts ContactsProofs Samples.

(** X10 (Chat.tsx, [handleContact]; gunService.ts, [createChatLink]).  The
    way [handleContact] reads a channel identifier undoes
    [createChatLink]: for two different names over [[a-zA-Z0-9_-]] the
    other party of the identifier is the partner, seen from either side;
    the identifier of a name with itself has no other party, so it never
    becomes a contact. *)
Theorem partnerOf_inverts_createChatLink (g : Graph) (a b : jsstring)
    (Ha : restricted a) (Hb : restricted b) (Hab : a <> b) :
  (forall theChatId,
     (createChatLink (Some g) a b).1 = Some theChatId ->
     partnerOf a theChatId = Some b /\ partnerOf b theChatId = Some a)
  /\ (forall selfId,
        (createChatLink (Some g) a a).1 = Some selfId -> partnerOf a selfId = None).
Proof.
  split.
  - intros theChatId. rewrite GunServiceProofs.createChatLink_restricted by done.
    intros [= <-]. split; [by apply partnerOf_sortedJoin|].
    rewrite GunServiceProofs.sortedJoin_comm. by apply partnerOf_sortedJoin.
  - intros selfId. rewrite GunServiceProofs.createChatLink_restricted by done.
    intros [= <-]. by apply partnerOf_self.
Qed.

Lemma partnerOf_inverts_createChatLink_witness :
  partnerOf alice (lit "alice:bob") = Some bob /\ partnerOf bob (lit "alice:bob") = Some alice.
Proof.
  apply (proj1 (partnerOf_inverts_createChatLink ∅ alice bob
                  GunServiceProofs.restricted_alice GunServiceProofs.restricted_bob
                  ltac:(discriminate))).
  reflexivity.
Defined.

(** X11 (Chat.tsx, the contacts effect, [handleContact] and the contact
    update of [handleNewChatSubmit]).  For a user whose name is over
    [[a-zA-Z0-9_-]], in every state the contact list reaches (mounted over a
    cache this code wrote, then any values delivered by Gun and any new-chat
    forms submitted) no name and no channel identifier occurs twice, each
    contact's name is the other party of its channel identifier, and the
    cached list has the same properties. *)
Theorem contact_list_has_no_duplicates
    (JSON_parse : jsstring -> option JsValue) (currentUser : jsstring)
    (st : ContactsState)
    (Huser : restricted currentUser)
    (Hreach : reachable JSON_parse currentUser st) :
  NoDup (map username (contacts st))
  /\ NoDup (map chatId (contacts st))
  /\ List.Forall (fun c => partnerOf currentUser (chatId c) = Some (username c))
       (contacts st)
  /\ cache_ok currentUser (storage st).
Proof.
  destruct (contacts_reachable_Inv JSON_parse currentUser st Huser Hreach)
    as [(H1 & H2 & H3) H4].
  done.
Qed.

(** Bob's link arrives twice, as a string and as a reference, then carol's. *)
Lemma contact_list_has_no_duplicates_witness :
  let st := deliver 3 alice (JString (lit "alice:carol"))
              (deliver 2 alice (JObject [(lit "#", lit "alice:bob")])
                 (deliver 1 alice (JString (lit "alice:bob"))
                    (mount (Some ∅) (Some roomy) 0 alice))) in
  map username (contacts st) = [carol; bob]
  /\ NoDup (map username (contacts st)).
Proof.
  intros st. split; [reflexivity|].
  refine (proj1 (contact_list_has_no_duplicates parse_bob alice st
                   GunServiceProofs.restricted_alice _)).
  repeat apply reach_deliver. apply reach_mount. intros l Hl. discriminate Hl.
Defined.

(** X12 (Chat.tsx, the contacts effect and the effect that saves the
    contacts; userCache.ts).  With Gun loaded and a [localStorage] that
    accepts every write, the cache holds the contact list that is shown, in
    every state the list reaches: mounting the component again for the same
    user over that storage shows the same contacts in the same order. *)
Theorem contacts_survive_reload
    (JSON_parse : jsstring -> option JsValue) (currentUser : jsstring)
    (st : ContactsState) (now : Z)
    (Hreach : reachable JSON_parse currentUser st)
    (Hstorage : accepting (storage st))
    (Hgun : is_Some (gun st)) :
  contacts (mount (gun st) (storage st) now currentUser) = contacts st
  /\ (contacts st <> [] ->
      loadContactsFromCache (storage st) currentUser = Some (contacts st)).
Proof.
  pose proof (contacts_reachable_mirrors JSON_parse currentUser st Hreach Hstorage Hgun)
    as Hm.
  unfold mirrors in Hm. destruct Hgun as [g Hg]. rewrite Hg. unfold mount.
  destruct (contacts st) as [|c l] eqn:E.
  - split; [|done]. by destruct Hm as [-> | ->].
  - rewrite Hm. split; [|done]. unfold saveEffect. by cbn [contacts].
Qed.

Lemma contacts_survive_reload_witness :
  let st := deliver 3 alice (JString (lit "alice:carol"))
              (deliver 1 alice (JString (lit "alice:bob"))
                 (mount (Some ∅) (Some roomy) 0 alice)) in
  contacts (mount (gun st) (storage st) 9 alice) = contacts st.
Proof.
  intros st.
  refine (proj1 (contacts_survive_reload parse_bob alice st 9 _ _ _)).
  - repeat apply reach_deliver. apply reach_mount. intros l Hl. discriminate Hl.
  - intros l k v. reflexivity.
  - by eexists.
Defined.

(** X13 (gunService.ts, [restoreChatLinks]).  After [restoreChatLinks] a
    channel identifier is linked at a user exactly when it was linked
    before or it is the identifier of one of the contacts and the user is
    the restoring user or that contact: every contact is linked in both
    directions, no link is removed and no other link is made; restoring
    twice gives the links of restoring once, and without Gun nothing is
    done. *)
Theorem restoreChatLinks_links_both_ways
    (g : Graph) (user : jsstring) (l : list Contact) (u x : jsstring) :
  (linked (restoreChatLinks (Some g) user l) u x
   <-> linked (Some g) u x
       \/ exists c, c ∈ l /\ x = chatId c /\ (u = user \/ u = username c))
  /\ (linked (restoreChatLinks (restoreChatLinks (Some g) user l) user l) u x
      <-> linked (restoreChatLinks (Some g) user l) u x)
  /\ restoreChatLinks None user l = None.
Proof.
  split; [apply linked_restore|split; [|done]].
  destruct (restoreChatLinks (Some g) user l) as [g1|] eqn:E; [|done].
  rewrite linked_restore. rewrite <- E. rewrite linked_restore. tauto.
Qed.

End ContactLaws.
(** ** From the input field to the partner's screen *)

Module ComposerProofs.
Import Encoding Text Crypto.

Lemma trimStart_suffix s : exists ws, s = ws ++ Chat.trimStart s.
Proof.
  induction s as [|c s [ws IH]]; [by exists []|]. cbn [Chat.trimStart].
  destruct (Chat.is_js_whitespace c).
  - exists (c :: ws). cbn [app]. by f_equal.
  - by exists [].
Qed.

Lemma trimStart_head s c r :
  Chat.trimStart s = c :: r -> Chat.is_js_whitespace c = false.
Proof.
  induction s as [|d s IH]; [done|]. cbn [Chat.trimStart].
  destruct (Chat.is_js_whitespace d) eqn:Ed; [done|]. by intros [= <- _].
Qed.

(** What [trim] leaves is a piece of the string whose first code unit is
    no white space. *)
Lemma trim_head s c r : Chat.trim s = c :: r -> Chat.is_js_whitespace c = false.
Proof.
  unfold Chat.trim. intros E.
  destruct (trimStart_suffix (rev (Chat.trimStart s))) as [ws Hws].
  apply (f_equal (@rev N)) in Hws. rewrite rev_involutive, rev_app_distr, E in Hws.
  cbn [app] in Hws. by apply (trimStart_head s c (r ++ rev ws)).
Qed.

Lemma trim_Forall (P : N -> Prop) s : List.Forall P s -> List.Forall P (Chat.trim s).
Proof.
  intros Hs. unfold Chat.trim.
  destruct (trimStart_suffix s) as [ws1 E1].
  destruct (trimStart_suffix (rev (Chat.trimStart s))) as [ws2 E2].
  rewrite E1 in Hs. apply List.Forall_app in Hs as [_ Hs].
  apply List.Forall_rev in Hs. rewrite E2 in Hs. apply List.Forall_app in Hs as [_ Hs].
  by apply List.Forall_rev.
Qed.

(** A string that does not begin with U+FEFF keeps its first code unit's
    being no U+FEFF when it is made well formed. *)
Lemma withoutBOM_toWellFormed s :
  starts_with_bom s = false -> withoutBOM (toWellFormed s) = toWellFormed s.
Proof.
  destruct s as [|c s]; [done|]. cbn [starts_with_bom toWellFormed]. intros Hc.
  destruct (is_high_surrogate c) eqn:Hh.
  - destruct s as [|d s]; [done|]. destruct (is_low_surrogate d); cbn [withoutBOM];
      [by rewrite Hc|done].
  - destruct (is_low_surrogate c); cbn [withoutBOM]; [done|by rewrite Hc].
Qed.

Lemma trim_no_bom s : starts_with_bom (Chat.trim s) = false.
Proof.
  destruct (Chat.trim s) as [|c r] eqn:E; [done|]. cbn [starts_with_bom].
  apply trim_head in E. destruct (N.eqb_spec c 0xFEFF) as [->|]; [|done].
  by vm_compute in E.
Qed.

(** The text of a buffer that is not empty is not empty. *)
Lemma arrayBufferToB64_truthy buffer : buffer <> [] -> truthy (arrayBufferToB64 buffer) = true.
Proof.
  unfold arrayBufferToB64, Base64.encode. destruct buffer as [|a [|b [|c r]]]; done.
Qed.

End ComposerProofs.
(** ** What is sent is what is shown *)

Module ComposerLaws.
Import Encoding Text Crypto Composer ComposerProofs Samples.

(** X14 (Chat.tsx, [handleSendMessage], [handleMessage], [MessageItem]).
    A message that is blank after [trim], or typed while no chat is
    selected, is not sent.  Otherwise, with both sides deriving the same
    key, the payload carries the sender's name, the clock reading and the
    trimmed text; the sender's own item shows the trimmed text, and at the
    partner the entry enters the timeline under its key and its item shows
    the trimmed text made well formed (the same text unless it holds a
    surrogate without its partner; a leading U+FEFF cannot occur, [trim]
    removes it). *)
Theorem sent_text_reaches_the_partner {C : SubtleCrypto} {Engine : SortEngine}
    (H : AesGcmCorrect C)
    (mine theirs : jsstring -> result CryptoKey)
    (currentUser : jsstring) (chat : Chat.ChatSession) (inputMsg : jsstring)
    (nonce : list byte) (now : Z) (sharedKey : CryptoKey) (key : jsstring) :
  (Chat.trim inputMsg = [] ->
   forall currentChat,
     handleSendMessage mine currentUser currentChat inputMsg nonce now = Ignored)
  /\ handleSendMessage mine currentUser None inputMsg nonce now = Ignored
  /\ (code_units inputMsg -> Chat.trim inputMsg <> [] ->
      mine (Chat.partner chat) = Ok sharedKey -> theirs currentUser = Ok sharedKey ->
      Chat.partner chat <> currentUser -> nonce <> [] ->
      subtle_encrypt sharedKey nonce (textToArrayBuffer (Chat.trim inputMsg)) <> [] ->
      exists payload,
        handleSendMessage mine currentUser (Some chat) inputMsg nonce now
        = Sent (Chat.id chat) payload
        /\ sender payload = currentUser /\ timestamp payload = Millis now
        /\ MessageItem.process mine currentUser (Chat.partner chat) (with_key payload key)
           = {| MessageItem.decryptedText := Some (Chat.trim inputMsg);
                MessageItem.fileUrl := None |}
        /\ MessageItem.process theirs (Chat.partner chat) currentUser (with_key payload key)
           = {| MessageItem.decryptedText := Some (toWellFormed (Chat.trim inputMsg));
                MessageItem.fileUrl := None |}
        /\ (forall st at_time,
              Chat.listening st = Some (Chat.id chat) -> key <> [] ->
              key ∉ Chat.renderedMessageKeys st ->
              key ∉ Chat.entryKeys (Chat.messages st) ->
              with_key payload key
              ∈ Chat.messages
                  (Chat.deliver (Chat.id chat)
                     {| Chat.at_time := at_time; Chat.cb_msg := Some payload;
                        Chat.cb_key := key |} st))).
Proof.
  split; [|split].
  - intros E currentChat. unfold handleSendMessage. by rewrite E.
  - unfold handleSendMessage. by destruct (negb _).
  - intros Hunits Htext Hmine Htheirs Hpeer Hnonce Hct.
    eexists. split; [|split; [|split; [|split; [|split]]]].
    + unfold handleSendMessage. rewrite Hmine.
      rewrite (proj2 (ChatProofs.truthy_nonempty _) Htext). cbn [negb]. reflexivity.
    + reflexivity.
    + reflexivity.
    + unfold MessageItem.process. cbn [with_key sender isFile text truthy_field].
      rewrite bool_decide_eq_true_2 by done.
      by rewrite (proj2 (ChatProofs.truthy_nonempty _) Htext).
    + unfold MessageItem.process. cbn [with_key sender isFile text ct iv truthy_field].
      rewrite bool_decide_eq_false_2 by congruence. cbn [andb]. rewrite Htheirs.
      assert (truthy (enc_ct (encryptMessage sharedKey nonce (Chat.trim inputMsg))) = true)
        as -> by by apply arrayBufferToB64_truthy.
      assert (truthy (enc_iv (encryptMessage sharedKey nonce (Chat.trim inputMsg))) = true)
        as -> by by apply arrayBufferToB64_truthy.
      cbn [andb].
      pose proof (CryptoProofs.decrypt_encrypt_text H sharedKey nonce (Chat.trim inputMsg))
        as Hd. cbn zeta in Hd. rewrite Hd. unfold arrayBufferToText, textToArrayBuffer.
      rewrite CodecProofs.TextDecoder_TextEncoder_any by by apply trim_Forall.
      by rewrite withoutBOM_toWellFormed by apply trim_no_bom.
    + intros st at_time Hl Hkey Hfresh Hnew. unfold Chat.deliver.
      rewrite bool_decide_eq_true_2 by done.
      match goal with
      | |- context [Chat.handleMessage ?c ?cb st] =>
          destruct (ChatProofs.handleMessage_cases c cb st)
            as [(E & _)|(msg & Hmsg & _ & _ & _ & E & _)];
          set (st' := Chat.handleMessage c cb st) in *
      end.
      * exfalso. revert E. unfold st', Chat.handleMessage. cbn [Chat.cb_msg Chat.cb_key].
        rewrite (proj2 (ChatProofs.truthy_nonempty _) Hkey). cbn [negb orb].
        rewrite bool_decide_eq_false_2 by done.
        rewrite (proj2 (ChatProofs.some_key_false _ _) Hnew). cbn [Chat.messages].
        apply ChatProofs.Array_sort_snoc_neq.
      * cbn [Chat.cb_msg Chat.cb_key] in Hmsg, E. injection Hmsg as <-.
        match goal with |- ?p ∈ _ => assert (p ∈ Chat.messages st') as Hin end.
        { rewrite E. apply list_elem_of_In.
          apply (Permutation_in _ (Permutation_sym (sort_by_key_perm _ _))).
          apply in_or_app. right. by left. }
        by case_bool_decide.
Qed.

(** alice sends "  hi " to bob with the stand-in primitive. *)
Lemma sent_text_reaches_the_partner_witness :
  exists payload,
    handleSendMessage (C := ToyGcm.subtle) (fun _ => Ok toy_key) alice (Some alice_bob)
      (lit "  hi ") toy_nonce 1700000000000
    = Sent (lit "alice:bob") payload
    /\ MessageItem.process (C := ToyGcm.subtle) (fun _ => Ok toy_key) bob alice
         (with_key payload (lit "k1"))
       = {| MessageItem.decryptedText := Some (lit "hi"); MessageItem.fileUrl := None |}.
Proof.
  destruct (sent_text_reaches_the_partner (C := ToyGcm.subtle) (Engine := V8.engine)
              ToyGcmProofs.toy_correct
              (fun _ => Ok toy_key) (fun _ => Ok toy_key) alice alice_bob (lit "  hi ")
              toy_nonce 1700000000000 toy_key (lit "k1")) as (_ & _ & Hsent).
  destruct Hsent as (payload & E & _ & _ & _ & Hshown & _);
    [unfold code_units; repeat (constructor; [reflexivity|]); constructor
    |discriminate|reflexivity|reflexivity|discriminate|discriminate|discriminate|].
  exists payload. split; [exact E|exact Hshown].
Defined.

(** X15 (Chat.tsx, [handleFileUpload] and [MessageItem]; cryptoService.ts,
    [encryptFile] and [decryptFile]).  A file of more than 5 MiB is never
    sent.  A file within the limit is sent whether or not its name ends in
    an executable's extension (the warning does not stop the upload); its
    payload carries the name, type and size of the file, and with both
    sides deriving the same key the partner's item gets exactly the bytes
    of the file. *)
Theorem uploaded_file_reaches_the_partner {C : SubtleCrypto} (H : AesGcmCorrect C)
    (mine theirs : jsstring -> result CryptoKey) (toLowerCase : jsstring -> jsstring)
    (currentUser : jsstring) (chat : Chat.ChatSession) (f : File)
    (nonce : list byte) (now : Z) (sharedKey : CryptoKey) (key : jsstring) :
  ((MAX_SIZE_BYTES < file_size f)%Z ->
   handleFileUpload mine toLowerCase currentUser (Some chat) (Some f) nonce now = TooLarge)
  /\ ((file_size f <= MAX_SIZE_BYTES)%Z ->
      mine (Chat.partner chat) = Ok sharedKey -> theirs currentUser = Ok sharedKey ->
      Chat.partner chat <> currentUser -> nonce <> [] ->
      subtle_encrypt sharedKey nonce (file_bytes f) <> [] ->
      exists payload,
        handleFileUpload mine toLowerCase currentUser (Some chat) (Some f) nonce now
        = Uploaded
            (existsb (fun ext => endsWith (toLowerCase (file_name f)) ext)
               dangerousExtensions)
            (Chat.id chat) payload
        /\ sender payload = currentUser /\ isFile payload = true
        /\ name payload = Some (file_name f) /\ type payload = Some (file_type f)
        /\ size payload = Some (file_size f)
        /\ MessageItem.process theirs (Chat.partner chat) currentUser (with_key payload key)
           = {| MessageItem.decryptedText := None;
                MessageItem.fileUrl := Some (file_bytes f) |}).
Proof.
  split.
  - intros Hbig. unfold handleFileUpload. by rewrite (proj2 (Z.ltb_lt _ _) Hbig).
  - intros Hsmall Hmine Htheirs Hpeer Hnonce Hct.
    eexists. split; [|split; [|split; [|split; [|split; [|split]]]]].
    + unfold handleFileUpload. rewrite (proj2 (Z.ltb_ge _ _) Hsmall), Hmine. reflexivity.
    + reflexivity.
    + reflexivity.
    + reflexivity.
    + reflexivity.
    + reflexivity.
    + unfold MessageItem.process.
      cbn [with_key sender isFile ctFile ivFile ct iv].
      rewrite bool_decide_eq_false_2 by congruence. rewrite Htheirs.
      unfold MessageItem.or_else. cbn [truthy_field].
      assert (truthy (enc_ct (encryptFile sharedKey nonce (file_bytes f))) = true)
        as Hc by by apply arrayBufferToB64_truthy.
      assert (truthy (enc_iv (encryptFile sharedKey nonce (file_bytes f))) = true)
        as Hi by by apply arrayBufferToB64_truthy.
      rewrite !Hc, !Hi. cbn beta iota. cbn [andb].
      unfold encryptFile, decryptFile. cbn [enc_ct enc_iv].
      rewrite !b64ToArrayBuffer_arrayBufferToB64. by rewrite decrypt_encrypt.
Qed.

(** "run.JS", six bytes: the extension is matched after lowering the case,
    and the file is sent all the same. *)
Lemma uploaded_file_reaches_the_partner_witness :
  let f := {| file_name := lit "run.js"; file_type := lit "text/javascript";
              file_bytes := [Byte.x00; Byte.xff; Byte.x0a; Byte.xef; Byte.xbb; Byte.xbf] |} in
  exists payload,
    handleFileUpload (C := ToyGcm.subtle) (fun _ => Ok toy_key) (fun s => s) alice
      (Some alice_bob) (Some f) toy_nonce 1700000000000
    = Uploaded true (lit "alice:bob") payload
    /\ MessageItem.process (C := ToyGcm.subtle) (fun _ => Ok toy_key) bob alice
         (with_key payload (lit "k2"))
       = {| MessageItem.decryptedText := None; MessageItem.fileUrl := Some (file_bytes f) |}.
Proof.
  intros f.
  destruct (uploaded_file_reaches_the_partner (C := ToyGcm.subtle) ToyGcmProofs.toy_correct
              (fun _ => Ok toy_key) (fun _ => Ok toy_key) (fun s => s) alice alice_bob f
              toy_nonce 1700000000000 toy_key (lit "k2")) as (_ & Hsent).
  destruct Hsent as (payload & E & _ & _ & _ & _ & _ & Hshown);
    [vm_compute; discriminate|reflexivity|reflexivity|discriminate|discriminate
    |discriminate|].
  exists payload. split; [exact E|exact Hshown].
Defined.

End ComposerLaws.

(** ** ChatWindow.tsx: from the input field to the list *)

Module WindowComposerLaws.
Import Text Crypto ChatWindow WindowComposer ComposerProofs Samples.

(** X16 (ChatWindow.tsx, [handleSendMessage] and the callback of the
    message effect; part_001, [listenForMessages]).  A blank message is not
    sent, nor one without a contact or a key.  A message that is sent comes
    back through the listener of the chat: once its decryption has
    settled, the list shown holds it under the key Gun gave it, with the
    text as it was typed (white space at the ends kept), made well formed
    and without a U+FEFF at its start. *)
Theorem window_message_comes_back {C : SubtleCrypto} {Engine : SortEngine}
    (H : AesGcmCorrect C)
    (st : WindowState) (c : Contact) (k : CryptoKey) (l : Listener)
    (newMessage : jsstring) (nonce : list byte) (now : Z) (i : jsstring) :
  (Chat.trim newMessage = [] -> handleSendMessage st newMessage nonce now = None)
  /\ (contact st = None \/ sharedKey st = None ->
      handleSendMessage st newMessage nonce now = None)
  /\ (code_units newMessage -> Chat.trim newMessage <> [] ->
      contact st = Some c -> sharedKey st = Some k ->
      listener st = Some l -> chat l = chatId c -> key l = k ->
      Map_has i (default [] (heap st !! map_ref l)) = false ->
      user st <> [] -> now <> 0%Z -> nonce <> [] ->
      subtle_encrypt k nonce (textToArrayBuffer newMessage) <> [] ->
      exists payload,
        handleSendMessage st newMessage nonce now = Some (chatId c, payload)
        /\ with_text (with_id payload i) (Some (withoutBOM (toWellFormed newMessage)))
           ∈ messages (settle (length (awaiting st)) (arrive (chatId c) payload i st))).
Proof.
  split; [|split].
  - intros E. unfold handleSendMessage. by rewrite E.
  - intros Hno. unfold handleSendMessage. destruct (negb _); [done|].
    destruct Hno as [-> | ->]; [done|]. by destruct (contact st).
  - intros Hunits Htext Hc Hk Hl Hchat Hkey Hfresh Huser Hnow Hnonce Hct.
    eexists. split.
    { unfold handleSendMessage. rewrite Hc, Hk.
      rewrite (proj2 (ChatProofs.truthy_nonempty _) Htext). cbn [negb]. reflexivity. }
    set (e := CryptoService.encryptMessage k nonce newMessage).
    set (payload := {| id := []; sender := user st; ct := Some (enc_ct e);
                       iv := Some (enc_iv e); timestamp := Millis now; text := Some newMessage |}).
    assert (truthy (enc_ct e) = true) as Tc by by apply arrayBufferToB64_truthy.
    assert (truthy (enc_iv e) = true) as Ti by by apply arrayBufferToB64_truthy.
    (* the callback suspends at the decryption *)
    assert (arrive (chatId c) payload i st
            = {| user := user st; contact := contact st; sharedKey := sharedKey st;
                 messages := messages st; heap := heap st; listener := listener st;
                 awaiting := awaiting st ++ [{| task_listener := l;
                                               task_msg := with_id payload i;
                                               task_id := i |}] |}) as Ea.
    { unfold arrive. rewrite Hl, Hchat. rewrite bool_decide_eq_true_2 by done.
      unfold complete_enough. cbn [payload sender timestamp truthy_timestamp].
      rewrite (proj2 (ChatProofs.truthy_nonempty _) Huser).
      rewrite (proj2 (Z.eqb_neq _ _) Hnow). cbn [andb negb].
      unfold callback. rewrite Hfresh.
      unfold needs_decrypt. cbn [with_id payload ct iv truthy_field].
      rewrite Tc, Ti. cbn [andb]. by rewrite Hl. }
    rewrite Ea. unfold settle. cbn [awaiting].
    rewrite lookup_app_r by done. rewrite Nat.sub_diag. cbn [lookup list_lookup].
    cbn [task_listener task_msg task_id]. unfold finish. cbn [messages heap].
    apply list_elem_of_In.
    apply (Permutation_in _ (Permutation_sym (sort_by_key_perm _ _))).
    unfold Map_values. apply in_map_iff.
    exists (i, with_text (with_id payload i) (Some (withoutBOM (toWellFormed newMessage)))).
    split; [done|].
    assert (decrypted (key l) (with_id payload i) = withoutBOM (toWellFormed newMessage))
      as ->.
    { unfold decrypted. cbn [with_id payload ct iv]. rewrite Hkey.
      rewrite CryptoProofs.service_decryptMessage.
      pose proof (CryptoProofs.decrypt_encrypt_text H k nonce newMessage) as Hd.
      cbn zeta in Hd. unfold e, CryptoService.encryptMessage. rewrite Hd.
      unfold arrayBufferToText, textToArrayBuffer.
      by rewrite CodecProofs.TextDecoder_TextEncoder_any. }
    generalize (default [] (heap st !! map_ref l)). clear.
    intros m. induction m as [|[k' v'] m IH]; cbn [Map_set]; [by left|].
    case_bool_decide; [by left|by right].
Qed.

(** alice types " hi" to bob, the window with bob open. *)
Lemma window_message_comes_back_witness :
  exists payload,
    handleSendMessage (C := ToyGcm.subtle) window_with_bob (lit " hi") toy_nonce
      1700000000000
    = Some (lit "alice:bob", payload)
    /\ with_text (with_id payload (lit "k1")) (Some (lit " hi"))
       ∈ messages (settle (Engine := V8.engine) 0
                     (arrive (Engine := V8.engine) (lit "alice:bob") payload (lit "k1")
                        window_with_bob)).
Proof.
  destruct (window_message_comes_back (C := ToyGcm.subtle) (Engine := V8.engine)
              ToyGcmProofs.toy_correct
              window_with_bob bob_contact toy_key
              (@Build_Listener ToyGcm.subtle (lit "alice:bob") toy_key alice 0)
              (lit " hi") toy_nonce 1700000000000 (lit "k1")) as (_ & _ & Hback).
  apply Hback;
    [unfold code_units; repeat (constructor; [reflexivity|]); constructor
    |discriminate|reflexivity|reflexivity|reflexivity|reflexivity|reflexivity|reflexivity
    |discriminate|discriminate|discriminate|discriminate].
Defined.

End WindowComposerLaws.
(** ** The form of Auth.tsx *)

Module AuthProofs.
Import UserCache CacheAccess GunService AuthForm.

Lemma validateUsername_Valid u :
  validateUsername u = Valid ->
  (3 <= length (Chat.trim u) <= 20)%nat /\ Chat.validUsername (Chat.trim u) = true.
Proof.
  unfold validateUsername. destruct (_ || _); [done|]. cbn zeta.
  destruct (Nat.ltb_spec (length (Chat.trim u)) 3); [done|].
  destruct (Nat.ltb_spec 20 (length (Chat.trim u))); [done|].
  destruct (Chat.validUsername _); [|done]. intros _. split; [lia|done].
Qed.

Lemma validatePassword_Valid p : validatePassword p = Valid -> (6 <= length p)%nat.
Proof.
  unfold validatePassword. destruct (_ || _); [done|].
  destruct (Nat.ltb_spec (length p) 6); [done|]. intros _. lia.
Qed.

End AuthProofs.

Module AuthLaws.
Import UserCache CacheAccess GunService AuthForm AuthProofs Samples.

(** X17 (Auth.tsx, [validateUsername]; gunService.ts, [sanitizeForChatId]
    and [createChatLink]; Chat.tsx, [handleContact]).  A name the form
    accepts is, trimmed, three to twenty characters over [[a-zA-Z0-9_-]]:
    sanitising leaves it as it is, so for two accepted names that differ
    after trimming [createChatLink] returns their channel identifier (never
    [undefined]), and each side finds the other as the other party of it. *)
Theorem validated_names_get_channels (g : Graph) (u v : jsstring)
    (Hu : validateUsername u = Valid) (Hv : validateUsername v = Valid)
    (Huv : Chat.trim u <> Chat.trim v) :
  let a := Chat.trim u in
  let b := Chat.trim v in
  (3 <= length a <= 20)%nat
  /\ restricted a
  /\ sanitizeForChatId a = a
  /\ (createChatLink (Some g) a b).1 = Some (sortedJoin a b)
  /\ Contacts.partnerOf a (sortedJoin a b) = Some b
  /\ Contacts.partnerOf b (sortedJoin a b) = Some a.
Proof.
  intros a b.
  destruct (validateUsername_Valid u Hu) as [Hlen Ha].
  destruct (validateUsername_Valid v Hv) as [_ Hb].
  apply ContactsProofs.validUsername_restricted in Ha, Hb.
  split; [exact Hlen|]. split; [exact Ha|].
  split; [by apply GunServiceProofs.sanitize_restricted|].
  split; [by apply GunServiceProofs.createChatLink_restricted|].
  split; [by apply ContactsProofs.partnerOf_sortedJoin|].
  rewrite GunServiceProofs.sortedJoin_comm.
  apply ContactsProofs.partnerOf_sortedJoin; [done|done|]. unfold a, b. congruence.
Qed.

Lemma validated_names_get_channels_witness :
  (createChatLink (Some ∅) alice bob).1 = Some (lit "alice:bob")
  /\ Contacts.partnerOf alice (lit "alice:bob") = Some bob.
Proof.
  destruct (validated_names_get_channels ∅ (lit " alice") (lit "bob  "))
    as (_ & _ & _ & Hlink & Hpartner & _); [reflexivity|reflexivity|discriminate|].
  split; [exact Hlink|exact Hpartner].
Defined.

Section WithPlatform.
Variable JSON_parse : jsstring -> option JsValue.
Variable JSON_stringify : JsonWebKey -> jsstring.
Variables PrivateKey PublicKey : Type.
Variable decryptPrivateKey : jsstring -> jsstring -> JsValue.
Variable encryptPrivateKey : JsonWebKey -> jsstring -> jsstring.
Variable importPrivKey : JsonWebKey -> option PrivateKey.
Variable importPubKey : JsonWebKey -> option PublicKey.

Local Abbreviation handleSubmit :=
  (handleSubmit JSON_parse JSON_stringify decryptPrivateKey encryptPrivateKey
     importPrivKey importPubKey).
Local Abbreviation login := (login decryptPrivateKey importPrivKey importPubKey).

(** What a login that called [onLogin] went through. *)
Lemma login_loggedIn now (st : AuthState PrivateKey PublicKey) g restored name user
    who sk pk :
  loggedIn st = None ->
  loggedIn (login now st g restored name user) = Some (who, sk, pk) ->
  who = name
  /\ exists priv pub,
       decryptPrivateKey (n_encryptedPrivKey user) (form_password st) = JObject priv
       /\ n_pubKey user = JObject pub
       /\ importPrivKey priv = Some sk /\ importPubKey pub = Some pk.
Proof.
  intros Hnone. unfold login.
  destruct (falsy _); [cbn; congruence|].
  destruct (decryptPrivateKey _ _) as [| | | | |priv]; try (cbn; congruence).
  destruct (n_pubKey user) as [| | | | |pub]; try (cbn; congruence).
  destruct (importPrivKey priv) as [sk'|] eqn:Es; [|cbn; congruence].
  destruct (importPubKey pub) as [pk'|] eqn:Ek; [|cbn; congruence].
  cbn [loggedIn]. intros [= <- <- <-]. split; [done|]. by exists priv, pub.
Qed.

Lemma login_storage now (st : AuthState PrivateKey PublicKey) g restored name user :
  storage (login now st g restored name user) <> storage st ->
  is_Some (loggedIn (login now st g restored name user)).
Proof.
  unfold login.
  destruct (falsy _); [cbn; congruence|].
  destruct (decryptPrivateKey _ _) as [| | | | |priv]; try (cbn; congruence).
  destruct (n_pubKey user) as [| | | | |pub]; try (cbn; congruence).
  destruct (importPrivKey priv) as [sk'|]; [|cbn; congruence].
  destruct (importPubKey pub) as [pk'|]; [|cbn; congruence].
  cbn [loggedIn]. by eexists.
Qed.

(** X18 (Auth.tsx, [handleSubmit], [validateUsername], [validatePassword]).
    A form whose name or password does not validate gets its status line
    and nothing else: no field, no replica, no storage changes, whatever
    Gun would have answered.  [onLogin] is called only on the login tab,
    for the trimmed name, with keys imported from a private key that
    [decryptPrivateKey] opened with the password typed and from the public
    key of the same record, a record Gun answered or the local backup
    held.  The cache is written only by a login that called [onLogin] or a
    signup that ended with its success line. *)
Theorem handleSubmit_guards (now : Z) (answers : bool)
    (generated : option (JsonWebKey * JsonWebKey))
    (st : AuthState PrivateKey PublicKey)
    (Hnew : loggedIn st = None) :
  let st' := handleSubmit now answers generated st in
  let name := Chat.trim (form_username st) in
  (validateUsername (form_username st) <> Valid
   \/ validatePassword (form_password st) <> Valid ->
   exists m, forall answers' generated',
     handleSubmit now answers' generated' st = refused st m)
  /\ (forall who sk pk,
        loggedIn st' = Some (who, sk, pk) ->
        isLogin st = true /\ who = name
        /\ exists epk priv pub,
             decryptPrivateKey epk (form_password st) = JObject priv
             /\ importPrivKey priv = Some sk /\ importPubKey pub = Some pk
             /\ (normalizeGunUser JSON_parse (checkUserExists (gun st) answers name)
                 = Some {| n_pubKey := JObject pub; n_encryptedPrivKey := epk |}
                 \/ loadUserFromCache (storage st) name
                    = Some {| pubKey := pub; encryptedPrivKey := epk |}))
  /\ (storage st' <> storage st ->
      is_Some (loggedIn st')
      \/ status st' = Some {| msg := SIGNUP_SUCCESSFUL; error := false |}).
Proof.
  intros st' name. split; [|split].
  - intros Hbad. unfold AuthForm.handleSubmit.
    destruct (validateUsername _) as [|e]; [|by exists e].
    destruct (validatePassword _) as [|e]; [|by exists e].
    by destruct Hbad.
  - intros who sk pk. unfold st', AuthForm.handleSubmit.
    destruct (validateUsername _) as [|e]; [|cbn; congruence].
    destruct (validatePassword _) as [|e]; [|cbn; congruence].
    cbn zeta. fold name.
    destruct (isLogin st) eqn:El.
    + destruct (normalizeGunUser _ _) as [user|] eqn:En.
      * intros Hin. apply login_loggedIn in Hin as (-> & priv & pub & Hd & Hp & Hs & Hk);
          [|done].
        split; [done|]. split; [done|].
        exists (n_encryptedPrivKey user), priv, pub. repeat split; try done.
        left. destruct user as [p e]. cbn in *. by subst p.
      * destruct (loadUserFromCache _ _) as [cached|] eqn:Ec; [|cbn; congruence].
        destruct (createUser _ _ _ _ _) as [g|e]; [|cbn; congruence].
        intros Hin. apply login_loggedIn in Hin as (-> & priv & pub & Hd & Hp & Hs & Hk);
          [|done].
        cbn in Hd, Hp. injection Hp as <-.
        split; [done|]. split; [done|].
        exists (encryptedPrivKey cached), priv, (pubKey cached). repeat split; try done.
        right. by destruct cached.
    + destruct (match normalizeGunUser _ _ with Some _ => _ | None => _ end);
        [cbn; congruence|].
      destruct generated as [[pub priv]|]; [|cbn; congruence].
      destruct (createUser _ _ _ _ _); cbn; congruence.
  - unfold st', AuthForm.handleSubmit.
    destruct (validateUsername _) as [|e]; [|cbn; congruence].
    destruct (validatePassword _) as [|e]; [|cbn; congruence].
    cbn zeta. fold name.
    destruct (isLogin st) eqn:El.
    + destruct (normalizeGunUser _ _) as [user|] eqn:En.
      * intros Hs. left. by apply login_storage in Hs.
      * destruct (loadUserFromCache _ _) as [cached|] eqn:Ec; [|cbn; congruence].
        destruct (createUser _ _ _ _ _) as [g|e]; [|cbn; congruence].
        intros Hs. left. by apply login_storage in Hs.
    + destruct (match normalizeGunUser _ _ with Some _ => _ | None => _ end);
        [cbn; congruence|].
      destruct generated as [[pub priv]|]; [|cbn; congruence].
      destruct (createUser _ _ _ _ _); [|cbn; congruence].
      intros _. by right.
Qed.

(** X19 (Auth.tsx, [handleSubmit] on the signup tab, [normalizeGunUser];
    gunService.ts, [checkUserExists] and [createUser]).  When Gun answers
    with a user node that has a public key the form can read and a private
    key, the signup stops with "Username already taken." and changes
    neither the replica nor the storage.  The check rests on that answer
    alone: when Gun does not answer within the wait, the same signup goes
    through and [createUser] replaces the keys of the node. *)
Theorem signup_protects_answered_accounts (now : Z)
    (st : AuthState PrivateKey PublicKey) (g : GunState) (u : GunUser)
    (pub priv : JsonWebKey)
    (Htab : isLogin st = false)
    (Hname : validateUsername (form_username st) = Valid)
    (Hpass : validatePassword (form_password st) = Valid)
    (Hgun : gun st = Some g)
    (Hnode : users g !! Chat.trim (form_username st) = Some u)
    (Hpub : falsy (user_pubKey u) = false)
    (Hparse : forall s, user_pubKey u = JString s -> is_Some (JSON_parse s))
    (Hpriv : user_privKey u <> []) :
  (forall generated,
     handleSubmit now true generated st = stopped st (gun st) USERNAME_TAKEN true)
  /\ exists g',
       gun (handleSubmit now false (Some (pub, priv)) st) = Some g'
       /\ users g' !! Chat.trim (form_username st)
          = Some {| user_pubKey := JString (JSON_stringify pub);
                    user_privKey := encryptPrivateKey priv (form_password st) |}.
Proof.
  split.
  - intros generated. unfold AuthForm.handleSubmit. rewrite Hname, Hpass, Htab, Hgun.
    cbn zeta. unfold checkUserExists. rewrite Hnode. unfold normalizeGunUser.
    rewrite Hpub, (proj2 (ChatProofs.truthy_nonempty _) Hpriv). cbn [negb orb].
    destruct (user_pubKey u) as [| |b|n|s|members] eqn:Ek; try done;
      try (destruct (Hparse s eq_refl) as [v ->]);
      cbn [n_pubKey n_encryptedPrivKey];
      rewrite (proj2 (ChatProofs.truthy_nonempty _) Hpriv); by rewrite orb_true_r.
  - unfold AuthForm.handleSubmit. rewrite Hname, Hpass, Htab, Hgun. cbn zeta.
    cbn [checkUserExists normalizeGunUser createUser gun]. eexists. split; [done|].
    cbn [users]. apply lookup_insert_eq.
Qed.

(** X20 (Auth.tsx, [handleSubmit] on both tabs; gunService.ts,
    [createUser] and [checkUserExists]; userCache.ts, [saveUserToCache] and
    [loadUserFromCache]).  A signup for a free name creates the user and
    switches to the login tab with empty fields.  Logging in with the same
    name and password then calls [onLogin] with the keys imported from the
    generated pair: through the node [createUser] wrote when Gun answers,
    and, when Gun does not answer and the storage took the signup's write,
    through the local backup, from which the account is published again.
    This rests on [JSON.parse] undoing [JSON.stringify] on the public key
    and [decryptPrivateKey] undoing [encryptPrivateKey] with the same
    password. *)
Theorem signup_then_login (now now' : Z) (answers : bool)
    (g : GunState) (s : Storage) (name password : jsstring)
    (pub priv : JsonWebKey) (sk : PrivateKey) (pk : PublicKey)
    (generated' : option (JsonWebKey * JsonWebKey))
    (Hname : validateUsername name = Valid)
    (Hpass : validatePassword password = Valid)
    (Hfree : normalizeGunUser JSON_parse (checkUserExists (Some g) answers (Chat.trim name))
             = None)
    (Hjson : JSON_parse (JSON_stringify pub) = Some (JObject pub))
    (Hempty : JSON_parse [] = None)
    (Hcrypt : decryptPrivateKey (encryptPrivateKey priv password) password = JObject priv)
    (Hwrapped : encryptPrivateKey priv password <> [])
    (Hsk : importPrivKey priv = Some sk)
    (Hpk : importPubKey pub = Some pk) :
  let signedUp :=
    handleSubmit now answers (Some (pub, priv))
      (typed name password (fresh PrivateKey PublicKey true (Some g) (Some s))) in
  status signedUp = Some {| msg := SIGNUP_SUCCESSFUL; error := false |}
  /\ isLogin signedUp = true
  /\ form_username signedUp = [] /\ form_password signedUp = []
  /\ loggedIn (handleSubmit now' true generated' (typed name password signedUp))
     = Some (Chat.trim name, sk, pk)
  /\ (Contacts.accepting (Some s) ->
      let restored := handleSubmit now' false generated' (typed name password signedUp) in
      loggedIn restored = Some (Chat.trim name, sk, pk)
      /\ status restored = Some {| msg := ACCOUNT_RESTORED; error := false |}).
Proof.
  intros signedUp.
  assert (JSON_stringify pub <> []) as Hs by (intros E; rewrite E in Hjson; congruence).
  set (record := {| user_pubKey := JString (JSON_stringify pub);
                    user_privKey := encryptPrivateKey priv password |}).
  set (g1 := {| users := <[Chat.trim name := record]> (users g);
                chats := delete (Chat.trim name) (chats g) |}).
  assert (signedUp
          = {| isLogin := true; form_username := []; form_password := [];
               status := Some {| msg := SIGNUP_SUCCESSFUL; error := false |};
               loading := false; gun := Some g1;
               storage := (Auth.cacheUser (Some s) now (Chat.trim name) pub
                             (encryptPrivateKey priv password)).1;
               loggedIn := None |}) as E1.
  { unfold signedUp, AuthForm.handleSubmit, typed, fresh.
    cbn [form_username form_password isLogin gun storage loggedIn negb].
    rewrite Hname, Hpass. cbn zeta. by rewrite Hfree. }
  rewrite E1. cbn [status isLogin form_username form_password].
  split; [done|]. split; [done|]. split; [done|]. split; [done|].
  assert (forall st g2 restored,
            form_password st = password ->
            AuthForm.login decryptPrivateKey importPrivKey importPubKey now' st g2 restored
              (Chat.trim name)
              {| n_pubKey := JObject pub;
                 n_encryptedPrivKey := encryptPrivateKey priv password |}
            = {| isLogin := isLogin st; form_username := form_username st;
                 form_password := form_password st;
                 status := if restored
                           then Some {| msg := ACCOUNT_RESTORED; error := false |}
                           else None;
                 loading := false; gun := g2;
                 storage := (Auth.cacheUser (storage st) now' (Chat.trim name) pub
                               (encryptPrivateKey priv password)).1;
                 loggedIn := Some (Chat.trim name, sk, pk) |}) as Hlogin.
  { intros st g2 restored Ep. unfold AuthForm.login. cbn [n_pubKey n_encryptedPrivKey].
    rewrite Ep, Hcrypt. cbn [falsy]. by rewrite Hsk, Hpk. }
  split.
  - unfold AuthForm.handleSubmit, typed.
    cbn [form_username form_password isLogin gun storage loggedIn].
    rewrite Hname, Hpass. cbn zeta.
    cbn [checkUserExists g1 users]. rewrite lookup_insert_eq.
    unfold normalizeGunUser. cbn [record user_pubKey user_privKey falsy].
    rewrite !(proj2 (ChatProofs.truthy_nonempty _)) by done. cbn [negb orb].
    rewrite Hjson. by rewrite Hlogin.
  - intros Hacc. unfold AuthForm.handleSubmit, typed.
    cbn [form_username form_password isLogin gun storage loggedIn].
    rewrite Hname, Hpass. cbn zeta.
    cbn [checkUserExists normalizeGunUser].
    assert (loadUserFromCache
              (Auth.cacheUser (Some s) now (Chat.trim name) pub
                 (encryptPrivateKey priv password)).1 (Chat.trim name)
            = Some {| pubKey := pub;
                      encryptedPrivKey := encryptPrivateKey priv password |}) as ->.
    { unfold Auth.cacheUser, saveUserToCache, setItem. cbn [Contacts.accepting] in Hacc.
      rewrite Hacc. cbn [fst]. unfold loadUserFromCache, getItem. cbn [items].
      rewrite CacheAccessProofs.lookup_upsert.
      by rewrite (proj2 (ChatProofs.truthy_nonempty _) Hwrapped). }
    cbn [createUser pubKey encryptedPrivKey]. by rewrite Hlogin.
Qed.

End WithPlatform.

(** A stand-in for CryptoJS: the wrapped key names its password. *)
Lemma handleSubmit_guards_witness :
  exists m, forall answers generated,
    handleSubmit parse_bob (fun _ => bob_key_json)
      (fun _ _ => JNull) (fun _ pw => pw) (fun jwk => Some jwk) (fun jwk => Some jwk)
      0 answers generated
      (typed (lit "al") (lit "secret1") (fresh JsonWebKey JsonWebKey false None None))
    = refused (typed (lit "al") (lit "secret1") (fresh JsonWebKey JsonWebKey false None None))
        m.
Proof.
  refine (proj1 (handleSubmit_guards parse_bob (fun _ => bob_key_json)
                   JsonWebKey JsonWebKey
                   (fun _ _ => JNull) (fun _ pw => pw) (fun jwk => Some jwk)
                   (fun jwk => Some jwk) 0 true None
                   (typed (lit "al") (lit "secret1")
                      (fresh JsonWebKey JsonWebKey false None None)) eq_refl) _).
  left. intros E. vm_compute in E. discriminate E.
Defined.

Lemma signup_protects_answered_accounts_witness :
  handleSubmit parse_bob MoreSamples.stringify MoreSamples.unwrap MoreSamples.wrap
    MoreSamples.import MoreSamples.import 0 true None
    (typed (lit "bob ") (lit "another")
       (fresh JsonWebKey JsonWebKey true (Some MoreSamples.with_bob) (Some roomy)))
  = stopped
      (typed (lit "bob ") (lit "another")
         (fresh JsonWebKey JsonWebKey true (Some MoreSamples.with_bob) (Some roomy)))
      (Some MoreSamples.with_bob) USERNAME_TAKEN true.
Proof.
  refine (proj1 (signup_protects_answered_accounts parse_bob MoreSamples.stringify
                   JsonWebKey JsonWebKey MoreSamples.unwrap MoreSamples.wrap
                   MoreSamples.import MoreSamples.import 0
                   (typed (lit "bob ") (lit "another")
                      (fresh JsonWebKey JsonWebKey true (Some MoreSamples.with_bob)
                         (Some roomy)))
                   MoreSamples.with_bob MoreSamples.bob_node bob_jwk bob_jwk
                   eq_refl eq_refl eq_refl eq_refl _ eq_refl _ _) None).
  - apply lookup_singleton_eq.
  - intros s [= <-]. by eexists.
  - discriminate.
Defined.

Lemma signup_then_login_witness :
  loggedIn
    (handleSubmit parse_bob MoreSamples.stringify MoreSamples.unwrap MoreSamples.wrap
       MoreSamples.import MoreSamples.import 9 true None
       (typed (lit " bob") (lit "secret1")
          (handleSubmit parse_bob MoreSamples.stringify MoreSamples.unwrap MoreSamples.wrap
             MoreSamples.import MoreSamples.import 5 true (Some (bob_jwk, bob_jwk))
             (typed (lit " bob") (lit "secret1")
                (fresh JsonWebKey JsonWebKey true (Some MoreSamples.nobody_yet)
                   (Some roomy))))))
  = Some (bob, bob_jwk, bob_jwk).
Proof.
  refine (proj1 (proj2 (proj2 (proj2 (proj2
            (signup_then_login parse_bob MoreSamples.stringify JsonWebKey JsonWebKey
               MoreSamples.unwrap MoreSamples.wrap MoreSamples.import MoreSamples.import
               5 9 true MoreSamples.nobody_yet roomy (lit " bob") (lit "secret1")
               bob_jwk bob_jwk bob_jwk bob_jwk None
               eq_refl eq_refl _ eq_refl eq_refl eq_refl _ eq_refl eq_refl)))))).
  - reflexivity.
  - discriminate.
Defined.

End AuthLaws.
(** ** The banner of the login page *)

Module TypewriterProofs.
Import Typewriter.

Section Banner.
Variable lines : list jsstring.

Lemma run_app n m st :
  run lines (n + m) st
  = let '(t1, st1) := run lines n st in
    let '(t2, st2) := run lines m st1 in
    ((t1 + t2)%Z, st2).
Proof.
  revert st. induction n as [|n IH]; intros st; cbn [run Nat.add].
  - by destruct (run lines m st).
  - destruct (step lines st) as [d st']. rewrite IH.
    destruct (run lines n st') as [t1 st1]. destruct (run lines m st1) as [t2 st2].
    f_equal. lia.
Qed.

(** Typing: [m] more characters of the line appear, 80 ms each. *)
Lemma run_typing m i k :
  (k + m <= length (nth i lines []))%nat ->
  run lines m {| text := take k (nth i lines []); msgIndex := i; isDeleting := false;
                 charIndex := Z.of_nat k |}
  = ((80 * Z.of_nat m)%Z,
     {| text := take (k + m) (nth i lines []); msgIndex := i; isDeleting := false;
        charIndex := Z.of_nat (k + m) |}).
Proof.
  revert k. induction m as [|m IH]; intros k Hk; cbn [run].
  - by rewrite Nat.add_0_r.
  - unfold step, currentMessage. cbn [isDeleting charIndex msgIndex text negb andb].
    rewrite (proj2 (Z.eqb_neq _ _)) by lia. cbn [andb].
    unfold substring0. replace (Z.to_nat (Z.of_nat k + 1)) with (S k) by lia.
    replace (Z.of_nat k + 1)%Z with (Z.of_nat (S k)) by lia.
    rewrite IH by lia. f_equal; [lia|].
    by replace (S k + m)%nat with (k + S m)%nat by lia.
Qed.

(** Deleting: [m] characters go, 40 ms each. *)
Lemma run_deleting m i k :
  (m <= k)%nat ->
  run lines m {| text := take k (nth i lines []); msgIndex := i; isDeleting := true;
                 charIndex := Z.of_nat k |}
  = ((40 * Z.of_nat m)%Z,
     {| text := take (k - m) (nth i lines []); msgIndex := i; isDeleting := true;
        charIndex := Z.of_nat (k - m) |}).
Proof.
  revert k. induction m as [|m IH]; intros k Hk; cbn [run].
  - by rewrite Nat.sub_0_r.
  - unfold step, currentMessage. cbn [isDeleting charIndex msgIndex text negb andb].
    rewrite (proj2 (Z.eqb_neq _ _)) by lia.
    unfold substring0. replace (Z.to_nat (Z.of_nat k - 1)) with (k - 1)%nat by lia.
    replace (Z.of_nat k - 1)%Z with (Z.of_nat (k - 1)) by lia.
    rewrite IH by lia. f_equal; [lia|].
    by replace (k - 1 - m)%nat with (k - S m)%nat by lia.
Qed.

Lemma step_Inv st : lines <> [] -> Inv lines st -> Inv lines (step lines st).2.
Proof.
  intros Hne (Hi & Hc & Ht). unfold step.
  destruct (isDeleting st) eqn:Ed; cbn [negb andb].
  - destruct (Z.eqb_spec (charIndex st) 0) as [E0|Hn0]; cbn [snd].
    + assert (((msgIndex st + 1) mod length lines < length lines)%nat) as Hlt.
      { apply Nat.mod_upper_bound. by destruct lines. }
      split; [exact Hlt|]. cbn [charIndex text msgIndex]. rewrite E0 in *.
      split; [lia|]. rewrite Ht. by rewrite !take_0.
    + split; [exact Hi|]. unfold currentMessage in *. cbn [charIndex text msgIndex].
      split; [lia|]. done.
  - destruct (Z.eqb_spec (charIndex st) (Z.of_nat (length (currentMessage lines st))))
      as [E|Hn]; cbn [snd].
    + split; [exact Hi|]. unfold currentMessage in *. by cbn [charIndex text msgIndex].
    + split; [exact Hi|]. unfold currentMessage in *. cbn [charIndex text msgIndex].
      split; [lia|]. done.
Qed.

Lemma run_Inv n st : lines <> [] -> Inv lines st -> Inv lines (run lines n st).2.
Proof.
  intros Hne. revert st. induction n as [|n IH]; intros st HI; cbn [run]; [done|].
  pose proof (step_Inv st Hne HI) as HI'. destruct (step lines st) as [d st'].
  specialize (IH st' HI'). by destruct (run lines n st').
Qed.

End Banner.

End TypewriterProofs.

Module TypewriterLaws.
Import Typewriter TypewriterProofs.

(** X21 (Typewriter.tsx, the effect of [Typewriter]).  However long the
    banner runs, the index of the line stays inside the list of lines (so
    [messages[msgIndex]] is never [undefined]), the count of characters
    stays between 0 and the length of the line, and the text shown is the
    line up to that count. *)
Theorem typewriter_shows_a_prefix (lines : list jsstring) (n : nat)
    (Hlines : lines <> []) :
  let st := (run lines n initial).2 in
  (msgIndex st < length lines)%nat
  /\ (0 <= charIndex st <= Z.of_nat (length (currentMessage lines st)))%Z
  /\ text st = take (Z.to_nat (charIndex st)) (currentMessage lines st).
Proof.
  apply (run_Inv lines n initial Hlines).
  split; [destruct lines; [done|cbn; lia]|]. cbn [charIndex initial text].
  split; [lia|]. by rewrite take_0.
Qed.

Lemma typewriter_shows_a_prefix_witness :
  text (run messages 100 initial).2
  = take (Z.to_nat (charIndex (run messages 100 initial).2))
      (currentMessage messages (run messages 100 initial).2).
Proof.
  refine (proj2 (proj2 (typewriter_shows_a_prefix messages 100 _))). discriminate.
Defined.

(** X22 (Typewriter.tsx, the effect of [Typewriter]).  From the state in
    which a line is about to be typed, the line stands in full after as
    many runs of the effect as it has characters, 80 ms each; after the
    pause of 2000 ms it is deleted at 40 ms a character, and the next
    line of the list (the first after the last) is about to be typed:
    every line is shown in turn. *)
Theorem typewriter_cycles (lines : list jsstring) (i : nat)
    (Hi : (i < length lines)%nat) :
  let len := length (nth i lines []) in
  run lines len (startOf i) = ((80 * Z.of_nat len)%Z, fullyTyped lines i)
  /\ run lines (2 * len + 2) (startOf i)
     = ((120 * Z.of_nat len + 2000)%Z, startOf ((i + 1) mod length lines)).
Proof.
  intros len.
  assert (run lines len (startOf i) = ((80 * Z.of_nat len)%Z, fullyTyped lines i)) as Htyped.
  { change (startOf i)
      with {| text := take 0 (nth i lines []); msgIndex := i; isDeleting := false;
              charIndex := Z.of_nat 0 |}.
    rewrite run_typing by (unfold len; lia). cbn [Nat.add].
    unfold fullyTyped, len. by rewrite firstn_all. }
  split; [exact Htyped|].
  replace (2 * len + 2)%nat with (len + (1 + (len + 1)))%nat by lia.
  rewrite run_app, Htyped. rewrite run_app.
  (* the pause *)
  assert (run lines 1 (fullyTyped lines i)
          = (2000%Z, {| text := take len (nth i lines []); msgIndex := i;
                        isDeleting := true; charIndex := Z.of_nat len |})) as ->.
  { cbn [run]. unfold step, currentMessage, fullyTyped.
    cbn [isDeleting charIndex msgIndex text negb andb]. rewrite Z.eqb_refl. cbn [andb].
    unfold len. by rewrite firstn_all. }
  rewrite run_app. rewrite run_deleting by lia. rewrite Nat.sub_diag.
  (* the next line *)
  cbn [run]. unfold step, currentMessage.
  cbn [isDeleting charIndex msgIndex text negb andb take]. cbn [Z.of_nat Z.eqb andb].
  unfold startOf. f_equal. lia.
Qed.

(** The banner of the application: "D-Chat" stands after 480 ms, and
    2720 ms after the start the second line is about to be typed. *)
Lemma typewriter_cycles_witness :
  run messages 6 initial = (480%Z, fullyTyped messages 0)
  /\ run messages 14 initial = (2720%Z, startOf 1).
Proof.
  apply (typewriter_cycles messages 0). vm_compute. lia.
Defined.

End TypewriterLaws.
(** ** The cost of a lookup *)

Module LookupLaws.
Import GunService Lookup Samples.

Section WithJson.
Variable JSON_parse : jsstring -> option JsValue.

Lemma attemptTimeout_bounds d : (0 <= d <= 2000)%Z -> (900 <= attemptTimeout d <= 1000)%Z.
Proof. unfold attemptTimeout. intros Hd. split; [lia|]. apply Z.max_lub; [lia|]. ndiv. Qed.

Lemma resolveLoop_bounds reads retries i d :
  (0 <= d <= 2000)%Z ->
  let events := (resolveLoop JSON_parse reads retries i d).2 in
  (attemptsOf events <= retries)%nat
  /\ List.Forall (within d) events
  /\ (budget events <= 3000 * Z.of_nat retries)%Z.
Proof.
  revert i d. induction retries as [|r IH]; intros i d Hd; cbn [resolveLoop].
  { cbn. split; [lia|]. split; [constructor|lia]. }
  pose proof (attemptTimeout_bounds d Hd) as Ht.
  destruct (nonEmpty _).
  - cbn [snd]. split; [cbn; lia|]. split; [constructor; [exact Ht|constructor]|]. cbn [budget fold_right]. lia.
  - pose proof (DirectoryProofs.nextDelay_grows d Hd) as Hg.
    pose proof (DirectoryProofs.nextDelay_capped d) as Hc.
    destruct (IH (S i) (nextDelay d)) as (Ha & Hw & Hb); [lia|].
    destruct (resolveLoop JSON_parse reads r (S i) (nextDelay d)) as [v events].
    cbn [snd] in *. split; [|split].
    + unfold attemptsOf in *. cbn [List.filter length]. lia.
    + constructor; [exact Ht|]. constructor; [cbn; lia|].
      eapply List.Forall_impl; [|exact Hw]. intros [t|ms]; cbn; lia.
    + cbn [budget fold_right]. fold (budget events). lia.
Qed.

(** X23 (gunService.ts, [fetchPartnerPubKey]).  For every number of
    retries and every first delay between 0 and 2000 ms, whatever the
    replica does: the lookup makes at most [retries] attempts, each raced
    against a timer of 900 to 1000 ms, and waits between the first delay
    and 2000 ms after an attempt that brought nothing, so it is over
    within 3000 ms per retry; with the defaults it is over within 9710 ms.
    Without Gun it returns [null] at once. *)
Theorem lookup_time_is_bounded
    (gun : option Graph) (reads : nat -> Read) (retries : nat) (delayMs : Z)
    (Hdelay : (0 <= delayMs <= 2000)%Z) :
  let events := (fetchPartnerPubKey JSON_parse gun reads retries delayMs).2 in
  (attemptsOf events <= retries)%nat
  /\ List.Forall (within delayMs) events
  /\ (budget events <= 3000 * Z.of_nat retries)%Z
  /\ (budget (fetchPartnerPubKey JSON_parse gun reads DEFAULT_RETRIES DEFAULT_DELAY).2
      <= 9710)%Z
  /\ fetchPartnerPubKey JSON_parse None reads retries delayMs = (JNull, []).
Proof.
  intros events. unfold events, fetchPartnerPubKey. destruct gun as [g|].
  - destruct (resolveLoop_bounds reads retries 0 delayMs Hdelay) as (Ha & Hw & Hb).
    split; [exact Ha|]. split; [exact Hw|]. split; [exact Hb|]. split; [|done].
    unfold DEFAULT_RETRIES, DEFAULT_DELAY. cbn [resolveLoop].
    repeat (destruct (nonEmpty _); [vm_compute; discriminate|]).
    vm_compute. discriminate.
  - cbn. split; [lia|]. split; [constructor|]. split; [lia|]. split; [lia|done].
Qed.

End WithJson.

Lemma lookup_time_is_bounded_witness :
  (budget (fetchPartnerPubKey parse_bob (Some ∅) nobody DEFAULT_RETRIES DEFAULT_DELAY).2
   <= 9710)%Z
  /\ (budget (fetchPartnerPubKey parse_bob (Some ∅) third_time DEFAULT_RETRIES
                DEFAULT_DELAY).2 <= 9710)%Z.
Proof.
  split.
  - refine (proj1 (proj2 (proj2 (proj2
              (lookup_time_is_bounded parse_bob (Some ∅) nobody 5 700 _))))). lia.
  - refine (proj1 (proj2 (proj2 (proj2
              (lookup_time_is_bounded parse_bob (Some ∅) third_time 5 700 _))))). lia.
Defined.

End LookupLaws.
(** ** Chat.tsx and its cache *)

Module ChatCacheProofs.
Import UserCache Chat Contacts.

Lemma triple_eta {A B D : Type} (x : A * B * D) : x = (x.1.1, x.1.2, x.2).
Proof. by destruct x as [[? ?] ?]. Qed.

Lemma removeOldest_refuses s kts n : refuses (removeOldest s kts n) = refuses s.
Proof.
  revert s kts. induction n as [|n IH]; intros s [|kt kts]; cbn [removeOldest]; try done.
  by rewrite IH.
Qed.

Lemma setItem_refuses s k v s' : setItem s k v = Ok s' -> refuses s' = refuses s.
Proof. unfold setItem. destruct (refuses s _ _ _); [done|]. by intros [= <-]. Qed.

(** The browser's decisions stay what they are whatever is saved. *)
Lemma saveMessagesToCache_accepting s now now' theChat msgs :
  accepting (saveMessagesToCache s now now' theChat msgs).1 <-> accepting s.
Proof.
  destruct s as [s|]; [|done]. unfold saveMessagesToCache.
  destruct (setItem s _ _) as [s1|e] eqn:E1; cbn [fst].
  { cbn [accepting]. by rewrite (setItem_refuses _ _ _ _ E1). }
  destruct (isQuotaExceeded e); [|done]. destruct (_ <? _)%nat; [|done].
  destruct (setItem (removeOldest _ _ _) _ _) as [s2|e2] eqn:E2; cbn [fst accepting].
  - by rewrite (setItem_refuses _ _ _ _ E2), removeOldest_refuses.
  - by rewrite removeOldest_refuses.
Qed.

(** With a storage that accepts every write, what is saved is there. *)
Lemma saveMessagesToCache_accepted s now now' theChat msgs :
  accepting s ->
  loadMessagesFromCache (saveMessagesToCache s now now' theChat msgs).1 theChat = Some msgs.
Proof.
  destruct s as [s|]; [|done]. cbn [accepting]. intros Hacc.
  unfold saveMessagesToCache, setItem. rewrite Hacc. cbn [fst].
  unfold loadMessagesFromCache, getItem. cbn [items].
  by rewrite CacheAccessProofs.lookup_upsert.
Qed.

Lemma saveEffect_accepting now chat msgs s :
  accepting (Chat.saveEffect now chat msgs s) <-> accepting s.
Proof.
  unfold Chat.saveEffect. destruct chat as [c|]; [|done]. destruct msgs; [done|].
  apply saveMessagesToCache_accepting.
Qed.

Section WithEngine.
Context {Engine : SortEngine}.

Lemma handleMessage_accepting theChat cb st :
  accepting (Chat.storage (handleMessage theChat cb st)) <-> accepting (Chat.storage st).
Proof.
  destruct (ChatProofs.handleMessage_cases theChat cb st)
    as [(_ & E & _) | (msg & _ & _ & _ & _ & _ & _ & E)]; rewrite E; [done|].
  apply saveMessagesToCache_accepting.
Qed.

(** The timeline of the chat that is open is the one its cache holds. *)
Lemma chat_reachable_cached st :
  Chat.reachable st -> accepting (Chat.storage st) ->
  forall c, currentChat st = Some c -> messages st <> [] ->
  loadMessagesFromCache (Chat.storage st) (id c) = Some (messages st).
Proof.
  induction 1 as [s Hs|now chat st _ IH|theChat cb st _ IH|st _ IH].
  - by intros _ c [=].
  - unfold selectChat, openChat. cbn [Chat.storage cleanup].
    destruct (loadMessagesFromCache (Chat.storage st) (id chat)) as [[|m cached]|] eqn:E;
      cbn [messages currentChat Chat.storage]; try by intros _ c _ Hne.
    intros Hacc c [= <-] _. apply saveEffect_accepting in Hacc.
    cbn [Chat.saveEffect]. by apply saveMessagesToCache_accepted.
  - unfold Chat.deliver. case_bool_decide as Hl; [|exact IH].
    destruct (ChatProofs.handleMessage_other theChat cb st) as [Hc _].
    case_bool_decide as Hsame.
    + destruct (ChatProofs.handleMessage_cases theChat cb st)
        as [(_ & Es & _) | (msg & _ & _ & _ & _ & Em & _)].
      * rewrite Es, Hsame, Hc. exact IH.
      * rewrite Em in Hsame. by apply ChatProofs.Array_sort_snoc_neq in Hsame.
    + cbn [currentChat messages Chat.storage]. rewrite Hc.
      intros Hacc c Ec Hne. rewrite Ec in Hacc.
      destruct (messages (handleMessage theChat cb st)) as [|m l] eqn:Em; [done|].
      rewrite Ec. cbn [Chat.saveEffect] in *. apply saveMessagesToCache_accepted.
      by apply saveMessagesToCache_accepting in Hacc.
  - exact IH.
Qed.

End WithEngine.

End ChatCacheProofs.
(** ** Chat.tsx: what the cache gives back, what the form does *)

Module ChatLaws.
Import GunService UserCache Chat Contacts Samples.

(** X24 (Chat.tsx, message effect, [handleMessage] and the effect that saves
    the timeline).  In every state the component reaches, with a storage
    that accepts every write: the cache of the chat that is open holds the
    timeline that is shown, if it is not empty, and the component mounted
    anew over that storage shows the same timeline as soon as the chat is
    opened. *)
Theorem timeline_survives_reload {Engine : SortEngine}
    (st : ChatState) (c : ChatSession) (now : Z)
    (Hreach : Chat.reachable st)
    (Haccepts : accepting (Chat.storage st))
    (Hopen : currentChat st = Some c)
    (Hshown : messages st <> []) :
  loadMessagesFromCache (Chat.storage st) (id c) = Some (messages st)
  /\ messages (selectChat now c (Chat.mount (Chat.storage st))) = messages st.
Proof.
  pose proof (ChatCacheProofs.chat_reachable_cached st Hreach Haccepts c Hopen Hshown) as E.
  split; [exact E|]. unfold selectChat, openChat. cbn [Chat.storage cleanup Chat.mount].
  rewrite E. by destruct (messages st).
Qed.

Lemma timeline_survives_reload_witness :
  let st := Chat.feed (Engine := V8.engine) (lit "alice:bob")
              [arrival 100 "k1"; arrival 50 "k2"] opened in
  map _key (messages st) = [Some (lit "k2"); Some (lit "k1")]
  /\ messages (selectChat 7 alice_bob (Chat.mount (Chat.storage st))) = messages st.
Proof.
  cbv zeta. split; [by vm_compute|].
  refine (proj2 (timeline_survives_reload (Engine := V8.engine) _ alice_bob 7 _ _ _ _)).
  - apply ChatProofs.feed_reachable. apply Chat.reach_select, Chat.reach_mount. by cbn.
  - by vm_compute.
  - by vm_compute.
  - by vm_compute.
Defined.

(** X25 (Chat.tsx, the effect that saves the timeline, lines 155-159).  When
    a chat is selected while another timeline is on screen, that timeline
    is saved under the key of the chat selected: if that chat had no
    messages cached, its cache now holds the timeline that was on screen,
    the screen is empty, and the next time the chat is opened over this
    storage the other timeline is shown as its own. *)
Theorem selected_chat_inherits_the_shown_timeline
    (st : ChatState) (chat : ChatSession) (now now' : Z)
    (Haccepts : accepting (Chat.storage st))
    (Hshown : messages st <> [])
    (Hnone : loadMessagesFromCache (Chat.storage st) (id chat) = None
             \/ loadMessagesFromCache (Chat.storage st) (id chat) = Some []) :
  let st' := selectChat now chat st in
  currentChat st' = Some chat
  /\ messages st' = []
  /\ loadMessagesFromCache (Chat.storage st') (id chat) = Some (messages st)
  /\ messages (selectChat now' chat (Chat.mount (Chat.storage st'))) = messages st.
Proof.
  intros st'.
  assert (Es : st' = {| currentChat := Some chat; messages := [];
                        renderedMessageKeys := ∅;
                        Chat.storage := (saveMessagesToCache (Chat.storage st) now now
                                           (id chat) (messages st)).1;
                        Chat.listening := Some (id chat) |}).
  { unfold st', selectChat, openChat. cbn [Chat.storage cleanup].
    destruct (messages st) as [|m l] eqn:Em; [done|].
    by destruct Hnone as [-> | ->]. }
  pose proof (ChatCacheProofs.saveMessagesToCache_accepted _ now now (id chat) (messages st)
                Haccepts) as E.
  rewrite Es. cbn [currentChat messages Chat.storage]. repeat split; [exact E|].
  unfold selectChat, openChat. cbn [Chat.storage cleanup Chat.mount]. rewrite E.
  by destruct (messages st).
Qed.

Lemma selected_chat_inherits_the_shown_timeline_witness :
  let with_bob := Chat.feed (Engine := V8.engine) (lit "alice:bob")
                    [arrival 100 "k1"] opened in
  let with_carol := selectChat 5 alice_carol with_bob in
  map _key (messages with_bob) = [Some (lit "k1")]
  /\ messages with_carol = []
  /\ messages (selectChat 9 alice_carol (Chat.mount (Chat.storage with_carol)))
     = messages with_bob.
Proof.
  cbv zeta.
  pose proof (selected_chat_inherits_the_shown_timeline
                (Chat.feed (Engine := V8.engine) (lit "alice:bob") [arrival 100 "k1"] opened)
                alice_carol 5 9)
    as H.
  cbv zeta in H. split; [by vm_compute|].
  refine ((fun H' => conj (proj1 (proj2 H')) (proj2 (proj2 (proj2 H')))) (H _ _ _)).
  - by vm_compute.
  - by vm_compute.
  - left. by vm_compute.
Defined.

Section NewChat.
Variable JSON_parse : jsstring -> option JsValue.

(** X26 (Chat.tsx, [handleNewChatSubmit]; gunService.ts, [createChatLink]).
    When the form starts a chat, the partner is the trimmed input, a name
    of letters, digits, [_] and [-] other than the user's own; the chat id
    is the user's sanitised name and the partner's, sorted and joined by a
    colon; the graph links both users to it and keeps every link it had.
    When the form ends with a status line the graph is as before, and for
    an empty, own or ill-formed name the directory is not asked. *)
Theorem new_chat_form_outcomes
    (gun : option Graph) (reads : nat -> Read) (currentUser input : jsstring)
    (outcome : NewChatOutcome) (events : list Event) (gun' : option Graph)
    (Hrun : handleNewChatSubmit JSON_parse gun reads currentUser input
            = (outcome, events, gun')) :
  match outcome with
  | Started chat =>
      partner chat = trim input
      /\ trim input <> currentUser
      /\ validUsername (trim input) = true
      /\ id chat = sortedJoin (sanitizeForChatId currentUser) (trim input)
      /\ linked gun' currentUser (id chat)
      /\ linked gun' (trim input) (id chat)
      /\ (forall user other, linked gun user other -> linked gun' user other)
  | Status msg =>
      gun' = gun
      /\ (trim input = [] \/ trim input = currentUser \/ validUsername (trim input) = false
          -> events = [])
  end.
Proof.
  revert Hrun. unfold handleNewChatSubmit.
  destruct (truthy (trim input)) eqn:Ht; cbn [negb].
  2:{ intros [= <- <- <-]. by split. }
  case_bool_decide as Hself.
  { intros [= <- <- <-]. by split. }
  destruct (validUsername (trim input)) eqn:Hv; cbn [negb].
  2:{ intros [= <- <- <-]. by split. }
  destruct (fetchPartnerPubKey _ _ _ _ _) as [pubKey evs].
  assert (Hne : trim input <> []) by by apply ChatProofs.truthy_nonempty.
  destruct (falsy pubKey).
  { intros [= <- <- <-]. split; [done|]. intros [?|[?|?]]; congruence. }
  pose proof (ContactsProofs.validUsername_restricted _ Hv) as Hsan.
  unfold createChatLink. destruct gun as [g|].
  2:{ intros [= <- <- <-]. split; [done|]. intros [?|[?|?]]; congruence. }
  rewrite (GunServiceProofs.sanitize_restricted _ Hsan).
  destruct (negb (truthy (sanitizeForChatId currentUser)) || negb (truthy (trim input))).
  { intros [= <- <- <-]. split; [done|]. intros [?|[?|?]]; congruence. }
  intros [= <- <- <-]. cbn [partner id]. repeat split; try done.
  - apply ContactsProofs.linked_chats_set. left.
    apply ContactsProofs.linked_chats_set. by right.
  - apply ContactsProofs.linked_chats_set. by right.
  - intros user other Hl.
    apply ContactsProofs.linked_chats_set. left.
    apply ContactsProofs.linked_chats_set. by left.
Qed.

End NewChat.

Lemma new_chat_form_outcomes_witness :
  let run := handleNewChatSubmit parse_bob (Some ∅) third_time alice (lit "  bob ") in
  run.1.1 = Started {| partner := bob; id := lit "alice:bob" |}
  /\ linked run.2 alice (lit "alice:bob") /\ linked run.2 bob (lit "alice:bob").
Proof.
  cbv zeta.
  pose proof (new_chat_form_outcomes parse_bob (Some ∅) third_time alice (lit "  bob ")
                _ _ _ (ChatCacheProofs.triple_eta _)) as H.
  assert ((handleNewChatSubmit parse_bob (Some ∅) third_time alice (lit "  bob ")).1.1
          = Started {| partner := bob; id := lit "alice:bob" |}) as E
    by (lazy; reflexivity).
  rewrite E in H. destruct H as (_ & _ & _ & _ & H1 & H2 & _).
  split; [exact E|]. split; [exact H1|exact H2].
Defined.

End ChatLaws.
